(** * ROOT fragments: TMVA SOFIE ConvTranspose and RooJohnson

    A shallow embedding of two pieces of the repository:

    - [ROperator_ConvTranspose<T>] (shape inference, initialisation and code
      emission for the transposed convolution operator), and
    - [RooJohnson] (Johnson's SU density, its analytic integral and its
      direct sampler).

    C++ objects are records, member functions are computations in a small
    state-and-exception monad, [size_t] is [Z] reduced modulo [2^64], and an
    out-of-range [operator[]] is the distinguished outcome [Undefined]. *)

From Stdlib Require Import ZArith Ascii String Reals Lra Lia SpecFloat.
From stdpp Require Import base list strings gmap pretty.

Open Scope Z_scope.

(** ** The execution monad *)

Module Cxx.

(** What a call can do: return a value in a new state, leave through an
    exception (the state reached at the [throw] is kept, C++ does not roll
    back), end the process through [std::abort] (a failed [assert]), or have
    no meaning at all (undefined behaviour). *)
Inductive Result (S A : Type) : Type :=
| Ok (a : A) (s : S)
| Throw (what : string) (s : S)
| Abort (what : string)
| Undefined.
Arguments Ok {S A} a s.
Arguments Throw {S A} what s.
Arguments Abort {S A} what.
Arguments Undefined {S A}.

Definition M (S A : Type) : Type := S -> Result S A.

Definition ret {S A} (a : A) : M S A := fun s => Ok a s.

Definition bind {S A B} (f : A -> M S B) (m : M S A) : M S B :=
  fun s =>
    match m s with
    | Ok a s' => f a s'
    | Throw w s' => Throw w s'
    | Abort w => Abort w
    | Undefined => Undefined
    end.

#[global] Instance M_ret {S} : MRet (M S) := fun A => @ret S A.
#[global] Instance M_bind {S} : MBind (M S) := fun A B => @bind S A B.

Definition gets {S A} (f : S -> A) : M S A := fun s => Ok (f s) s.
Definition modify {S} (f : S -> S) : M S unit := fun s => Ok tt (f s).
Definition throw {S A} (what : string) : M S A := fun s => Throw what s.
Definition abort {S A} (what : string) : M S A := fun _ => Abort what.
Definition undefined {S A} : M S A := fun _ => Undefined.

(** [assert(e)] of [<cassert>]: nothing when [NDEBUG] is defined, otherwise
    the process is aborted if [e] is false. *)
Definition assert {S} (NDEBUG e : bool) (text : string) : M S unit :=
  if NDEBUG then ret tt else if e then ret tt else abort ("Assertion failed: " +:+ text).

Definition when_ {S} (b : bool) (m : M S unit) : M S unit :=
  if b then m else ret tt.

(** Run a computation on a component of a larger state. *)
Definition zoom {S T A} (proj : T -> S) (inj : S -> T -> T) (m : M S A) : M T A :=
  fun t =>
    match m (proj t) with
    | Ok a s => Ok a (inj s t)
    | Throw w s => Throw w (inj s t)
    | Abort w => Abort w
    | Undefined => Undefined
    end.

(** [for (size_t i = 0; i < n; i++) body], threading the locals [acc]. *)
Fixpoint for_from {S A} (k : nat) (i : Z) (body : Z -> A -> M S A) (acc : A) : M S A :=
  match k with
  | O => ret acc
  | Datatypes.S k' => acc' ← body i acc; for_from k' (i + 1) body acc'
  end.

Definition for_ {S A} (n : Z) (body : Z -> A -> M S A) (acc : A) : M S A :=
  for_from (Z.to_nat n) 0 body acc.

(** *** [size_t] *)

Definition wrap (z : Z) : Z := z mod 2 ^ 64.

Definition sz_add (a b : Z) : Z := wrap (a + b).
Definition sz_sub (a b : Z) : Z := wrap (a - b).
Definition sz_mul (a b : Z) : Z := wrap (a * b).

(** Division by zero is undefined behaviour. *)
Definition sz_div {S} (a b : Z) : M S Z :=
  if b =? 0 then undefined else ret (a / b).

Declare Scope size_t_scope.
Delimit Scope size_t_scope with sz.
Arguments sz_add (a b)%_sz.
Arguments sz_sub (a b)%_sz.
Arguments sz_mul (a b)%_sz.
Notation "a + b" := (sz_add a b) : size_t_scope.
Notation "a - b" := (sz_sub a b) : size_t_scope.
Notation "a * b" := (sz_mul a b) : size_t_scope.

(** *** [std::vector] *)

(** [v[i]]: no bounds check in C++, so reading outside the vector is
    undefined behaviour. *)
Definition at_ {S A} (v : list A) (i : Z) : M S A :=
  match v !! Z.to_nat i with
  | Some x => ret x
  | None => undefined
  end.

(** [v[i] = x] on a vector held in a local; the new vector is returned. *)
Definition store {S A} (v : list A) (i : Z) (x : A) : M S (list A) :=
  if (Z.to_nat i <? length v)%nat then ret (<[Z.to_nat i := x]> v)
  else undefined.

(** [max_size()] of a [std::vector<size_t>] on an LP64 libstdc++:
    [PTRDIFF_MAX / sizeof(size_t)]. Constructing or resizing beyond it throws
    [std::length_error]; below it memory is taken to suffice. *)
Definition max_size : Z := Eval cbv in 2 ^ 60 - 1.

(** [std::vector<size_t>(n, x)] *)
Definition vector_fill {S} (n x : Z) : M S (list Z) :=
  if max_size <? n then throw "cannot create std::vector larger than max_size()"
  else ret (replicate (Z.to_nat n) x).

(** [v.resize(n)] *)
Definition vector_resize {S} (v : list Z) (n : Z) : M S (list Z) :=
  if max_size <? n then throw "vector::_M_default_append"
  else ret (resize (Z.to_nat n) 0 v).

Definition empty {A} (v : list A) : bool :=
  match v with [] => true | _ => false end.

(** The call returned, in state [s], whatever the value. *)
Definition produces {S A} (r : Result S A) (s : S) : Prop := exists a, r = Ok a s.

End Cxx.

Import Cxx.

(** ** TMVA::Experimental::SOFIE::ROperator_ConvTranspose *)

Module SOFIE.

(** The data members the member functions read and write. *)
Record ROperator_ConvTranspose : Type := mkOp {
  fAttrAutopad : string;
  fAttrDilations : list Z;
  fAttrGroup : Z;
  fAttrKernelShape : list Z;
  fAttrOutputPadding : list Z;
  fAttrOutputShape : list Z;
  fAttrPads : list Z;
  fAttrStrides : list Z;
  fNX : string;
  fNW : string;
  fNB : string;
  fNBroadcastedB : string;
  fNY : string;
  fShapeX : list Z;
  fShapeW : list Z;
  fShapeB : list Z;
  fShapeY : list Z;
  fType : string;
  fDim : Z;
  fUseSession : bool
}.

Definition set_fAttrDilations v o :=
  mkOp (fAttrAutopad o) v (fAttrGroup o) (fAttrKernelShape o) (fAttrOutputPadding o)
    (fAttrOutputShape o) (fAttrPads o) (fAttrStrides o) (fNX o) (fNW o) (fNB o)
    (fNBroadcastedB o) (fNY o) (fShapeX o) (fShapeW o) (fShapeB o) (fShapeY o)
    (fType o) (fDim o) (fUseSession o).
Definition set_fAttrGroup v o :=
  mkOp (fAttrAutopad o) (fAttrDilations o) v (fAttrKernelShape o) (fAttrOutputPadding o)
    (fAttrOutputShape o) (fAttrPads o) (fAttrStrides o) (fNX o) (fNW o) (fNB o)
    (fNBroadcastedB o) (fNY o) (fShapeX o) (fShapeW o) (fShapeB o) (fShapeY o)
    (fType o) (fDim o) (fUseSession o).
Definition set_fAttrKernelShape v o :=
  mkOp (fAttrAutopad o) (fAttrDilations o) (fAttrGroup o) v (fAttrOutputPadding o)
    (fAttrOutputShape o) (fAttrPads o) (fAttrStrides o) (fNX o) (fNW o) (fNB o)
    (fNBroadcastedB o) (fNY o) (fShapeX o) (fShapeW o) (fShapeB o) (fShapeY o)
    (fType o) (fDim o) (fUseSession o).
Definition set_fAttrOutputPadding v o :=
  mkOp (fAttrAutopad o) (fAttrDilations o) (fAttrGroup o) (fAttrKernelShape o) v
    (fAttrOutputShape o) (fAttrPads o) (fAttrStrides o) (fNX o) (fNW o) (fNB o)
    (fNBroadcastedB o) (fNY o) (fShapeX o) (fShapeW o) (fShapeB o) (fShapeY o)
    (fType o) (fDim o) (fUseSession o).
Definition set_fAttrOutputShape v o :=
  mkOp (fAttrAutopad o) (fAttrDilations o) (fAttrGroup o) (fAttrKernelShape o)
    (fAttrOutputPadding o) v (fAttrPads o) (fAttrStrides o) (fNX o) (fNW o) (fNB o)
    (fNBroadcastedB o) (fNY o) (fShapeX o) (fShapeW o) (fShapeB o) (fShapeY o)
    (fType o) (fDim o) (fUseSession o).
Definition set_fAttrPads v o :=
  mkOp (fAttrAutopad o) (fAttrDilations o) (fAttrGroup o) (fAttrKernelShape o)
    (fAttrOutputPadding o) (fAttrOutputShape o) v (fAttrStrides o) (fNX o) (fNW o) (fNB o)
    (fNBroadcastedB o) (fNY o) (fShapeX o) (fShapeW o) (fShapeB o) (fShapeY o)
    (fType o) (fDim o) (fUseSession o).
Definition set_fAttrStrides v o :=
  mkOp (fAttrAutopad o) (fAttrDilations o) (fAttrGroup o) (fAttrKernelShape o)
    (fAttrOutputPadding o) (fAttrOutputShape o) (fAttrPads o) v (fNX o) (fNW o) (fNB o)
    (fNBroadcastedB o) (fNY o) (fShapeX o) (fShapeW o) (fShapeB o) (fShapeY o)
    (fType o) (fDim o) (fUseSession o).
Definition set_fNBroadcastedB v o :=
  mkOp (fAttrAutopad o) (fAttrDilations o) (fAttrGroup o) (fAttrKernelShape o)
    (fAttrOutputPadding o) (fAttrOutputShape o) (fAttrPads o) (fAttrStrides o) (fNX o)
    (fNW o) (fNB o) v (fNY o) (fShapeX o) (fShapeW o) (fShapeB o) (fShapeY o)
    (fType o) (fDim o) (fUseSession o).
Definition set_fShapeX v o :=
  mkOp (fAttrAutopad o) (fAttrDilations o) (fAttrGroup o) (fAttrKernelShape o)
    (fAttrOutputPadding o) (fAttrOutputShape o) (fAttrPads o) (fAttrStrides o) (fNX o)
    (fNW o) (fNB o) (fNBroadcastedB o) (fNY o) v (fShapeW o) (fShapeB o) (fShapeY o)
    (fType o) (fDim o) (fUseSession o).
Definition set_fShapeW v o :=
  mkOp (fAttrAutopad o) (fAttrDilations o) (fAttrGroup o) (fAttrKernelShape o)
    (fAttrOutputPadding o) (fAttrOutputShape o) (fAttrPads o) (fAttrStrides o) (fNX o)
    (fNW o) (fNB o) (fNBroadcastedB o) (fNY o) (fShapeX o) v (fShapeB o) (fShapeY o)
    (fType o) (fDim o) (fUseSession o).
Definition set_fShapeB v o :=
  mkOp (fAttrAutopad o) (fAttrDilations o) (fAttrGroup o) (fAttrKernelShape o)
    (fAttrOutputPadding o) (fAttrOutputShape o) (fAttrPads o) (fAttrStrides o) (fNX o)
    (fNW o) (fNB o) (fNBroadcastedB o) (fNY o) (fShapeX o) (fShapeW o) v (fShapeY o)
    (fType o) (fDim o) (fUseSession o).
Definition set_fShapeY v o :=
  mkOp (fAttrAutopad o) (fAttrDilations o) (fAttrGroup o) (fAttrKernelShape o)
    (fAttrOutputPadding o) (fAttrOutputShape o) (fAttrPads o) (fAttrStrides o) (fNX o)
    (fNW o) (fNB o) (fNBroadcastedB o) (fNY o) (fShapeX o) (fShapeW o) (fShapeB o) v
    (fType o) (fDim o) (fUseSession o).
Definition set_fDim v o :=
  mkOp (fAttrAutopad o) (fAttrDilations o) (fAttrGroup o) (fAttrKernelShape o)
    (fAttrOutputPadding o) (fAttrOutputShape o) (fAttrPads o) (fAttrStrides o) (fNX o)
    (fNW o) (fNB o) (fNBroadcastedB o) (fNY o) (fShapeX o) (fShapeW o) (fShapeB o)
    (fShapeY o) (fType o) v (fUseSession o).
Definition set_fUseSession v o :=
  mkOp (fAttrAutopad o) (fAttrDilations o) (fAttrGroup o) (fAttrKernelShape o)
    (fAttrOutputPadding o) (fAttrOutputShape o) (fAttrPads o) (fAttrStrides o) (fNX o)
    (fNW o) (fNB o) (fNBroadcastedB o) (fNY o) (fShapeX o) (fShapeW o) (fShapeB o)
    (fShapeY o) (fType o) (fDim o) v.

Abbreviation Op := ROperator_ConvTranspose.

(** [member[i]] and [member[i] = x] on a vector data member. *)
Definition rd (member : Op -> list Z) (i : Z) : M Op Z :=
  v ← gets member; at_ v i.

Definition wr (member : Op -> list Z) (set : list Z -> Op -> Op) (i x : Z) : M Op unit :=
  v ← gets member; v' ← store v i x; modify (set v').

(** The statements of [ShapeInference], one definition per [if (... .empty())]
    of the source, in source order. *)

(** [if (fAttrStrides.empty()) fAttrStrides = std::vector<size_t>(fDim, 1);] *)
Definition default_strides : M Op unit :=
  strides ← gets fAttrStrides;
  when_ (empty strides)
    (dim ← gets fDim; v ← vector_fill dim 1; modify (set_fAttrStrides v)).

(** [if (fAttrDilations.empty()) fAttrDilations = std::vector<size_t>(fDim, 1);] *)
Definition default_dilations : M Op unit :=
  dilations ← gets fAttrDilations;
  when_ (empty dilations)
    (dim ← gets fDim; v ← vector_fill dim 1; modify (set_fAttrDilations v)).

(** The shape of the kernel is kw for 1d image, kh x Kw for 2d images and
    kd x kh x kw for a 3d image. *)
Definition default_kernel_shape : M Op unit :=
  kernelShape ← gets fAttrKernelShape;
  when_ (empty kernelShape)
    (dim ← gets fDim;
     v ← vector_resize kernelShape dim;
     modify (set_fAttrKernelShape v);;
     for_ dim (fun i _ =>
       w ← rd fShapeW (i + 2)%sz;
       d ← rd fAttrDilations i;
       wr fAttrKernelShape set_fAttrKernelShape i (w + (d - 1) * (w - 1))%sz) tt).

(** [if (fAttrOutputPadding.empty()) fAttrOutputPadding = std::vector<size_t>(fDim, 0);] *)
Definition default_output_padding : M Op unit :=
  outputPadding ← gets fAttrOutputPadding;
  when_ (empty outputPadding)
    (dim ← gets fDim; v ← vector_fill dim 0; modify (set_fAttrOutputPadding v)).

(** [if (fAttrOutputShape.empty()) { ... }] *)
Definition default_output_shape (inputShape : list Z) : M Op unit :=
  outputShape ← gets fAttrOutputShape;
  when_ (empty outputShape)
    (dim ← gets fDim;
     v ← vector_resize outputShape dim;
     modify (set_fAttrOutputShape v);;
     for_ dim (fun i _ =>
       let j := (i + 2)%sz in
       s ← rd fAttrStrides i;
       x ← at_ inputShape j;
       k ← rd fAttrKernelShape i;
       p ← rd fAttrOutputPadding i;
       wr fAttrOutputShape set_fAttrOutputShape i (s * (x - 1) + k - p)%sz) tt).

(** Generate the padding: [if (fAttrPads.empty()) { ... }] *)
Definition default_pads : M Op unit :=
  pads ← gets fAttrPads;
  when_ (empty pads)
    (dim ← gets fDim;
     totalPadding ← vector_fill dim 1;
     totalPadding ← for_ dim (fun i totalPadding =>
       let j := (i + 2)%sz in
       s ← rd fAttrStrides i;
       o ← rd fAttrOutputShape i;
       p ← rd fAttrOutputPadding i;
       k ← rd fAttrKernelShape i;
       x ← rd fShapeX j;
       store totalPadding i (s * (o - 1) + p + k - x)%sz) totalPadding;
     v ← vector_fill (2 * dim)%sz 0;
     modify (set_fAttrPads v);;
     autopad ← gets fAttrAutopad;
     for_ dim (fun i _ =>
       let end_i := (i + dim)%sz in
       if String.eqb autopad "SAME_UPPER" then
         t ← at_ totalPadding i;
         wr fAttrPads set_fAttrPads i (t / 2);;
         b ← rd fAttrPads i;
         wr fAttrPads set_fAttrPads end_i (t - b)%sz
       else
         t ← at_ totalPadding i;
         wr fAttrPads set_fAttrPads end_i (t / 2);;
         e ← rd fAttrPads end_i;
         wr fAttrPads set_fAttrPads i (t - e)%sz) tt).

(** [for (size_t i = 0; i < fDim; i++) outShape[i + 2] = fAttrOutputShape[i];] *)
Definition copy_output_shape (outShape : list Z) : M Op (list Z) :=
  dim ← gets fDim;
  for_ dim (fun i outShape =>
    o ← rd fAttrOutputShape i;
    store outShape (i + 2)%sz o) outShape.

(** [ShapeInference(input)]: the output shape of the operator; every
    attribute that was left empty is filled in on the way. *)
Definition ShapeInference (input : list (list Z)) : M Op (list (list Z)) :=
  inputShape ← at_ input 0;
  weightShape ← at_ input 1;
  let size := Z.of_nat (length inputShape) in
  (* Dimension of the conv transpose op *)
  modify (set_fDim (size - 2)%sz);;
  (* Number of groups *)
  group ← gets fAttrGroup;
  when_ (group =? 0) (modify (set_fAttrGroup 1));;
  default_strides;;
  default_dilations;;
  default_kernel_shape;;
  default_output_padding;;
  (* where out_channel = weight_shape[1] * group *)
  outShape ← vector_fill size 0;
  n ← at_ inputShape 0;
  outShape ← store outShape 0 n;
  c ← at_ weightShape 1;
  group ← gets fAttrGroup;
  outShape ← store outShape 1 (c * group)%sz;
  default_output_shape inputShape;;
  default_pads;;
  outShape ← copy_output_shape outShape;
  ret [outShape].

(** *** Vocabulary for the statements about [ShapeInference] *)

(** An attribute is settled when the next [ShapeInference] leaves it alone. *)
Definition settled (member : Op -> list Z) (s : Op) : Prop :=
  member s <> [] \/ (member s = [] /\ fDim s = 0).

(** The operator after the first two statements of [ShapeInference]. *)
Definition started (inputShape : list Z) (s : Op) : Op :=
  (if fAttrGroup s =? 0 then set_fAttrGroup 1 else fun o => o)
    (set_fDim (Z.of_nat (length inputShape) - 2)%sz s).

(** [outShape] before the last loop. *)
Definition outShape_head (inputShape : list Z) (n c group : Z) : list Z :=
  <[1%nat := (c * group)%sz]> (<[0%nat := n]> (replicate (length inputShape) 0)).

Definition ShapeInference_run (input : list (list Z)) (s : Op)
    (ret : list (list Z)) (s' : Op) : Prop :=
  exists inputShape weightShape n c s1 s2 s3 s4 s5 s6 out,
    input !! 0%nat = Some inputShape /\ input !! 1%nat = Some weightShape /\
    default_strides (started inputShape s) = Ok tt s1 /\
    default_dilations s1 = Ok tt s2 /\
    default_kernel_shape s2 = Ok tt s3 /\
    default_output_padding s3 = Ok tt s4 /\
    Z.of_nat (length inputShape) <= max_size /\
    inputShape !! 0%nat = Some n /\ weightShape !! 1%nat = Some c /\
    (1 < length inputShape)%nat /\
    default_output_shape inputShape s4 = Ok tt s5 /\
    default_pads s5 = Ok tt s6 /\
    copy_output_shape (outShape_head inputShape n c (fAttrGroup s4)) s6 = Ok out s' /\
    ret = [out].

(** An attribute vector is either absent or has one entry per spatial axis. *)
Definition sized (n : nat) (v : list Z) : Prop := v = [] \/ length v = n.

(** *** The enclosing model and the helpers of [SOFIE_common.hxx]

    [RModel], [ETensorType], [ConvertShapeToString], [UTILITY::BroadcastConvBias]
    and the indentation constant [SP] are declared outside the files at hand.
    They are taken as an interface: the model's methods are computations on
    the model, free to throw. *)
Class Env (RModel ETensorType TensorData : Type) : Type := {
  UseSession : RModel -> bool;
  CheckIfTensorAlreadyExist : string -> RModel -> bool;
  GetTensorShape : string -> M RModel (list Z);
  GetTensorType : string -> M RModel ETensorType;
  AddIntermediateTensor : string -> ETensorType -> list Z -> M RModel unit;
  GetInitializedTensorData : string -> M RModel TensorData;
  UpdateInitializedTensor : string -> ETensorType -> list Z -> TensorData -> M RModel unit;
  BroadcastConvBias : TensorData -> Z -> list Z -> M unit TensorData;
  ConvertShapeToString : list Z -> string;
  SP : string
}.

(** What a member function can touch: the operator itself, the model it is
    given, and the process's standard output. *)
Record World (RModel : Type) : Type := mkWorld {
  self : Op;
  model : RModel;
  cout : list string
}.
Arguments mkWorld {RModel} self model cout.
Arguments self {RModel} w.
Arguments model {RModel} w.
Arguments cout {RModel} w.

Definition endl : string := String "010"%char "".

Section Members.
Context {RModel ETensorType TensorData : Type} `{!Env RModel ETensorType TensorData}.

Definition set_self (o : Op) (w : World RModel) : World RModel :=
  mkWorld o (model w) (cout w).
Definition set_model (m : RModel) (w : World RModel) : World RModel :=
  mkWorld (self w) m (cout w).

(** [std::cout << line << std::endl] *)
Definition print (line : string) : M (World RModel) unit :=
  modify (fun w => mkWorld (self w) (model w) (cout w ++ [line +:+ endl])).

Definition this {A} (m : M Op A) : M (World RModel) A := zoom self set_self m.
Definition on_model {A} (m : M RModel A) : M (World RModel) A := zoom model set_model m.
Definition call {A} (m : M unit A) : M (World RModel) A := zoom (fun _ => tt) (fun _ w => w) m.

(** [Initialize(model)]: checks the tensors the operator refers to, infers
    the output shape, registers the output tensor and prepares the bias. *)
Definition Initialize : M (World RModel) unit :=
  us ← on_model (gets UseSession);
  this (modify (set_fUseSession us));;
  nx ← this (gets fNX);
  found ← on_model (gets (CheckIfTensorAlreadyExist nx));
  when_ (negb found)
    (throw ("TMVA SOFIE Conv Transpose op Input Tensor " +:+ nx +:+ " is not found in model"));;
  shapeX ← on_model (GetTensorShape nx);
  this (modify (set_fShapeX shapeX));;
  let sizeX := Z.of_nat (length shapeX) in
  when_ ((sizeX <? 3) || (5 <? sizeX))
    (print (nx +:+ " : " +:+ ConvertShapeToString shapeX);;
     throw ("TMVA SOFIE Conv Transpose Op input data tensor" +:+ nx +:+
            " is not of 3,4 or 5 dimensions"));;
  this (modify (set_fDim (sizeX - 2)%sz));;
  nw ← this (gets fNW);
  found ← on_model (gets (CheckIfTensorAlreadyExist nw));
  when_ (negb found)
    (throw ("TMVA SOFIE Conv op Input weight Tensor " +:+ nw +:+ " is not found in model"));;
  shapeW ← on_model (GetTensorShape nw);
  this (modify (set_fShapeW shapeW));;
  let sizeW := Z.of_nat (length shapeW) in
  when_ ((sizeW <? 3) || (5 <? sizeW))
    (print (nw +:+ " : " +:+ ConvertShapeToString shapeW);;
     throw ("TMVA SOFIE Conv Transpose Op input weight tensor" +:+ nw +:+
            " is not of 3,4 or 5 dimensions"));;
  shapes ← this (ShapeInference [shapeX; shapeW]);
  shapeY ← at_ shapes 0;
  this (modify (set_fShapeY shapeY));;
  ny ← this (gets fNY);
  typeX ← on_model (GetTensorType nx);
  on_model (AddIntermediateTensor ny typeX shapeY);;
  nb ← this (gets fNB);
  when_ (negb (String.eqb nb ""))
    (found ← on_model (gets (CheckIfTensorAlreadyExist nb));
     when_ (negb found)
       (throw ("TMVA SOFIE Conv op Input Tensor " +:+ nb +:+ " is not found in model"));;
     shapeB ← on_model (GetTensorShape nb);
     this (modify (set_fShapeB shapeB));;
     let broadcast_needed := negb (length shapeB =? length shapeY)%nat in
     (* Broadcast the bias B *)
     when_ broadcast_needed
       (original_data ← on_model (GetInitializedTensorData nb);
        (* make bias shape equal to Y shape by adding 1 *)
        when_ (Z.of_nat (length shapeB) <? 1)
          (throw "TMVA SOFIE Conv op: Bias Tensor has empty shape");;
        (* we assume bias tensor dimension is equal to number of filters that
           is the second dimension in the output tensor *)
        b0 ← at_ shapeB 0;
        y1 ← at_ shapeY 1;
        when_ (negb (b0 =? y1))
          (throw ("TMVA SOFIE Conv op: Bias Tensor has wrong shape: " +:+
                  ConvertShapeToString shapeB));;
        type ← this (gets fType);
        when_ (negb (String.eqb type "float"))
          (throw "TMVA SOFIE Conv op: Broadcasting for non-float type tensors is not supported");;
        (* here the acual broadcasting *)
        useSession ← this (gets fUseSession);
        if negb useSession then
          (* Broadcast B from M to N x M x Od x Oh x Ow *)
          new_data ← call (BroadcastConvBias original_data b0 shapeY);
          typeB ← on_model (GetTensorType nb);
          on_model (UpdateInitializedTensor nb typeB shapeY new_data);;
          shapeB ← on_model (GetTensorShape nb);
          this (modify (set_fShapeB shapeB));;
          this (modify (set_fNBroadcastedB nb)) (* use same name *)
        else
          (* In case of session add broadcasting code in Session constructor
             and in GenerateInitCode; we need to add a new intermediate tensor
             for the broadcasted bias tensor *)
          let nbb := "Broadcasted" +:+ nb in
          this (modify (set_fNBroadcastedB nbb));;
          typeB ← on_model (GetTensorType nb);
          on_model (AddIntermediateTensor nbb typeB shapeY))).

(** [out << n] for a [size_t] *)
Definition num (n : Z) : string := pretty n.

(** The call of [UTILITY::Im2col] or [UTILITY::Im2col_3d] that [Generate]
    writes for one batch entry (the same text in the grouped and in the
    ungrouped branch). *)
Definition emit_im2col (OpName : string) (out : string)
    (iDepth iHeight iWidth : Z) : M Op string :=
  dim ← gets fDim;
  nx ← gets fNX;
  x1 ← rd fShapeX 1;
  if dim <? 3 then
    let out := out +:+ SP +:+ SP +:+ "TMVA::Experimental::SOFIE::UTILITY::Im2col<float>(tensor_"
                   +:+ nx +:+ " + x_offset,"
                   (* channels, height, width, kernel_h, kernel_w, pad_h, pad_w,
                      stride_h, stride_w, dilation_h, dilation_w *)
                   +:+ num x1 +:+ "," +:+ num iHeight +:+ "," +:+ num iWidth +:+ "," in
    out ← (if dim =? 1 then
             k0 ← rd fAttrKernelShape 0;
             p0 ← rd fAttrPads 0;
             s0 ← rd fAttrStrides 0;
             d0 ← rd fAttrDilations 0;
             ret (out +:+ "1, " +:+ num k0 +:+ ",0," +:+ num p0 +:+ ",1," +:+ num s0 +:+ ",1,"
                      +:+ num d0)
           else (* dim ==2 *)
             k0 ← rd fAttrKernelShape 0;
             k1 ← rd fAttrKernelShape 1;
             p0 ← rd fAttrPads 0;
             p1 ← rd fAttrPads 1;
             s0 ← rd fAttrStrides 0;
             s1 ← rd fAttrStrides 1;
             d0 ← rd fAttrDilations 0;
             d1 ← rd fAttrDilations 1;
             ret (out +:+ num k0 +:+ "," +:+ num k1 +:+ "," +:+ num p0 +:+ "," +:+ num p1
                      +:+ "," +:+ num s0 +:+ "," +:+ num s1 +:+ "," +:+ num d0 +:+ ","
                      +:+ num d1));
    ret (out +:+ "," +:+ OpName +:+ "_xcol);" +:+ endl +:+ endl +:+ " ")
  else
    (* 3d im2col *)
    k0 ← rd fAttrKernelShape 0;
    k1 ← rd fAttrKernelShape 1;
    k2 ← rd fAttrKernelShape 2;
    p0 ← rd fAttrPads 0;
    p1 ← rd fAttrPads 1;
    p2 ← rd fAttrPads 2;
    s0 ← rd fAttrStrides 0;
    s1 ← rd fAttrStrides 1;
    s2 ← rd fAttrStrides 2;
    d0 ← rd fAttrDilations 0;
    d1 ← rd fAttrDilations 1;
    d2 ← rd fAttrDilations 2;
    ret (out +:+ SP +:+ SP +:+ "TMVA::Experimental::SOFIE::UTILITY::Im2col_3d<float>(tensor_"
             +:+ nx +:+ " + x_offset,"
             (* channels, d, h, w, k_d, k_h, k_w, pad_d, pad_h, pad_w, stride_d,
                stride_h, stride_w, dilation_d, dilation_h, dilation_w *)
             +:+ num x1 +:+ "," +:+ num iDepth +:+ "," +:+ num iHeight +:+ "," +:+ num iWidth
             +:+ "," +:+ num k0 +:+ "," +:+ num k1 +:+ "," +:+ num k2 +:+ "," +:+ num p0
             +:+ "," +:+ num p1 +:+ "," +:+ num p2 +:+ "," +:+ num s0 +:+ "," +:+ num s1
             +:+ "," +:+ num s2 +:+ "," +:+ num d0 +:+ "," +:+ num d1 +:+ "," +:+ num d2
             +:+ "," +:+ OpName +:+ "_xcol);" +:+ endl +:+ endl +:+ " ").

(** The three [if (fDim == ...)] statements of [Generate] that make the
    padding symmetric. *)
Definition average_pads : M (World RModel) unit :=
  let warn :=
    print "TMVA SOFIE Operator Conv:  asymmetric padding not supported. Assume an average padding " in
  dim ← this (gets fDim);
  when_ (dim =? 1)
    (p0 ← this (rd fAttrPads 0);
     p1 ← this (rd fAttrPads 1);
     when_ (negb (p0 =? p1))
       (warn;;
        this (wr fAttrPads set_fAttrPads 0 ((p0 + p1)%sz / 2)));;
     this (wr fAttrPads set_fAttrPads 1 0);;
     this (wr fAttrStrides set_fAttrStrides 1 1));;
  when_ (dim =? 2)
    (p0 ← this (rd fAttrPads 0);
     p2 ← this (rd fAttrPads 2);
     asymmetric ← (if negb (p0 =? p2) then ret true
                   else p1 ← this (rd fAttrPads 1);
                        p3 ← this (rd fAttrPads 3);
                        ret (negb (p1 =? p3)));
     when_ asymmetric
       (warn;;
        p0 ← this (rd fAttrPads 0);
        p2 ← this (rd fAttrPads 2);
        this (wr fAttrPads set_fAttrPads 0 ((p0 + p2)%sz / 2));;
        p1 ← this (rd fAttrPads 1);
        p3 ← this (rd fAttrPads 3);
        this (wr fAttrPads set_fAttrPads 1 ((p1 + p3)%sz / 2))));;
  when_ (dim =? 3)
    (p0 ← this (rd fAttrPads 0);
     p3 ← this (rd fAttrPads 3);
     asymmetric ← (if negb (p0 =? p3) then ret true
                   else p1 ← this (rd fAttrPads 1);
                        p4 ← this (rd fAttrPads 4);
                        if negb (p1 =? p4) then ret true
                        else p2 ← this (rd fAttrPads 2);
                             p5 ← this (rd fAttrPads 5);
                             ret (negb (p2 =? p5)));
     when_ asymmetric
       (warn;;
        p0 ← this (rd fAttrPads 0);
        p3 ← this (rd fAttrPads 3);
        this (wr fAttrPads set_fAttrPads 0 ((p0 + p3)%sz / 2));;
        p1 ← this (rd fAttrPads 1);
        p4 ← this (rd fAttrPads 4);
        this (wr fAttrPads set_fAttrPads 1 ((p1 + p4)%sz / 2));;
        p2 ← this (rd fAttrPads 2);
        p5 ← this (rd fAttrPads 5);
        this (wr fAttrPads set_fAttrPads 2 ((p2 + p5)%sz / 2)))).

(** [Generate(OpName)]: the text of the inference code for this operator. *)
Definition Generate (OpName : string) : M (World RModel) string :=
  let OpName := "op_" +:+ OpName in
  shapeX ← this (gets fShapeX);
  shapeW ← this (gets fShapeW);
  shapeB ← this (gets fShapeB);
  shapeY ← this (gets fShapeY);
  nb ← this (gets fNB);
  when_ (empty shapeX || empty shapeW || (negb (String.eqb nb "") && empty shapeB)
         || empty shapeY)
    (throw "TMVA SOFIE Conv Op called to Generate without being initialized first");;
  dim ← this (gets fDim);
  type ← this (gets fType);
  nx ← this (gets fNX);
  nw ← this (gets fNW);
  ny ← this (gets fNY);
  bsize ← this (rd fShapeX 0);
  kDepth ← (if 2 <? dim then this (rd fShapeW 2) else ret 1);          (* kernel depth *)
  kHeight ← (if 1 <? dim then this (rd fShapeW dim) else ret 1);       (* kernel height *)
  kWidth ← this (rd fShapeW (dim + 1)%sz);                             (* kernel width *)
  iDepth ← (if 2 <? dim then this (rd fShapeX 2) else ret 1);          (* input depth *)
  iHeight ← (if 1 <? dim then this (rd fShapeX dim) else ret 1);       (* input height *)
  iWidth ← this (rd fShapeX (dim + 1)%sz);                             (* input width *)
  oDepth ← (if 2 <? dim then this (rd fShapeY 2) else ret 1);          (* output depth *)
  oHeight ← (if 1 <? dim then this (rd fShapeY dim) else ret 1);       (* ouput height *)
  oWidth ← this (rd fShapeY (dim + 1)%sz);                             (* output width *)
  let out := endl +:+ "//----  operator ConvTranspose " +:+ OpName +:+ endl in
  (* create first matrix with convolution kernels *)
  useSession ← this (gets fUseSession);
  w0 ← this (rd fShapeW 0);
  w1 ← this (rd fShapeW 1);
  out ← (if useSession then
           ret (out +:+ SP +:+ type +:+ " * " +:+ OpName +:+ "_f = fVec_" +:+ OpName
                    +:+ "_f.data();" +:+ endl)
         else
           k0 ← this (rd fAttrKernelShape 0);
           kernelSize ← (if 1 <? dim then k1 ← this (rd fAttrKernelShape 1); ret (k0 * k1)%sz
                         else ret k0);
           ret (out +:+ SP +:+ type +:+ " " +:+ OpName +:+ "_f["
                    +:+ num (w0 * w1 * kernelSize)%sz +:+ "] = {0};" +:+ endl));
  (* vectorize the (dilated)convolution kernels into a matrix *)
  let id := if 2 <? dim then (dim - 3)%sz else 2 in
  let ih := if 1 <? dim then (dim - 2)%sz else 1 in
  let iw := (dim - 1)%sz in
  wstrideDil ← this (rd fAttrDilations iw);
  let hstride := kWidth in
  k_iw ← this (rd fAttrKernelShape iw);
  d_ih ← this (rd fAttrDilations ih);
  let hstrideDil := (k_iw * d_ih)%sz in
  (* stride dilated in the height *)
  let dstride := (kHeight * kWidth)%sz in
  let dstrideDil := k_iw in
  dstrideDil ← (if 1 <? dim then k_ih ← this (rd fAttrKernelShape ih); ret (dstrideDil * k_ih)%sz
                else ret dstrideDil);
  dstrideDil ← (if 2 <? dim then d_id ← this (rd fAttrDilations id); ret (dstrideDil * d_id)%sz
                else ret dstrideDil);
  let icstride := (kHeight * kWidth * kDepth)%sz in
  icstrideDil ← this (for_ dim (fun i icstrideDil =>
                   k ← rd fAttrKernelShape i; ret (icstrideDil * k)%sz) 1);
  let ocstride := (w1 * icstride)%sz in
  let ocstrideDil := (w1 * icstrideDil)%sz in
  (* The shape of f is [M/group, kHeight x kWidth] *)
  let out := out +:+ SP +:+ "for (std::size_t oc = 0; oc < " +:+ num w0 +:+ "; oc++) {" +:+ endl in
  let out := out +:+ SP +:+ SP +:+ "for (std::size_t ic = 0; ic < " +:+ num w1 +:+ "; ic++) {"
                 +:+ endl in
  let out := if 2 <? dim then
               out +:+ SP +:+ SP +:+ SP +:+ "for (std::size_t kd = 0; kd < " +:+ num kDepth
                   +:+ "; kd++) {" +:+ endl
             else out in
  let out := if 1 <? dim then
               out +:+ SP +:+ SP +:+ SP +:+ "for (std::size_t kh = 0; kh < " +:+ num kHeight
                   +:+ "; kh++) {" +:+ endl
             else out in
  let out := out +:+ SP +:+ SP +:+ SP +:+ SP +:+ "for (std::size_t kw = 0; kw < " +:+ num kWidth
                 +:+ "; kw++) {" +:+ endl in
  let out := out +:+ SP +:+ SP +:+ SP +:+ SP +:+ SP +:+ OpName +:+ "_f[oc * " +:+ num ocstrideDil
                 +:+ " + ic * " +:+ num icstrideDil in
  let out := if 2 <? dim then out +:+ " + kd * " +:+ num dstrideDil else out in
  let out := if 1 <? dim then out +:+ " + kh * " +:+ num hstrideDil else out in
  let out := out +:+ " + kw * " +:+ num wstrideDil +:+ "  ] = tensor_" +:+ nw +:+ "[oc * "
                 +:+ num ocstride +:+ " + ic * " +:+ num icstride in
  let out := if 2 <? dim then out +:+ " + kd * " +:+ num dstride else out in
  let out := if 1 <? dim then out +:+ " + kh * " +:+ num hstride else out in
  let out := out +:+ " + kw ];" +:+ endl in
  let out := out +:+ SP +:+ SP +:+ SP +:+ SP +:+ "}" +:+ endl in
  let out := if 1 <? dim then out +:+ SP +:+ SP +:+ SP +:+ "}" +:+ endl else out in
  let out := if 2 <? dim then out +:+ SP +:+ SP +:+ SP +:+ "}" +:+ endl else out in
  let out := out +:+ SP +:+ SP +:+ "}" +:+ endl in
  let out := out +:+ SP +:+ "}" +:+ endl in
  let out := out +:+ SP +:+ "char " +:+ OpName +:+ "_transA = 'N';" +:+ endl in
  let out := out +:+ SP +:+ "char " +:+ OpName +:+ "_transB = 'N';" +:+ endl in
  let out := out +:+ SP +:+ "int " +:+ OpName +:+ "_m = " +:+ num (oHeight * oWidth * oDepth)%sz
                 +:+ ";" +:+ endl in
  let out := out +:+ SP +:+ "int " +:+ OpName +:+ "_n = " +:+ num w1 +:+ ";" +:+ endl in
  let out := out +:+ SP +:+ "int " +:+ OpName +:+ "_k = " +:+ num icstrideDil +:+ ";" +:+ endl in
  let out := out +:+ SP +:+ "float " +:+ OpName +:+ "_alpha = 1.0;" +:+ endl in
  let out := out +:+ SP +:+ "float " +:+ OpName +:+ "_beta = 0.0;" +:+ endl in
  let out := if (useSession : bool) then
               out +:+ SP +:+ type +:+ " * " +:+ OpName +:+ "_xcol = fVec_" +:+ OpName
                   +:+ "_xcol.data();" +:+ endl
             else
               out +:+ SP +:+ type +:+ " " +:+ OpName +:+ "_xcol["
                   +:+ num (icstrideDil * oDepth * oHeight * oWidth)%sz +:+ "] = {0};" +:+ endl in
  (* Loop on batch size *)
  let out := out +:+ SP +:+ "for (size_t n = 0; n < " +:+ num bsize +:+ "; n++) {" +:+ endl in
  (* IM2COL: Unroll the input tensor *)
  average_pads;;
  x1 ← this (rd fShapeX 1);
  y1 ← this (rd fShapeY 1);
  group ← this (gets fAttrGroup);
  let sgemm (f : string) :=
    SP +:+ SP +:+ "BLAS::sgemm_(&" +:+ OpName +:+ "_transA, &" +:+ OpName +:+ "_transB, &"
       +:+ OpName +:+ "_m, &" +:+ OpName +:+ "_n, &" +:+ OpName +:+ "_k, &" +:+ OpName
       +:+ "_alpha, " +:+ OpName +:+ "_xcol, &" +:+ OpName +:+ "_m," +:+ endl
       (* use m if op_xcol is not transpose , otherwise k *)
       +:+ SP +:+ SP +:+ SP +:+ OpName +:+ f +:+ ", &" +:+ OpName +:+ "_k, &" +:+ OpName
       +:+ "_beta, tensor_" +:+ ny +:+ " + out_offset, &" +:+ OpName +:+ "_m);" +:+ endl in
  out ← (if group =? 1 then
           let out := out +:+ SP +:+ SP +:+ "size_t x_offset = n * "
                          +:+ num (x1 * iDepth * iHeight * iWidth)%sz +:+ ";" +:+ endl in
           let out := out +:+ SP +:+ SP +:+ "size_t out_offset = n * "
                          +:+ num (y1 * oDepth * oHeight * oWidth)%sz +:+ ";" +:+ endl in
           (* when using im2col - resulting matrix is transposed *)
           out ← this (emit_im2col OpName out iDepth iHeight iWidth);
           (* BLAS *)
           ret (out +:+ sgemm "_f")
         else
           (* case of group transposed convolution: make loop on groups and
              repeat operations (IM2COL + GEMM for each group) *)
           let out := out +:+ SP +:+ SP +:+ "for (size_t g = 0; g < " +:+ num group +:+ "; g++) {"
                          +:+ endl in
           xg ← sz_div (x1 * iHeight * iWidth)%sz group;
           let out := out +:+ SP +:+ SP +:+ "size_t x_offset = n * "
                          +:+ num (x1 * iHeight * iWidth)%sz +:+ " + g * " +:+ num xg +:+ ";"
                          +:+ endl +:+ " " in
           yg ← sz_div (y1 * oHeight * oWidth)%sz group;
           let out := out +:+ SP +:+ SP +:+ "size_t out_offset = n * "
                          +:+ num (y1 * oHeight * oWidth)%sz +:+ " + g * " +:+ num yg +:+ ";"
                          +:+ endl +:+ " " in
           out ← this (emit_im2col OpName out iDepth iHeight iWidth);
           (* BLAS: offset g must be g * k * n *)
           fg ← sz_div (w0 * w1 * icstrideDil)%sz group;
           let out := out +:+ SP +:+ SP +:+ SP +:+ "size_t offset_f = g * " +:+ num fg +:+ ";"
                          +:+ endl in
           let out := out +:+ sgemm "_f + offset_f" in
           ret (out +:+ SP +:+ SP +:+ "}" +:+ endl)); (* end of group loop *)
  let out := out +:+ SP +:+ "}" +:+ endl in (* end of batch size loop *)
  nbb ← this (gets fNBroadcastedB);
  if negb (String.eqb nbb "") then
    y0 ← this (rd fShapeY 0);
    let out := out +:+ SP +:+ "int " +:+ OpName +:+ "_size = "
                   +:+ num (y0 * y1 * oDepth * oHeight * oWidth)%sz +:+ ";" +:+ endl in
    let out := out +:+ SP +:+ "float " +:+ OpName +:+ "_gamma = 1.0;" +:+ endl in
    let out := out +:+ SP +:+ "int " +:+ OpName +:+ "_incx = 1;" +:+ endl in
    let out := out +:+ SP +:+ "int " +:+ OpName +:+ "_incy = 1;" +:+ endl in
    ret (out +:+ SP +:+ "BLAS::saxpy_(&" +:+ OpName +:+ "_size, &" +:+ OpName
             +:+ "_gamma, tensor_" +:+ nbb +:+ ", &" +:+ OpName +:+ "_incx, tensor_" +:+ ny
             +:+ ", &" +:+ OpName +:+ "_incy);" +:+ endl)
  else ret out.

(** *** Vocabulary for the statements about [Initialize] *)

(** What the statements about [Initialize] assume of the model's methods,
    none of which is among the files at hand: they answer for every declared
    tensor without changing the model, registering a tensor under a fresh
    name succeeds and leaves the other tensors as they were, and the bias
    helper succeeds. *)
Record lawful : Prop := {
  shape_of_declared : forall name m,
    CheckIfTensorAlreadyExist name m = true -> exists shape, GetTensorShape name m = Ok shape m;
  type_of_declared : forall name m,
    CheckIfTensorAlreadyExist name m = true -> exists type, GetTensorType name m = Ok type m;
  data_of_declared : forall name m,
    CheckIfTensorAlreadyExist name m = true ->
    exists data, GetInitializedTensorData name m = Ok data m;
  add_fresh : forall name type shape m,
    CheckIfTensorAlreadyExist name m = false ->
    exists m', AddIntermediateTensor name type shape m = Ok tt m' /\
      CheckIfTensorAlreadyExist name m' = true /\
      GetTensorShape name m' = Ok shape m' /\
      UseSession m' = UseSession m /\
      forall other, other <> name ->
        CheckIfTensorAlreadyExist other m' = CheckIfTensorAlreadyExist other m /\
        forall sh, GetTensorShape other m = Ok sh m -> GetTensorShape other m' = Ok sh m';
  update_declared : forall name type shape data m,
    CheckIfTensorAlreadyExist name m = true ->
    exists m', UpdateInitializedTensor name type shape data m = Ok tt m' /\
      forall other, CheckIfTensorAlreadyExist other m = true ->
        CheckIfTensorAlreadyExist other m' = true /\
        (other <> name -> forall sh, GetTensorShape other m = Ok sh m ->
                          GetTensorShape other m' = Ok sh m');
  broadcast_succeeds : forall data channel shape,
    exists data', BroadcastConvBias data channel shape tt = Ok data' tt
}.

(** The operator's attributes fit tensors of the shapes [shapeX] and
    [shapeW]: the two ranks agree and every attribute vector is absent or has
    one entry per spatial axis (two for the pads). *)
Definition configured (op : Op) (shapeX shapeW : list Z) : Prop :=
  let n := (length shapeX - 2)%nat in
  length shapeW = length shapeX /\
  sized n (fAttrStrides op) /\ sized n (fAttrDilations op) /\
  sized n (fAttrKernelShape op) /\ sized n (fAttrOutputPadding op) /\
  sized n (fAttrOutputShape op) /\
  (fAttrPads op = [] \/ length (fAttrPads op) = (2 * n)%nat).

Definition rank_ok (shape : list Z) : Prop := (3 <= length shape <= 5)%nat.

(** The conditions under which the claim says [Initialize] fails. *)
Definition Initialize_error (w : World RModel) : Prop :=
  let op := self w in
  let m := model w in
  CheckIfTensorAlreadyExist (fNX op) m = false \/
  CheckIfTensorAlreadyExist (fNW op) m = false \/
  (fNB op <> "" /\ CheckIfTensorAlreadyExist (fNB op) m = false) \/
  (exists shapeX, GetTensorShape (fNX op) m = Ok shapeX m /\ ~ rank_ok shapeX) \/
  (exists shapeW, GetTensorShape (fNW op) m = Ok shapeW m /\ ~ rank_ok shapeW) \/
  (fNB op <> "" /\
   exists shapeX shapeW shapeB,
     GetTensorShape (fNX op) m = Ok shapeX m /\
     GetTensorShape (fNW op) m = Ok shapeW m /\
     GetTensorShape (fNB op) m = Ok shapeB m /\
     (* the bias needs broadcasting: its rank is not the rank of the output *)
     length shapeB <> length shapeX /\
     (shapeB = [] \/
      (exists b0 c, shapeB !! 0%nat = Some b0 /\ shapeW !! 1%nat = Some c /\
         b0 <> (c * (if fAttrGroup op =? 0 then 1 else fAttrGroup op))%sz) \/
      fType op <> "float")).

(** The names [Initialize] registers are fresh, as is the name under which a
    session keeps the broadcast bias, and the bias is not the output. *)
Definition fresh_names (w : World RModel) : Prop :=
  let op := self w in
  let m := model w in
  CheckIfTensorAlreadyExist (fNY op) m = false /\
  fNB op <> fNY op /\
  CheckIfTensorAlreadyExist ("Broadcasted" +:+ fNB op) m = false /\
  "Broadcasted" +:+ fNB op <> fNY op.

(** What [Initialize] did, against those conditions: it threw and they
    hold, or they do not hold and it returned, the output tensor is
    registered with the inferred shape, and the second entry of that shape is
    the weight's second entry times the group count. *)
Definition Initialize_verdict (w : World RModel) (r : Result (World RModel) unit) : Prop :=
  (Initialize_error w /\ exists what w', r = Throw what w') \/
  (~ Initialize_error w /\
   exists w', r = Ok tt w' /\
     CheckIfTensorAlreadyExist (fNY (self w)) (model w') = true /\
     GetTensorShape (fNY (self w)) (model w') = Ok (fShapeY (self w')) (model w') /\
     exists shapeW c,
       GetTensorShape (fNW (self w)) (model w) = Ok shapeW (model w) /\
       shapeW !! 1%nat = Some c /\
       fShapeY (self w') !! 1%nat =
         Some (c * (if fAttrGroup (self w) =? 0 then 1 else fAttrGroup (self w)))%sz).

(** *** Vocabulary for the statements about [Generate] *)

(** The line [Generate] writes to standard output when it meets pads that
    differ between the two sides of an axis. *)
Definition pads_warning : string :=
  "TMVA SOFIE Operator Conv:  asymmetric padding not supported. Assume an average padding "
  +:+ endl.

(** The operator as [Initialize] leaves it, for [n] spatial axes: the three
    shapes stored with rank [n + 2], a bias shape whenever a bias is named,
    one stride, dilation and kernel extent per axis, two pads per axis, and a
    group count that is not 0. *)
Definition initialized (n : nat) (op : Op) : Prop :=
  fDim op = Z.of_nat n /\
  length (fShapeX op) = (n + 2)%nat /\ length (fShapeW op) = (n + 2)%nat /\
  length (fShapeY op) = (n + 2)%nat /\ (fNB op <> "" -> fShapeB op <> []) /\
  length (fAttrStrides op) = n /\ length (fAttrDilations op) = n /\
  length (fAttrKernelShape op) = n /\ length (fAttrPads op) = (2 * n)%nat /\
  fAttrGroup op <> 0.

(** Some axis has a pad before it that differs from the pad after it. *)
Definition asymmetric (n : nat) (pads : list Z) : Prop :=
  exists i, (i < n)%nat /\ pads !! i <> pads !! (i + n)%nat.

(** [pads'] is [pads] with the pad before each axis replaced by the
    [size_t] average of the two pads of that axis. *)
Definition averaged (n : nat) (pads pads' : list Z) : Prop :=
  length pads' = length pads /\
  forall i : nat,
    ((i < n)%nat -> forall b a, pads !! i = Some b -> pads !! (i + n)%nat = Some a ->
                    pads' !! i = Some ((b + a)%sz / 2)) /\
    ((n <= i)%nat -> pads' !! i = pads !! i).

End Members.

(** [GenerateSessionMembersCode(opName)]: the declarations of the two vectors
    a session keeps for this operator, the matrix with the convolution
    kernels and the output matrix of im2col. *)
Definition GenerateSessionMembersCode (opName : string) : M Op string :=
  outputChannelSize ← rd fShapeY 2;
  kernelSize ← rd fAttrKernelShape 0;
  dim ← gets fDim;
  '(outputChannelSize, kernelSize) ←
    for_from (Z.to_nat (dim - 1)) 1 (fun i '(outputChannelSize, kernelSize) =>
      y ← rd fShapeY (2 + i)%sz;
      k ← rd fAttrKernelShape i;
      ret ((outputChannelSize * y)%sz, (kernelSize * k)%sz)) (outputChannelSize, kernelSize);
  let opName := "op_" +:+ opName in
  type ← gets fType;
  w0 ← rd fShapeW 0;
  w1 ← rd fShapeW 1;
  (* matrix with convolution kernels *)
  let out := "std::vector<" +:+ type +:+ "> fVec_" +:+ opName +:+ "_f = std::vector<" +:+ type
             +:+ ">(" +:+ num (w0 * w1 * kernelSize)%sz +:+ ");" +:+ endl in
  (* output matrix of im2col *)
  let out := out +:+ "std::vector<" +:+ type +:+ "> fVec_" +:+ opName
             +:+ "_xcol = std::vector<" +:+ type +:+ ">("
             +:+ num (kernelSize * outputChannelSize)%sz +:+ ");" +:+ endl in
  ret (out +:+ endl).

(** *** Vocabulary for the statements about [GenerateSessionMembersCode] *)

(** The product of the entries of a non-empty vector as the loop of
    [GenerateSessionMembersCode] forms it: from the first entry on, in
    [size_t] arithmetic. *)
Definition volume (first : Z) (rest : list Z) : Z := fold_left sz_mul rest first.

(** The two declarations, for a kernel matrix of [f] entries and an im2col
    matrix of [xcol] entries. *)
Definition session_members (type opName : string) (f xcol : Z) : string :=
  "std::vector<" +:+ type +:+ "> fVec_op_" +:+ opName +:+ "_f = std::vector<" +:+ type
  +:+ ">(" +:+ num f +:+ ");" +:+ endl
  +:+ "std::vector<" +:+ type +:+ "> fVec_op_" +:+ opName
  +:+ "_xcol = std::vector<" +:+ type +:+ ">(" +:+ num xcol +:+ ");" +:+ endl +:+ endl.

End SOFIE.

(** ** RooJohnson *)

Module RooFit.

(** *** The arithmetic of [double]

    The member functions are written once, over the operations on [double]
    that the source uses. [Binary64] below reads them as the IEEE arithmetic
    the program runs in; [Exact] reads them as the real numbers, for the
    statements that are made of the formulas themselves. *)
Class Double (D : Type) : Type := {
  lit_0 : D;                 (* 0. *)
  lit_05 : D;                (* 0.5 *)
  lit_1 : D;                 (* 1. *)
  lit_2 : D;                 (* 2. *)
  lit_1E300 : D;             (* 1.E300 *)
  lit_1Em300 : D;            (* 1.E-300 *)
  TwoPi : D;                 (* TMath::TwoPi() *)
  dadd : D -> D -> D;
  dsub : D -> D -> D;
  dmul : D -> D -> D;
  ddiv : D -> D -> D;
  dneg : D -> D;
  dsqrt : D -> D;
  dexp : D -> D;
  dasinh : D -> D;
  dsinh : D -> D;
  derfc : D -> D;
  dabs : D -> D;
  dlt : D -> D -> bool;
  dle : D -> D -> bool;
  deq : D -> D -> bool
}.

Declare Scope double_scope.
Delimit Scope double_scope with dbl.
Notation "a + b" := (dadd a b) : double_scope.
Notation "a - b" := (dsub a b) : double_scope.
Notation "a * b" := (dmul a b) : double_scope.
Notation "a / b" := (ddiv a b) : double_scope.
Notation "- a" := (dneg a) : double_scope.
Notation "a <? b" := (dlt a b) : double_scope.
Notation "a <=? b" := (dle a b) : double_scope.
Notation "a =? b" := (deq a b) : double_scope.

(** What the rest of RooFit and the build contribute: the enumerators of
    [RooJohnson::AnaInt_t] (declared in [RooJohnson.h]), whether [NDEBUG] is
    defined, and [RooAbsArg::matchArgs], which may add to its second set. *)
Class RooFitEnv : Type := {
  kMass : Z;
  kMean : Z;
  kLambda : Z;
  kGamma : Z;
  kDelta : Z;
  NDEBUG : bool
}.

(** A [RooRealProxy] is read through the variable it points to: its current
    value and, per range name ([None] for the default range), its limits. *)
Record RooRealProxy (D : Type) : Type := mkProxy {
  val : D;
  min : option string -> D;
  max : option string -> D
}.
Arguments mkProxy {D} val min max.
Arguments val {D} r.
Arguments min {D} r rangeName.
Arguments max {D} r rangeName.

Record RooJohnson (D : Type) : Type := mkJohnson {
  _mass : RooRealProxy D;
  _mu : RooRealProxy D;
  _lambda : RooRealProxy D;
  _gamma : RooRealProxy D;
  _delta : RooRealProxy D;
  _massThreshold : D
}.
Arguments mkJohnson {D} _mass _mu _lambda _gamma _delta _massThreshold.
Arguments _mass {D} r.
Arguments _mu {D} r.
Arguments _lambda {D} r.
Arguments _gamma {D} r.
Arguments _delta {D} r.
Arguments _massThreshold {D} r.

(** [_mass = mass]: the value of the observable changes, nothing else. *)
Definition assign_mass {D} (mass : D) (self : RooJohnson D) : RooJohnson D :=
  mkJohnson (mkProxy mass (min (_mass self)) (max (_mass self)))
    (_mu self) (_lambda self) (_gamma self) (_delta self) (_massThreshold self).

(** The process-wide generator behind [RooRandom::randomGenerator()], as the
    sequence of values its [Gaus(0., 1.)] is going to return. *)
Record Sampling (D : Type) : Type := mkSampling {
  pdf : RooJohnson D;
  randomGenerator : nat -> D
}.
Arguments mkSampling {D} pdf randomGenerator.
Arguments pdf {D} s.
Arguments randomGenerator {D} s.

Section Members.
Context {D RooArgSet : Type} `{!Double D} `{!RooFitEnv}.
Variable matchArgs : RooArgSet -> RooRealProxy D -> M RooArgSet bool.

Open Scope double_scope.

Definition evaluate (self : RooJohnson D) : D :=
  if val (_mass self) <? _massThreshold self then lit_0
  else
    let arg := (val (_mass self) - val (_mu self)) / val (_lambda self) in
    let expo := val (_gamma self) + val (_delta self) * dasinh arg in
    let result := val (_delta self)
                  / dsqrt TwoPi
                  / (val (_lambda self) * dsqrt (lit_1 + arg * arg))
                  * dexp (- lit_05 * expo * expo) in
    result.

(** The set [analVars] is the state; [allVars] is only read. *)
Definition getAnalyticalIntegral (self : RooJohnson D) (allVars : RooArgSet) : M RooArgSet Z :=
  m ← matchArgs allVars (_mass self);
  if (m : bool) then ret kMass else
  m ← matchArgs allVars (_mu self);
  if (m : bool) then ret kMean else
  m ← matchArgs allVars (_lambda self);
  if (m : bool) then ret kLambda else
  m ← matchArgs allVars (_gamma self);
  if (m : bool) then ret kGamma else
  m ← matchArgs allVars (_delta self);
  if (m : bool) then ret kDelta else
  (* TODO write integral for others *)
  ret 0%Z.

Definition analyticalIntegral (code : Z) (rangeName : option string) : M (RooJohnson D) D :=
  self ← gets (fun self : RooJohnson D => self);
  (* The normalisation constant is left out in evaluate(). *)
  let globalNorm := lit_1 in
  (* Here everything is scaled and shifted such that we only need to compute
     CDF(Gauss): *)
  let min0 := - lit_1E300 in
  let max0 := lit_1E300 in
  '(min_, max_) ←
    (if (kMass <=? code)%Z && (code <=? kLambda)%Z then
       '(argMin, argMax) ←
         (if (code =? kMass)%Z then
            ret ((min (_mass self) rangeName - val (_mu self)) / val (_lambda self),
                 (max (_mass self) rangeName - val (_mu self)) / val (_lambda self))
          else if (code =? kMean)%Z then
            ret ((val (_mass self) - min (_mu self) rangeName) / val (_lambda self),
                 (val (_mass self) - max (_mu self) rangeName) / val (_lambda self))
          else
            assert NDEBUG (code =? kLambda)%Z "code == kLambda";;
            ret ((val (_mass self) - val (_mu self)) / min (_lambda self) rangeName,
                 (val (_mass self) - val (_mu self)) / max (_lambda self) rangeName));
       ret (val (_gamma self) + val (_delta self) * dasinh argMin,
            val (_gamma self) + val (_delta self) * dasinh argMax)
     else if (code =? kGamma)%Z then
       let arg := (val (_mass self) - val (_mu self)) / val (_lambda self) in
       ret (min (_gamma self) rangeName + val (_delta self) * dasinh arg,
            max (_gamma self) rangeName + val (_delta self) * dasinh arg)
     else if (code =? kDelta)%Z then
       let arg := (val (_mass self) - val (_mu self)) / val (_lambda self) in
       ret (val (_gamma self) + min (_delta self) rangeName * dasinh arg,
            val (_gamma self) + max (_delta self) rangeName * dasinh arg)
     else
       assert NDEBUG false "false";;
       ret (min0, max0));
  (* Here we go for maximum precision: We compute all integrals in the UPPER
     tail of the Gaussian, because erfc has the highest precision there. *)
  let ecmin := derfc (dabs (min_ / dsqrt lit_2)) in
  let ecmax := derfc (dabs (max_ / dsqrt lit_2)) in
  let result := lit_05 * (
    if min_ * max_ <? lit_0 then lit_2 - (ecmin + ecmax)
    else if max_ <=? lit_0 then ecmax - ecmin else ecmin - ecmax) in
  (* Now, include the global norm that may be missing in evaluate and return *)
  ret (globalNorm * (if negb (result =? lit_0) then result else lit_1Em300)).

(** Advertise which kind of direct event generation is supported. The set
    [generateVars] is the state; [directVars] is only read. *)
Definition getGenerator (self : RooJohnson D) (directVars : RooArgSet) : M RooArgSet Z :=
  m ← matchArgs directVars (_mass self);
  if (m : bool) then ret 1%Z else
  ret 0%Z.

(** [RooRandom::randomGenerator()->Gaus(0., 1.)]: the next value, and the
    generator advanced past it. *)
Definition Gaus (s : Sampling D) : D * Sampling D :=
  (randomGenerator s 0%nat, mkSampling (pdf s) (fun n => randomGenerator s (S n))).

(** The [while (true)] of [generateEvent]: at most [fuel] draws; [None] when
    none of them was accepted. *)
Fixpoint generate_mass (fuel : nat) (s : Sampling D) : option (Result (Sampling D) unit) :=
  match fuel with
  | O => None
  | S fuel' =>
      let '(gauss, s') := Gaus s in
      let self := pdf s' in
      let mass := val (_lambda self) * dsinh ((gauss - val (_gamma self)) / val (_delta self))
                  + val (_mu self) in
      if (min (_mass self) None <=? mass) && (mass <=? max (_mass self) None)
         && (_massThreshold self <=? mass)
      then Some (Ok tt (mkSampling (assign_mass mass self) (randomGenerator s')))
      else generate_mass fuel' s'
  end.

(** Generate events based on code obtained by getGenerator(). *)
Definition generateEvent (fuel : nat) (code : Z) (s : Sampling D)
    : option (Result (Sampling D) unit) :=
  if (code =? 1)%Z then generate_mass fuel s
  else Some (Throw "Generation in other variables not yet implemented." s).

(** *** Vocabulary for the statements about [RooJohnson] *)

(** The codes [getAnalyticalIntegral] can answer with, 0 apart. *)
Definition advertised (code : Z) : Prop :=
  code = kMass \/ code = kMean \/ code = kLambda \/ code = kGamma \/ code = kDelta.

(** The five enumerators follow one another, as the range test
    [kMass <= code && code <= kLambda] of [analyticalIntegral] takes for
    granted. *)
Definition consecutive : Prop :=
  (kMean = kMass + 1 /\ kLambda = kMass + 2 /\ kGamma = kMass + 3 /\ kDelta = kMass + 4)%Z.

(** The mass [generateEvent] computes from one normal deviate. *)
Definition candidate (self : RooJohnson D) (gauss : D) : D :=
  val (_lambda self) * dsinh ((gauss - val (_gamma self)) / val (_delta self))
  + val (_mu self).

(** The test a candidate has to pass to be assigned. *)
Definition acceptable (self : RooJohnson D) (mass : D) : Prop :=
  (min (_mass self) None <=? mass) = true /\ (mass <=? max (_mass self) None) = true /\
  (_massThreshold self <=? mass) = true.

End Members.

(** *** Vocabulary for the integral over gamma *)

(** The PDF with the shape parameter gamma at the value [g], the range of
    gamma kept: what [evaluate] is integrated over for the code [kGamma]. *)
Definition assign_gamma {D} (g : D) (self : RooJohnson D) : RooJohnson D :=
  mkJohnson (_mass self) (_mu self) (_lambda self)
    (mkProxy g (min (_gamma self)) (max (_gamma self))) (_delta self) (_massThreshold self).

End RooFit.

(** ** Instances of the two interfaces *)

(** Modelled from the spec: [RModel] is not among the files at hand. The spec
    speaks of tensors being "declared in the enclosing model" and of the
    output tensor being registered there; this model is the finite map from
    the declared names to their element type and shape, together with the
    session flag. Asking for a tensor that is not declared throws. *)
Module Reference.
Import SOFIE.

Record RModel : Type := mkModel {
  declared : gmap string (string * list Z);
  session : bool
}.

Definition find (name : string) : M RModel (string * list Z) :=
  m ← gets declared;
  match m !! name with
  | Some t => ret t
  | None => throw ("TMVA SOFIE tensor [" +:+ name +:+ "] is not found")
  end.

Definition declare (name type : string) (shape : list Z) : M RModel unit :=
  modify (fun m => mkModel (<[name := (type, shape)]> (declared m)) (session m)).

Fixpoint join (sep : string) (l : list string) : string :=
  match l with
  | [] => ""
  | [x] => x
  | x :: l' => x +:+ sep +:+ join sep l'
  end.

#[global] Instance env : Env RModel string unit := {|
  UseSession := session;
  CheckIfTensorAlreadyExist name m := bool_decide (is_Some (declared m !! name));
  GetTensorShape name := t ← find name; ret (snd t);
  GetTensorType name := t ← find name; ret (fst t);
  AddIntermediateTensor := declare;
  GetInitializedTensorData name := _ ← find name; ret tt;
  UpdateInitializedTensor name type shape _ := declare name type shape;
  BroadcastConvBias _ _ _ := ret tt;
  ConvertShapeToString shape := "{ " +:+ join " , " (pretty <$> shape) +:+ " }";
  SP := "   "
|}.

End Reference.

(** [double] idealised as the real numbers: no rounding, no overflow, no
    underflow, no NaN. This is not the arithmetic the program runs in. What
    is proved in this reading is a fact about the formulas of the source over
    the reals, and is stated as such; it says nothing about the sign or the
    vanishing of a value the program returns, for which [Binary64] is the
    reading. *)
Module Exact.
Import RooFit.
Open Scope R_scope.

Definition gauss_kernel (t : R) : R := exp (- (t * t)).

Definition gauss_kernel_integrable (x : R) : Riemann_integrable gauss_kernel 0 x.
Proof.
  assert (continuity gauss_kernel) as C by (unfold gauss_kernel; reg).
  destruct (Rle_dec 0 x) as [H|H].
  - apply continuity_implies_RiemannInt; [exact H | intros; apply C].
  - apply RiemannInt_P1, continuity_implies_RiemannInt; [lra | intros; apply C].
Qed.

Definition erfc (x : R) : R := 1 - 2 / sqrt PI * RiemannInt (gauss_kernel_integrable x).

Definition ltb (a b : R) : bool := if Rlt_dec a b then true else false.
Definition leb (a b : R) : bool := if Rle_dec a b then true else false.
Definition eqb (a b : R) : bool := if Req_dec_T a b then true else false.

#[global] Instance real : Double R := {|
  lit_0 := 0;
  lit_05 := / 2;
  lit_1 := 1;
  lit_2 := 2;
  lit_1E300 := 10 ^ 300;
  lit_1Em300 := / 10 ^ 300;
  TwoPi := 2 * PI;
  dadd := Rplus;
  dsub := Rminus;
  dmul := Rmult;
  ddiv := Rdiv;
  dneg := Ropp;
  dsqrt := sqrt;
  dexp := exp;
  dasinh := arcsinh;
  dsinh := sinh;
  derfc := erfc;
  dabs := Rabs;
  dlt := ltb;
  dle := leb;
  deq := eqb
|}.

(** A build with assertions enabled, the enumerators of [AnaInt_t] numbered
    from 1 in the order in which [getAnalyticalIntegral] tries them (0 is its
    answer when no variable matches). *)
#[global] Instance debug_build : RooFitEnv := {|
  kMass := 1;
  kMean := 2;
  kLambda := 3;
  kGamma := 4;
  kDelta := 5;
  NDEBUG := false
|}.

End Exact.

(** [double] as it is: IEEE 754 binary64, with 53 bits of precision, round
    to nearest even, infinities, signed zeros and NaN, every operation
    rounded on its own (no contraction into fused operations, no excess
    precision). [+], [-], [*], [/], [sqrt], [std::abs] and the comparisons
    are those of the standard; the functions of the C library that the
    source calls ([exp], [asinh], [sinh], [erfc]) are not part of the
    arithmetic and are taken as given. *)
Module Binary64.
Import RooFit.

Definition float : Type := spec_float.
Definition prec : Z := 53.
Definition emax : Z := 1024.

Definition zero : float := S754_zero false.
Definition nan : float := S754_nan.

(** What [<cmath>] contributes. *)
Record Libm : Type := mkLibm {
  exp : float -> float;
  asinh : float -> float;
  sinh : float -> float;
  erfc : float -> float
}.

Definition binary64 (libm : Libm) : Double float := {|
  lit_0 := S754_zero false;
  lit_05 := S754_finite false 4503599627370496 (-53);
  lit_1 := S754_finite false 4503599627370496 (-52);
  lit_2 := S754_finite false 4503599627370496 (-51);
  lit_1E300 := S754_finite false 6724873095247260 944;
  lit_1Em300 := S754_finite false 6032057205060441 (-1049);
  TwoPi := S754_finite false 7074237752028440 (-50);
  dadd := SFadd prec emax;
  dsub := SFsub prec emax;
  dmul := SFmul prec emax;
  ddiv := SFdiv prec emax;
  dneg := SFopp;
  dsqrt := SFsqrt prec emax;
  dexp := exp libm;
  dasinh := asinh libm;
  dsinh := sinh libm;
  derfc := erfc libm;
  dabs := SFabs;
  dlt := SFltb;
  dle := SFleb;
  deq := SFeqb
|}.

(** *** Vocabulary for the statements about signs *)

(** The sign bit is clear, or the value is not a number. *)
Definition unsigned (x : float) : Prop :=
  match x with
  | S754_nan => True
  | S754_zero s | S754_infinity s | S754_finite s _ _ => s = false
  end.

End Binary64.

(** ** Concrete operators *)

Module Examples.
Import SOFIE.

(** A two-dimensional transposed convolution as the ONNX parser leaves it:
    strides (1,1), every other attribute absent, shapes not looked up yet. *)
Definition conv2d : Op :=
  mkOp "NOTSET" [] 0 [] [] [] [] [1; 1] "X" "W" "" "" "Y" [] [] [] [] "float" 0 false.

(** [conv2d] once [Initialize] has stored the shapes of its input (1,3,8,8)
    and of its weights (3,2,3,3). *)
Definition conv2d_shaped : Op :=
  set_fShapeW [3; 2; 3; 3] (set_fShapeX [1; 3; 8; 8] conv2d).

(** [conv2d_shaped] after shape inference. *)
Definition conv2d_inferred : Op :=
  mkOp "NOTSET" [1; 1] 1 [3; 3] [0; 0] [10; 10] [2; 2; 2; 2] [1; 1] "X" "W" "" "" "Y"
    [1; 3; 8; 8] [3; 2; 3; 3] [] [] "float" 2 false.

(** A model in which only the input and the weights of [conv2d] are
    declared: 3 input channels, weights (3,2,3,3). *)
Definition model_xw : Reference.RModel :=
  Reference.mkModel
    (<["X" := ("float", [1; 3; 8; 8])]> (<["W" := ("float", [3; 2; 3; 3])]> ∅)) false.

Definition world_conv2d : World Reference.RModel := mkWorld conv2d model_xw [].

(** The same operator with two groups: 2 does not divide the 3 input
    channels. *)
Definition world_grouped : World Reference.RModel :=
  mkWorld (set_fAttrGroup 2 conv2d) model_xw [].

(** [conv2d] with explicit pads: none before the two axes, 2 after the
    first one. *)
Definition conv2d_padded : Op := set_fAttrPads [0; 0; 2; 0] conv2d.

(** [conv2d_padded] as [Initialize] leaves it in [model_xw]. *)
Definition conv2d_padded_initialized : Op :=
  mkOp "NOTSET" [1; 1] 1 [3; 3] [0; 0] [10; 10] [0; 0; 2; 0] [1; 1] "X" "W" "" "" "Y"
    [1; 3; 8; 8] [3; 2; 3; 3] [] [1; 2; 10; 10] "float" 2 false.

(** A one-dimensional transposed convolution with pads 1 and 2, and a model
    that declares its input (1,3,8) and its weights (3,2,3). *)
Definition conv1d_padded : Op :=
  mkOp "NOTSET" [] 0 [] [] [] [1; 2] [1] "X" "W" "" "" "Y" [] [] [] [] "float" 0 false.

Definition model_xw_1d : Reference.RModel :=
  Reference.mkModel
    (<["X" := ("float", [1; 3; 8])]> (<["W" := ("float", [3; 2; 3])]> ∅)) false.

(** [conv1d_padded] as [Initialize] leaves it in [model_xw_1d]. *)
Definition conv1d_padded_initialized : Op :=
  mkOp "NOTSET" [1] 1 [3] [0] [10] [1; 2] [1] "X" "W" "" "" "Y"
    [1; 3; 8] [3; 2; 3] [] [1; 2; 10] "float" 1 false.

End Examples.

Module JohnsonExamples.
Import RooFit.

(** A parameter held at one value. *)
Definition fixed (v : R) : RooRealProxy R := mkProxy v (fun _ => v) (fun _ => v).

(** The standard curve (mean 0, width 1, gamma 0, delta 1) with threshold 0,
    the mass at -1 in the range from -10 to 10. *)
Definition johnson_unit : RooJohnson R :=
  mkJohnson (mkProxy (-1)%R (fun _ => (-10)%R) (fun _ => 10%R))
    (fixed 0%R) (fixed 1%R) (fixed 0%R) (fixed 1%R) 0%R.

(** [johnson_unit] with a generator whose deviates are all 0. *)
Definition sampling_zero : Sampling R := mkSampling johnson_unit (fun _ => 0%R).

(** Every variable asked for is found; the set handed over is left as it
    is. *)
Definition matchArgs_all : unit -> RooRealProxy R -> M unit bool := fun _ _ => ret true.

End JohnsonExamples.

(** ** Further operators and curves *)

Module MoreExamples.
Import SOFIE RooFit JohnsonExamples.

(** [conv2d] with the output shape given as an attribute. *)
Definition conv2d_output_shape : Op :=
  set_fAttrOutputShape [12; 11] Examples.conv2d_shaped.

(** [conv2d] with the shapes of its input stored, (1,3,8,8), and a stored
    weight shape (3,2,5,5) that is not the one it is going to be called
    with. *)
Definition conv2d_other_weights : Op :=
  set_fShapeW [3; 2; 5; 5] (set_fShapeX [1; 3; 8; 8] Examples.conv2d).

(** A model that declares the input of [conv2d] with rank 4 and its weights
    with rank 3. *)
Definition model_mixed_ranks : Reference.RModel :=
  Reference.mkModel
    (<["X" := ("float", [1; 3; 8; 8])]> (<["W" := ("float", [3; 2; 3])]> ∅)) false.

Definition world_mixed_ranks : World Reference.RModel :=
  mkWorld Examples.conv2d model_mixed_ranks [].

(** [conv2d] with one stride given for its two axes, in the model of the
    examples. *)
Definition world_one_stride : World Reference.RModel :=
  mkWorld (set_fAttrStrides [1] Examples.conv2d) Examples.model_xw [].

(** A model that declares the input of [conv1d_padded] with rank 3 and its
    weights with rank 4. *)
Definition model_wide_weights : Reference.RModel :=
  Reference.mkModel
    (<["X" := ("float", [1; 3; 8])]> (<["W" := ("float", [3; 2; 3; 3])]> ∅)) false.

Definition world_wide_weights : World Reference.RModel :=
  mkWorld Examples.conv1d_padded model_wide_weights [].

(** [conv2d] with the kernel shape (3,3) given, in the model that declares
    its weights with rank 3. *)
Definition world_short_weights : World Reference.RModel :=
  mkWorld (set_fAttrKernelShape [3; 3] Examples.conv2d) model_mixed_ranks [].

(** The standard curve with the threshold below the mass range from -10 to
    10, the mass at 0. *)
Definition johnson_wide : RooJohnson R :=
  mkJohnson (mkProxy 0%R (fun _ => (-10)%R) (fun _ => 10%R))
    (fixed 0%R) (fixed 1%R) (fixed 0%R) (fixed 1%R) (-20)%R.

(** The standard curve with the threshold above the mass range. *)
Definition johnson_cut : RooJohnson R :=
  mkJohnson (mkProxy 0%R (fun _ => (-10)%R) (fun _ => 10%R))
    (fixed 0%R) (fixed 1%R) (fixed 0%R) (fixed 1%R) 20%R.

(** The mass range from -1e300 to 1e300 on a curve with mean 0, lambda 1,
    gamma 0 and the small delta 1 / (4e300). *)
Definition johnson_flat : RooJohnson R :=
  mkJohnson (mkProxy 0%R (fun _ => (- 10 ^ 300)%R) (fun _ => (10 ^ 300)%R))
    (fixed 0%R) (fixed 1%R) (fixed 0%R) (fixed (/ (4 * 10 ^ 300))%R) (- 10 ^ 300)%R.

(** The standard curve at mass 0 with gamma ranging from -1 to 1. *)
Definition johnson_gamma : RooJohnson R :=
  mkJohnson (fixed 0%R) (fixed 0%R) (fixed 1%R)
    (mkProxy 0%R (fun _ => (-1)%R) (fun _ => 1%R)) (fixed 1%R) (-20)%R.

(** [johnson_unit] with a generator whose first deviate is -1 and whose
    later ones are 0. *)
Definition sampling_retry : Sampling R :=
  mkSampling johnson_unit (fun n => match n with O => (-1)%R | _ => 0%R end).

End MoreExamples.

(** ** Curves in binary64 *)

Module Binary64Examples.
Import RooFit Binary64.

Definition one : float := S754_finite false 4503599627370496 (-52).
Definition ten : float := S754_finite false 5629499534213120 (-49).

(** A parameter held at one value. *)
Definition fixed (v : float) : RooRealProxy float := mkProxy v (fun _ => v) (fun _ => v).

(** The standard curve with threshold 0, the mass at -1 in the range from
    -10 to 10. *)
Definition johnson_unit : RooJohnson float :=
  mkJohnson (mkProxy (SFopp one) (fun _ => SFopp ten) (fun _ => ten))
    (fixed zero) (fixed one) (fixed zero) (fixed one) zero.

(** [johnson_unit] with a mass that is not a number. *)
Definition johnson_nan : RooJohnson float :=
  mkJohnson (mkProxy nan (fun _ => SFopp ten) (fun _ => ten))
    (fixed zero) (fixed one) (fixed zero) (fixed one) zero.

(** Mass and mean 0, lambda 1e-300, gamma 100, delta 1e10, threshold 0. *)
Definition johnson_overflow : RooJohnson float :=
  mkJohnson (mkProxy zero (fun _ => SFopp ten) (fun _ => ten))
    (fixed zero) (fixed (S754_finite false 6032057205060441 (-1049)))
    (fixed (S754_finite false 7036874417766400 (-46)))
    (fixed (S754_finite false 5242880000000000 (-19))) zero.

(** A stand-in for the C library that is exact at 0: [exp] and [erfc] are
    1, [asinh] and [sinh] are the identity. *)
Definition libm_at_zero : Libm := mkLibm (fun _ => one) (fun x => x) (fun x => x) (fun _ => one).

End Binary64Examples.

(** * Proofs *)

(** ** Reasoning about computations *)

Module CxxFacts.

Lemma bind_eq {S A B} (f : A -> M S B) (m : M S A) (s : S) :
  (m ≫= f) s =
  match m s with
  | Ok a s' => f a s'
  | Throw w s' => Throw w s'
  | Abort w => Abort w
  | Undefined => Undefined
  end.
Proof. reflexivity. Qed.

Lemma bind_ok {S A B} (f : A -> M S B) (m : M S A) (s s1 : S) (a : A) :
  m s = Ok a s1 -> (m ≫= f) s = f a s1.
Proof. intros H. rewrite bind_eq, H. reflexivity. Qed.

Lemma bind_ok_inv {S A B} (f : A -> M S B) (m : M S A) (s s' : S) (b : B) :
  (m ≫= f) s = Ok b s' -> exists a s1, m s = Ok a s1 /\ f a s1 = Ok b s'.
Proof.
  rewrite bind_eq. destruct (m s) as [a s1| | |]; try discriminate.
  intros H. exists a, s1. split; [reflexivity | exact H].
Qed.

Lemma gets_eq {S A} (f : S -> A) (s : S) : gets f s = Ok (f s) s.
Proof. reflexivity. Qed.

Lemma modify_eq {S} (f : S -> S) (s : S) : modify f s = Ok tt (f s).
Proof. reflexivity. Qed.

Lemma ret_eq {S A} (a : A) (s : S) : (mret a : M S A) s = Ok a s.
Proof. reflexivity. Qed.

Lemma gets_ok_inv {S A} (f : S -> A) (s s' : S) (a : A) :
  gets f s = Ok a s' -> a = f s /\ s' = s.
Proof. intros H. injection H as <- <-. auto. Qed.

Lemma modify_ok_inv {S} (f : S -> S) (s s' : S) (u : unit) :
  modify f s = Ok u s' -> s' = f s.
Proof. intros H. injection H as _ <-. reflexivity. Qed.

Lemma ret_ok_inv {S A} (a a' : A) (s s' : S) :
  (mret a : M S A) s = Ok a' s' -> a' = a /\ s' = s.
Proof. intros H. injection H as <- <-. auto. Qed.

Lemma at_ok_inv {S A} (v : list A) (i : Z) (s s' : S) (x : A) :
  at_ v i s = Ok x s' -> v !! Z.to_nat i = Some x /\ s' = s.
Proof.
  unfold at_. destruct (v !! Z.to_nat i); [|discriminate].
  intros H; injection H as -> ->. split; reflexivity.
Qed.

Lemma at_ok {S A} (v : list A) (i : Z) (s : S) (x : A) :
  v !! Z.to_nat i = Some x -> at_ v i s = Ok x s.
Proof. unfold at_. intros ->. reflexivity. Qed.

Lemma store_ok_inv {S A} (v v' : list A) (i : Z) (x : A) (s s' : S) :
  store v i x s = Ok v' s' ->
  (Z.to_nat i < length v)%nat /\ v' = <[Z.to_nat i := x]> v /\ s' = s.
Proof.
  unfold store. destruct (Nat.ltb_spec (Z.to_nat i) (length v)); [|discriminate].
  intros H'; injection H' as <- <-. auto.
Qed.

Lemma store_ok {S A} (v : list A) (i : Z) (x : A) (s : S) :
  (Z.to_nat i < length v)%nat -> store v i x s = Ok (<[Z.to_nat i := x]> v) s.
Proof.
  unfold store. intros H. destruct (Nat.ltb_spec (Z.to_nat i) (length v)); [reflexivity | lia].
Qed.

Lemma vector_fill_ok_inv {S} (n x : Z) (v : list Z) (s s' : S) :
  vector_fill n x s = Ok v s' -> n <= max_size /\ v = replicate (Z.to_nat n) x /\ s' = s.
Proof.
  unfold vector_fill. destruct (Z.ltb_spec max_size n); [discriminate|].
  intros H'; injection H' as <- <-. auto.
Qed.

Lemma vector_fill_ok {S} (n x : Z) (s : S) :
  n <= max_size -> vector_fill n x s = Ok (replicate (Z.to_nat n) x) s.
Proof.
  unfold vector_fill. intros H. destruct (Z.ltb_spec max_size n); [lia | reflexivity].
Qed.

Lemma vector_resize_ok_inv {S} (n : Z) (v v' : list Z) (s s' : S) :
  vector_resize v n s = Ok v' s' -> n <= max_size /\ v' = resize (Z.to_nat n) 0 v /\ s' = s.
Proof.
  unfold vector_resize. destruct (Z.ltb_spec max_size n); [discriminate|].
  intros H'; injection H' as <- <-. auto.
Qed.

Lemma vector_resize_ok {S} (n : Z) (v : list Z) (s : S) :
  n <= max_size -> vector_resize v n s = Ok (resize (Z.to_nat n) 0 v) s.
Proof.
  unfold vector_resize. intros H. destruct (Z.ltb_spec max_size n); [lia | reflexivity].
Qed.

(** A property kept by every iteration is kept by the loop. *)
Lemma for_from_inv {S A} (I : A -> S -> Prop) (body : Z -> A -> M S A) :
  forall (k : nat) (i : Z) (acc : A) (s : S) (acc' : A) (s' : S),
    (forall j a t a' t', i <= j < i + Z.of_nat k -> I a t -> body j a t = Ok a' t' -> I a' t') ->
    I acc s ->
    for_from k i body acc s = Ok acc' s' ->
    I acc' s'.
Proof.
  induction k as [|k IH]; intros i acc s acc' s' Hbody HI Hrun; simpl in Hrun.
  - injection Hrun as <- <-. exact HI.
  - apply bind_ok_inv in Hrun as (a & s1 & Hstep & Hrest).
    apply (IH (i + 1) a s1 acc' s'); [| |exact Hrest].
    + intros j b t b' t' Hj. apply Hbody. lia.
    + apply (Hbody i acc s a s1); [lia | exact HI | exact Hstep].
Qed.

Lemma for_inv {S A} (I : A -> S -> Prop) (body : Z -> A -> M S A)
    (n : Z) (acc : A) (s : S) (acc' : A) (s' : S) :
  (forall j a t a' t', 0 <= j < n -> I a t -> body j a t = Ok a' t' -> I a' t') ->
  I acc s ->
  for_ n body acc s = Ok acc' s' ->
  I acc' s'.
Proof.
  unfold for_. intros Hbody HI Hrun.
  eapply (for_from_inv I body); [| exact HI | exact Hrun].
  intros j a t a' t' Hj. apply Hbody. lia.
Qed.

Lemma for_zero {S A} (body : Z -> A -> M S A) (n : Z) (acc : A) (s : S) :
  n <= 0 -> for_ n body acc s = Ok acc s.
Proof. unfold for_. intros H. replace (Z.to_nat n) with 0%nat by lia. reflexivity. Qed.

Lemma wrap_range (z : Z) : 0 <= wrap z < 2 ^ 64.
Proof. unfold wrap. apply Z.mod_pos_bound. reflexivity. Qed.

Lemma wrap_small (z : Z) : 0 <= z < 2 ^ 64 -> wrap z = z.
Proof. unfold wrap. intros H. apply Z.mod_small. exact H. Qed.

Lemma wrap_wrap (z : Z) : wrap (wrap z) = wrap z.
Proof. unfold wrap. apply Z.mod_mod. discriminate. Qed.

(** The three wrapping operations of [s * (x - 1) + k] amount to one. *)
Lemma sz_extent_wrap (s x k : Z) : (s * (x - 1) + k)%sz = wrap (s * (x - 1) + k).
Proof.
  unfold sz_add, sz_mul, sz_sub, wrap.
  rewrite Zmult_mod_idemp_r, Zplus_mod_idemp_l. reflexivity.
Qed.

Lemma sz_sub_0_r (a b : Z) : ((a + b)%sz - 0)%sz = (a + b)%sz.
Proof. unfold sz_sub, sz_add. rewrite Z.sub_0_r. apply wrap_wrap. Qed.

End CxxFacts.

(** ** Shape inference *)

Module ShapeInferenceFacts.
Import SOFIE CxxFacts.

Ltac inv_bind H :=
  let a := fresh "a" in
  let s := fresh "s" in
  let H1 := fresh "E" in
  apply bind_ok_inv in H as (a & s & H1 & H).

Ltac inv_bind_then H tac :=
  let a := fresh "a" in
  let s := fresh "s" in
  let H1 := fresh "E" in
  apply bind_ok_inv in H as (a & s & H1 & H); tac H1.

Ltac inv_gets H := inv_bind_then H ltac:(fun E => apply gets_ok_inv in E as (-> & ->)).
Ltac inv_modify H := inv_bind_then H ltac:(fun E => apply modify_ok_inv in E as ->).
Ltac inv_at H := inv_bind_then H ltac:(fun E => apply at_ok_inv in E as (? & ->)).
Ltac inv_store H := inv_bind_then H ltac:(fun E => apply store_ok_inv in E as (? & -> & ->)).
Ltac inv_fill H := inv_bind_then H ltac:(fun E => apply vector_fill_ok_inv in E as (? & -> & ->)).
Ltac inv_resize H := inv_bind_then H ltac:(fun E => apply vector_resize_ok_inv in E as (? & -> & ->)).

Lemma rd_ok_inv (member : Op -> list Z) (i x : Z) (s s' : Op) :
  rd member i s = Ok x s' -> member s !! Z.to_nat i = Some x /\ s' = s.
Proof.
  unfold rd. intros H. inv_gets H. apply at_ok_inv in H. exact H.
Qed.

Lemma rd_ok (member : Op -> list Z) (i x : Z) (s : Op) :
  member s !! Z.to_nat i = Some x -> rd member i s = Ok x s.
Proof. unfold rd. intros H. rewrite (bind_ok _ _ _ _ _ (gets_eq _ _)). apply at_ok, H. Qed.

Lemma wr_ok_inv (member : Op -> list Z) (set : list Z -> Op -> Op) (i x : Z) (s s' : Op) (u : unit) :
  wr member set i x s = Ok u s' ->
  (Z.to_nat i < length (member s))%nat /\ s' = set (<[Z.to_nat i := x]> (member s)) s.
Proof.
  unfold wr. intros H. inv_gets H. inv_store H. apply modify_ok_inv in H as ->. auto.
Qed.

Lemma wr_ok (member : Op -> list Z) (set : list Z -> Op -> Op) (i x : Z) (s : Op) :
  (Z.to_nat i < length (member s))%nat ->
  wr member set i x s = Ok tt (set (<[Z.to_nat i := x]> (member s)) s).
Proof.
  unfold wr. intros H. rewrite (bind_ok _ _ _ _ _ (gets_eq _ _)).
  rewrite (bind_ok _ _ _ _ _ (store_ok _ _ _ _ H)). reflexivity.
Qed.

Ltac inv_rd H := inv_bind_then H ltac:(fun E => apply rd_ok_inv in E as (? & ->)).
Ltac inv_wr H := inv_bind_then H ltac:(fun E => apply wr_ok_inv in E as (? & ->)).

Lemma when_ok_inv {S} (b : bool) (m : M S unit) (s s' : S) (u : unit) :
  when_ b m s = Ok u s' -> (b = true /\ m s = Ok u s') \/ (b = false /\ s' = s).
Proof.
  destruct b; simpl; intros H; [left; auto | right].
  apply ret_ok_inv in H as (_ & ->). auto.
Qed.

Lemma empty_false {A} (v : list A) : v <> [] -> empty v = false.
Proof. destruct v; [congruence | reflexivity]. Qed.

Lemma empty_true {A} (v : list A) : empty v = true -> v = [].
Proof. destruct v; [reflexivity | discriminate]. Qed.

Lemma replicate_settled (n : Z) (x : Z) :
  0 <= n -> replicate (Z.to_nat n) x <> [] \/ n = 0.
Proof.
  intros H. destruct (Z.to_nat n) eqn:E; [right; lia | left; discriminate].
Qed.

Lemma length_settled (v : list Z) (n : Z) :
  0 <= n -> length v = Z.to_nat n -> v <> [] \/ n = 0.
Proof.
  intros H E. destruct v; [right; simpl in E; lia | left; discriminate].
Qed.

Lemma settled_of (v : list Z) (n : Z) : v <> [] \/ n = 0 -> v <> [] \/ (v = [] /\ n = 0).
Proof. destruct v; intros [H|H]; auto; left; discriminate. Qed.

(** *** What each statement may change *)

Lemma default_strides_inv (s s' : Op) (u : unit) :
  0 <= fDim s -> default_strides s = Ok u s' ->
  exists v, s' = set_fAttrStrides v s /\ (v <> [] \/ fDim s = 0).
Proof.
  unfold default_strides. intros Hd H. inv_gets H.
  apply when_ok_inv in H as [[Hb H]|[Hb ->]].
  - inv_gets H. inv_fill H.
    apply modify_ok_inv in H as ->.
    eexists; split; [reflexivity|]. apply replicate_settled, Hd.
  - exists (fAttrStrides s). split; [destruct s; reflexivity|].
    left. intros E. rewrite E in Hb. discriminate.
Qed.

Lemma default_dilations_inv (s s' : Op) (u : unit) :
  0 <= fDim s -> default_dilations s = Ok u s' ->
  exists v, s' = set_fAttrDilations v s /\ (v <> [] \/ fDim s = 0).
Proof.
  unfold default_dilations. intros Hd H. inv_gets H.
  apply when_ok_inv in H as [[Hb H]|[Hb ->]].
  - inv_gets H. inv_fill H.
    apply modify_ok_inv in H as ->.
    eexists; split; [reflexivity|]. apply replicate_settled, Hd.
  - exists (fAttrDilations s). split; [destruct s; reflexivity|].
    left. intros E. rewrite E in Hb. discriminate.
Qed.

Lemma default_output_padding_inv (s s' : Op) (u : unit) :
  0 <= fDim s -> default_output_padding s = Ok u s' ->
  exists v, s' = set_fAttrOutputPadding v s /\ (v <> [] \/ fDim s = 0).
Proof.
  unfold default_output_padding. intros Hd H. inv_gets H.
  apply when_ok_inv in H as [[Hb H]|[Hb ->]].
  - inv_gets H. inv_fill H.
    apply modify_ok_inv in H as ->.
    eexists; split; [reflexivity|]. apply replicate_settled, Hd.
  - exists (fAttrOutputPadding s). split; [destruct s; reflexivity|].
    left. intros E. rewrite E in Hb. discriminate.
Qed.

Lemma default_kernel_shape_inv (s s' : Op) (u : unit) :
  0 <= fDim s -> default_kernel_shape s = Ok u s' ->
  exists v, s' = set_fAttrKernelShape v s /\ (v <> [] \/ fDim s = 0).
Proof.
  unfold default_kernel_shape. intros Hd H. inv_gets H.
  apply when_ok_inv in H as [[Hb H]|[Hb ->]].
  - inv_gets H. inv_resize H.
    inv_modify H.
    apply (for_inv (fun _ t => exists v, t = set_fAttrKernelShape v s /\
                                       length v = Z.to_nat (fDim s))) in H.
    + destruct H as (v & -> & Hlen). exists v. split; [reflexivity|].
      apply length_settled; assumption.
    + intros j [] t [] t' _ (v & -> & Hlen) Hstep.
      inv_rd Hstep.
      inv_rd Hstep.
      apply wr_ok_inv in Hstep as (_ & ->). simpl.
      eexists; split; [reflexivity|]. rewrite length_insert. exact Hlen.
    + eexists; split; [reflexivity|]. apply length_resize.
  - exists (fAttrKernelShape s). split; [destruct s; reflexivity|].
    left. intros E. rewrite E in Hb. discriminate.
Qed.

Lemma default_output_shape_inv (inputShape : list Z) (s s' : Op) (u : unit) :
  0 <= fDim s -> default_output_shape inputShape s = Ok u s' ->
  exists v, s' = set_fAttrOutputShape v s /\ (v <> [] \/ fDim s = 0).
Proof.
  unfold default_output_shape. intros Hd H. inv_gets H.
  apply when_ok_inv in H as [[Hb H]|[Hb ->]].
  - inv_gets H. inv_resize H.
    inv_modify H.
    apply (for_inv (fun _ t => exists v, t = set_fAttrOutputShape v s /\
                                       length v = Z.to_nat (fDim s))) in H.
    + destruct H as (v & -> & Hlen). exists v. split; [reflexivity|].
      apply length_settled; assumption.
    + intros j [] t [] t' _ (v & -> & Hlen) Hstep.
      inv_rd Hstep.
      inv_at Hstep.
      inv_rd Hstep.
      inv_rd Hstep.
      apply wr_ok_inv in Hstep as (_ & ->). simpl.
      eexists; split; [reflexivity|]. rewrite length_insert. exact Hlen.
    + eexists; split; [reflexivity|]. apply length_resize.
  - exists (fAttrOutputShape s). split; [destruct s; reflexivity|].
    left. intros E. rewrite E in Hb. discriminate.
Qed.

Lemma default_pads_inv (s s' : Op) (u : unit) :
  0 <= fDim s -> default_pads s = Ok u s' ->
  exists v, s' = set_fAttrPads v s /\ (v <> [] \/ fDim s = 0).
Proof.
  unfold default_pads. intros Hd H. inv_gets H.
  apply when_ok_inv in H as [[Hb H]|[Hb ->]].
  - inv_gets H. inv_fill H.
    inv_bind_then H ltac:(fun E =>
      apply (for_inv (fun _ t => t = s)) in E; [subst | | reflexivity]).
    2:{ intros j acc t acc' t' _ -> Hstep.
        inv_rd Hstep.
        inv_rd Hstep.
        inv_rd Hstep.
        inv_rd Hstep.
        inv_rd Hstep.
        apply store_ok_inv in Hstep as (_ & _ & ->). reflexivity. }
    inv_fill H.
    inv_modify H.
    inv_gets H.
    apply (for_inv (fun _ t => exists v, t = set_fAttrPads v s /\
                     length v = Z.to_nat (2 * fDim s)%sz)) in H.
    + destruct H as (v & -> & Hlen). exists v. split; [reflexivity|].
      unfold max_size in *. unfold sz_mul in Hlen. rewrite wrap_small in Hlen by lia.
      destruct v; [right; simpl in Hlen; lia | left; discriminate].
    + intros j [] t [] t' _ (v & -> & Hlen) Hstep. simpl in Hstep.
      destruct (String.eqb _ _).
      * inv_at Hstep.
        inv_wr Hstep.
        inv_rd Hstep.
        apply wr_ok_inv in Hstep as (_ & ->). simpl.
        eexists; split; [reflexivity|]. rewrite !length_insert. exact Hlen.
      * inv_at Hstep.
        inv_wr Hstep.
        inv_rd Hstep.
        apply wr_ok_inv in Hstep as (_ & ->). simpl.
        eexists; split; [reflexivity|]. rewrite !length_insert. exact Hlen.
    + eexists; split; [reflexivity|]. apply length_replicate.
  - exists (fAttrPads s). split; [destruct s; reflexivity|].
    left. intros E. rewrite E in Hb. discriminate.
Qed.

(** The last loop reads the operator and never writes [outShape[1]]. *)
Lemma copy_output_shape_inv (outShape out : list Z) (s s' : Op) :
  0 <= fDim s < 2 ^ 64 ->
  copy_output_shape outShape s = Ok out s' ->
  s' = s /\ length out = length outShape /\ out !! 1%nat = outShape !! 1%nat.
Proof.
  unfold copy_output_shape. intros Hd H. inv_gets H.
  apply (for_inv (fun acc t => t = s /\ length acc = length outShape /\
                               acc !! 1%nat = outShape !! 1%nat)) in H; [exact H | | auto].
  intros j acc t acc' t' Hj (-> & Hlen & H1) Hstep.
  inv_rd Hstep.
  apply store_ok_inv in Hstep as (_ & -> & ->).
  split; [reflexivity|]. split; [rewrite length_insert; exact Hlen|].
  rewrite list_lookup_insert_ne; [exact H1|].
  unfold sz_add, wrap. intros E.
  destruct (Z.eq_dec (j + 2) (2 ^ 64)) as [E2|E2].
  - rewrite E2, Z.mod_same in E by discriminate. discriminate E.
  - rewrite Z.mod_small in E by lia. lia.
Qed.

(** *** A settled attribute is left alone *)

Lemma default_strides_settled (s : Op) :
  settled fAttrStrides s -> default_strides s = Ok tt s.
Proof.
  unfold default_strides. intros [H|[H Hd]]; rewrite (bind_ok _ _ _ _ _ (gets_eq _ _)).
  - rewrite (empty_false _ H). reflexivity.
  - rewrite H. simpl. rewrite (bind_ok _ _ _ _ _ (gets_eq _ _)), Hd.
    destruct s; simpl in *; subst; reflexivity.
Qed.

Lemma default_dilations_settled (s : Op) :
  settled fAttrDilations s -> default_dilations s = Ok tt s.
Proof.
  unfold default_dilations. intros [H|[H Hd]]; rewrite (bind_ok _ _ _ _ _ (gets_eq _ _)).
  - rewrite (empty_false _ H). reflexivity.
  - rewrite H. simpl. rewrite (bind_ok _ _ _ _ _ (gets_eq _ _)), Hd.
    destruct s; simpl in *; subst; reflexivity.
Qed.

Lemma default_output_padding_settled (s : Op) :
  settled fAttrOutputPadding s -> default_output_padding s = Ok tt s.
Proof.
  unfold default_output_padding. intros [H|[H Hd]]; rewrite (bind_ok _ _ _ _ _ (gets_eq _ _)).
  - rewrite (empty_false _ H). reflexivity.
  - rewrite H. simpl. rewrite (bind_ok _ _ _ _ _ (gets_eq _ _)), Hd.
    destruct s; simpl in *; subst; reflexivity.
Qed.

Lemma default_kernel_shape_settled (s : Op) :
  settled fAttrKernelShape s -> default_kernel_shape s = Ok tt s.
Proof.
  unfold default_kernel_shape. intros [H|[H Hd]]; rewrite (bind_ok _ _ _ _ _ (gets_eq _ _)).
  - rewrite (empty_false _ H). reflexivity.
  - rewrite H. simpl. rewrite (bind_ok _ _ _ _ _ (gets_eq _ _)), Hd.
    destruct s; simpl in *; subst; reflexivity.
Qed.

Lemma default_output_shape_settled (inputShape : list Z) (s : Op) :
  settled fAttrOutputShape s -> default_output_shape inputShape s = Ok tt s.
Proof.
  unfold default_output_shape. intros [H|[H Hd]]; rewrite (bind_ok _ _ _ _ _ (gets_eq _ _)).
  - rewrite (empty_false _ H). reflexivity.
  - rewrite H. simpl. rewrite (bind_ok _ _ _ _ _ (gets_eq _ _)), Hd.
    destruct s; simpl in *; subst; reflexivity.
Qed.

Lemma default_pads_settled (s : Op) :
  settled fAttrPads s -> default_pads s = Ok tt s.
Proof.
  unfold default_pads. intros [H|[H Hd]]; rewrite (bind_ok _ _ _ _ _ (gets_eq _ _)).
  - rewrite (empty_false _ H). reflexivity.
  - rewrite H. simpl. rewrite (bind_ok _ _ _ _ _ (gets_eq _ _)), Hd.
    destruct s; simpl in *; subst; reflexivity.
Qed.

(** *** The function as the sequence of its statements *)

Lemma ShapeInference_ok_inv (input : list (list Z)) (s : Op) (ret : list (list Z)) (s' : Op) :
  ShapeInference input s = Ok ret s' -> ShapeInference_run input s ret s'.
Proof.
  unfold ShapeInference. intros H.
  inv_at H. inv_at H. inv_modify H. inv_gets H.
  inv_bind_then H ltac:(fun E => rename E into Hgroup).
  assert (s0 = started a s) as ->.
  { unfold started. simpl in Hgroup. destruct (fAttrGroup s =? 0); simpl in Hgroup.
    - apply modify_ok_inv in Hgroup. exact Hgroup.
    - apply ret_ok_inv in Hgroup as (_ & ->). reflexivity. }
  clear Hgroup.
  inv_bind_then H ltac:(fun E => rename E into P1).
  inv_bind_then H ltac:(fun E => rename E into P2).
  inv_bind_then H ltac:(fun E => rename E into P3).
  inv_bind_then H ltac:(fun E => rename E into P4).
  inv_fill H. inv_at H. inv_store H. inv_at H. inv_gets H. inv_store H.
  inv_bind_then H ltac:(fun E => rename E into P5).
  inv_bind_then H ltac:(fun E => rename E into P6).
  inv_bind_then H ltac:(fun E => rename E into P7).
  apply ret_ok_inv in H as (-> & ->).
  repeat match goal with u : unit |- _ => destruct u end.
  rewrite Nat2Z.id in *. rewrite length_insert, length_replicate in *.
  change (Z.to_nat 0) with 0%nat in *. change (Z.to_nat 1) with 1%nat in *.
  unfold ShapeInference_run, outShape_head.
  repeat eexists; eassumption.
Qed.

Lemma ShapeInference_ok_intro (input : list (list Z)) (s : Op) (ret : list (list Z)) (s' : Op) :
  ShapeInference_run input s ret s' -> ShapeInference input s = Ok ret s'.
Proof.
  intros (inputShape & weightShape & n & c & s1 & s2 & s3 & s4 & s5 & s6 & out &
          Hi & Hw & H1 & H2 & H3 & H4 & Hmax & Hn & Hc & Hlen & H5 & H6 & H7 & ->).
  unfold ShapeInference.
  rewrite (bind_ok _ _ _ _ _ (at_ok _ 0 _ _ Hi)).
  rewrite (bind_ok _ _ _ _ _ (at_ok _ 1 _ _ Hw)).
  rewrite (bind_ok _ _ _ _ _ (modify_eq _ _)).
  rewrite (bind_ok _ _ _ _ _ (gets_eq _ _)).
  assert (when_ (fAttrGroup (set_fDim (Z.of_nat (length inputShape) - 2)%sz s) =? 0)
            (modify (set_fAttrGroup 1)) (set_fDim (Z.of_nat (length inputShape) - 2)%sz s)
          = Ok tt (started inputShape s)) as Hg.
  { unfold started. simpl. destruct (fAttrGroup s =? 0); reflexivity. }
  rewrite (bind_ok _ _ _ _ _ Hg).
  rewrite (bind_ok _ _ _ _ _ H1), (bind_ok _ _ _ _ _ H2), (bind_ok _ _ _ _ _ H3),
    (bind_ok _ _ _ _ _ H4).
  rewrite (bind_ok _ _ _ _ _ (vector_fill_ok _ _ _ Hmax)).
  rewrite (bind_ok _ _ _ _ _ (at_ok _ 0 _ _ Hn)).
  rewrite Nat2Z.id.
  rewrite (bind_ok _ _ _ _ _ (store_ok (replicate (length inputShape) 0) 0 n s4
             ltac:(rewrite length_replicate; simpl; lia))).
  rewrite (bind_ok _ _ _ _ _ (at_ok _ 1 _ _ Hc)).
  rewrite (bind_ok _ _ _ _ _ (gets_eq _ _)).
  rewrite (bind_ok _ _ _ _ _ (store_ok (<[Z.to_nat 0 := n]> (replicate (length inputShape) 0)) 1
             (c * fAttrGroup s4)%sz s4
             ltac:(rewrite length_insert, length_replicate; simpl; lia))).
  rewrite (bind_ok _ _ _ _ _ H5), (bind_ok _ _ _ _ _ H6).
  change (Z.to_nat 0) with 0%nat. change (Z.to_nat 1) with 1%nat.
  fold (outShape_head inputShape n c (fAttrGroup s4)).
  rewrite (bind_ok _ _ _ _ _ H7). reflexivity.
Qed.

(** The operator states met on the way differ from the first one in the six
    attribute vectors only, and each of these ends up settled. *)
Lemma ShapeInference_run_frame (input : list (list Z)) (s : Op) (ret : list (list Z)) (s' : Op) :
  ShapeInference_run input s ret s' ->
  exists inputShape vS vD vK vP vO vA,
    input !! 0%nat = Some inputShape /\
    s' = set_fAttrPads vA (set_fAttrOutputShape vO (set_fAttrOutputPadding vP
           (set_fAttrKernelShape vK (set_fAttrDilations vD (set_fAttrStrides vS
              (started inputShape s)))))) /\
    settled fAttrStrides s' /\ settled fAttrDilations s' /\ settled fAttrKernelShape s' /\
    settled fAttrOutputPadding s' /\ settled fAttrOutputShape s' /\ settled fAttrPads s'.
Proof.
  intros (inputShape & weightShape & n & c & s1 & s2 & s3 & s4 & s5 & s6 & out &
          Hi & Hw & H1 & H2 & H3 & H4 & Hmax & Hn & Hc & Hlen & H5 & H6 & H7 & ->).
  assert (0 <= fDim (started inputShape s) < 2 ^ 64) as Hd.
  { unfold started. destruct (fAttrGroup s =? 0); simpl; apply wrap_range. }
  apply default_strides_inv in H1 as (vS & -> & HS); [|lia].
  apply default_dilations_inv in H2 as (vD & -> & HD); [|simpl; lia].
  apply default_kernel_shape_inv in H3 as (vK & -> & HK); [|simpl; lia].
  apply default_output_padding_inv in H4 as (vP & -> & HP); [|simpl; lia].
  apply default_output_shape_inv in H5 as (vO & -> & HO); [|simpl; lia].
  apply default_pads_inv in H6 as (vA & -> & HA); [|simpl; lia].
  apply copy_output_shape_inv in H7 as (-> & _); [|simpl; lia].
  exists inputShape, vS, vD, vK, vP, vO, vA. split; [exact Hi|]. split; [reflexivity|].
  simpl in *. unfold settled; simpl.
  repeat split; apply settled_of; assumption.
Qed.

Lemma started_fDim (inputShape : list Z) (s : Op) :
  fDim (started inputShape s) = (Z.of_nat (length inputShape) - 2)%sz.
Proof. unfold started. destruct (fAttrGroup s =? 0); reflexivity. Qed.

Lemma started_group (inputShape : list Z) (s : Op) :
  fAttrGroup (started inputShape s) = if fAttrGroup s =? 0 then 1 else fAttrGroup s.
Proof. unfold started. destruct (fAttrGroup s =? 0); reflexivity. Qed.

Lemma started_group_nonzero (inputShape : list Z) (s : Op) :
  (fAttrGroup (started inputShape s) =? 0) = false.
Proof.
  rewrite started_group. destruct (Z.eqb_spec (fAttrGroup s) 0) as [E|E]; [reflexivity|].
  apply Z.eqb_neq, E.
Qed.

(** A second run from the state the first run ended in takes the same path
    through the last loop and changes nothing. *)
Lemma ShapeInference_run_again (input : list (list Z)) (s : Op) (ret : list (list Z)) (s' : Op) :
  ShapeInference_run input s ret s' -> ShapeInference_run input s' ret s'.
Proof.
  intros Hrun. pose proof (ShapeInference_run_frame _ _ _ _ Hrun) as
    (inputShape' & vS & vD & vK & vP & vO & vA & Hi' & Hs' & SS & SD & SK & SP & SO & SA).
  destruct Hrun as (inputShape & weightShape & n & c & s1 & s2 & s3 & s4 & s5 & s6 & out &
          Hi & Hw & H1 & H2 & H3 & H4 & Hmax & Hn & Hc & Hlen & H5 & H6 & H7 & ->).
  rewrite Hi in Hi'. injection Hi' as <-.
  assert (0 <= fDim (started inputShape s) < 2 ^ 64) as Hd.
  { unfold started. destruct (fAttrGroup s =? 0); simpl; apply wrap_range. }
  assert (started inputShape s' = s') as Hst.
  { rewrite Hs'. pose proof (started_fDim inputShape s) as Ed.
    pose proof (started_group_nonzero inputShape s) as Eg.
    destruct (started inputShape s). unfold started. simpl in *. rewrite Eg, <- Ed.
    reflexivity. }
  assert (fAttrGroup s4 = fAttrGroup s') as Hg.
  { apply default_strides_inv in H1 as (? & -> & _); [|lia].
    apply default_dilations_inv in H2 as (? & -> & _); [|simpl; lia].
    apply default_kernel_shape_inv in H3 as (? & -> & _); [|simpl; lia].
    apply default_output_padding_inv in H4 as (? & -> & _); [|simpl; lia].
    rewrite Hs'. reflexivity. }
  assert (s6 = s') as ->.
  { apply default_strides_inv in H1 as (? & -> & _); [|lia].
    apply default_dilations_inv in H2 as (? & -> & _); [|simpl; lia].
    apply default_kernel_shape_inv in H3 as (? & -> & _); [|simpl; lia].
    apply default_output_padding_inv in H4 as (? & -> & _); [|simpl; lia].
    apply default_output_shape_inv in H5 as (? & -> & _); [|simpl; lia].
    apply default_pads_inv in H6 as (? & -> & _); [|simpl; lia].
    apply copy_output_shape_inv in H7 as (-> & _); [reflexivity | simpl; lia]. }
  exists inputShape, weightShape, n, c, s', s', s', s', s', s', out.
  rewrite Hst, <- Hg.
  repeat split; try assumption.
  - apply default_strides_settled, SS.
  - apply default_dilations_settled, SD.
  - apply default_kernel_shape_settled, SK.
  - apply default_output_padding_settled, SP.
  - apply default_output_shape_settled, SO.
  - apply default_pads_settled, SA.
Qed.

End ShapeInferenceFacts.

(** ** Symbolic execution on vectors of known length *)

Module Exec.
Import SOFIE CxxFacts.

Ltac zconst t :=
  lazymatch t with
  | Z0 => idtac
  | Zpos ?p => pconst p
  | Zneg ?p => pconst p
  end
with pconst p :=
  lazymatch p with
  | xH => idtac
  | xO ?q => pconst q
  | xI ?q => pconst q
  end.

(** Evaluate the [size_t] operations whose operands are numerals. *)
Ltac sz_ground :=
  repeat match goal with
  | |- context [sz_add ?a ?b] => zconst a; zconst b;
      let v := eval vm_compute in (sz_add a b) in change (sz_add a b) with v
  | |- context [sz_sub ?a ?b] => zconst a; zconst b;
      let v := eval vm_compute in (sz_sub a b) in change (sz_sub a b) with v
  | |- context [sz_mul ?a ?b] => zconst a; zconst b;
      let v := eval vm_compute in (sz_mul a b) in change (sz_mul a b) with v
  end.

(** Unfold the monad, the vector primitives and the record accessors, and
    nothing that computes on symbolic numbers. *)
Ltac crunch :=
  cbv beta iota zeta delta
    [default_strides default_dilations default_kernel_shape default_output_padding
     default_output_shape default_pads copy_output_shape
     mbind M_bind bind mret M_ret ret gets modify throw undefined when_ at_ store rd wr
     for_ for_from vector_fill vector_resize empty max_size zoom
     lookup list_lookup insert list_insert length replicate resize take drop app
     Z.to_nat Z.of_nat Pos.to_nat Pos.iter_op Nat.add Nat.sub Pos.of_succ_nat Pos.succ
     Z.ltb Z.leb Z.eqb Z.compare Pos.compare Pos.compare_cont Z.add Pos.add Z.pos_sub Z.succ_double
     Z.pred_double Z.double Pos.pred_double Pos.add_carry Pos.eqb
     Nat.ltb Nat.leb Nat.eqb negb andb orb
     fAttrAutopad fAttrDilations fAttrGroup fAttrKernelShape fAttrOutputPadding
     fAttrOutputShape fAttrPads fAttrStrides fNX fNW fNB fNBroadcastedB fNY fShapeX fShapeW
     fShapeB fShapeY fType fDim fUseSession
     set_fAttrDilations set_fAttrGroup set_fAttrKernelShape set_fAttrOutputPadding
     set_fAttrOutputShape set_fAttrPads set_fAttrStrides set_fNBroadcastedB set_fShapeX
     set_fShapeW set_fShapeB set_fShapeY set_fDim set_fUseSession].

Ltac run := repeat (progress (crunch; sz_ground)).

(** The same, leaving the loops alone. *)
Ltac crunch_straight :=
  cbv beta iota zeta delta
    [default_strides default_dilations default_kernel_shape default_output_padding
     default_output_shape default_pads copy_output_shape
     mbind M_bind bind mret M_ret ret gets modify throw undefined when_ at_ store rd wr
     for_ vector_fill vector_resize empty max_size zoom
     lookup list_lookup insert list_insert length replicate resize take drop app
     Z.to_nat Z.of_nat Pos.to_nat Pos.iter_op Nat.add Nat.sub Pos.of_succ_nat Pos.succ
     Z.ltb Z.leb Z.eqb Z.compare Pos.compare Pos.compare_cont Z.add Pos.add Z.pos_sub Z.succ_double
     Z.pred_double Z.double Pos.pred_double Pos.add_carry Pos.eqb
     Nat.ltb Nat.leb Nat.eqb negb andb orb
     fAttrAutopad fAttrDilations fAttrGroup fAttrKernelShape fAttrOutputPadding
     fAttrOutputShape fAttrPads fAttrStrides fNX fNW fNB fNBroadcastedB fNY fShapeX fShapeW
     fShapeB fShapeY fType fDim fUseSession
     set_fAttrDilations set_fAttrGroup set_fAttrKernelShape set_fAttrOutputPadding
     set_fAttrOutputShape set_fAttrPads set_fAttrStrides set_fNBroadcastedB set_fShapeX
     set_fShapeW set_fShapeB set_fShapeY set_fDim set_fUseSession].

Ltac run_straight := repeat (progress (crunch_straight; sz_ground)).

(** Run the first loop of the goal to its end, on its own. *)
Ltac run_loop :=
  match goal with
  | |- context [for_from ?k ?i ?b ?acc ?s] =>
      let H := fresh in
      eassert (for_from k i b acc s = _) as H by (run; reflexivity);
      rewrite H; clear H
  end.


(** Turn [length l = n], for a numeral [n], into [l = [x1; ...; xn]]. *)
Ltac explode :=
  repeat match goal with
  | H : length ?l = _ |- _ =>
      is_var l; destruct l; simpl in H; [try discriminate H | try discriminate H]
  | H : S _ = S _ |- _ => injection H as H
  | H : 0%nat = 0%nat |- _ => clear H
  end.

End Exec.

(** ** Shape inference on well-formed operators of one to three spatial axes *)

Module ShapeInferenceTotal.
Import SOFIE CxxFacts ShapeInferenceFacts Exec.

Ltac by_rank n :=
  let H := fresh in
  assert (n = 1 \/ n = 2 \/ n = 3)%nat as H by lia;
  destruct H as [-> | [-> | ->]].

Ltac lookups i :=
  repeat (destruct i as [|i]; simpl in *; [congruence|]); try discriminate.

Lemma default_strides_total (s : Op) (n : nat) :
  (1 <= n <= 3)%nat -> fDim s = Z.of_nat n -> sized n (fAttrStrides s) ->
  exists v, default_strides s = Ok tt (set_fAttrStrides v s) /\ length v = n /\
    v = (if empty (fAttrStrides s) then replicate n 1 else fAttrStrides s).
Proof.
  intros Hn Hd HS. by_rank n; destruct s; simpl in *; subst.
  all: destruct HS as [-> | HS]; [| explode].
  all: unfold default_strides; run.
  all: eexists; split; [reflexivity|]; split; reflexivity.
Qed.

Lemma default_dilations_total (s : Op) (n : nat) :
  (1 <= n <= 3)%nat -> fDim s = Z.of_nat n -> sized n (fAttrDilations s) ->
  exists v, default_dilations s = Ok tt (set_fAttrDilations v s) /\ length v = n /\
    v = (if empty (fAttrDilations s) then replicate n 1 else fAttrDilations s).
Proof.
  intros Hn Hd HS. by_rank n; destruct s; simpl in *; subst.
  all: destruct HS as [-> | HS]; [| explode].
  all: unfold default_dilations; run.
  all: eexists; split; [reflexivity|]; split; reflexivity.
Qed.

Lemma default_output_padding_total (s : Op) (n : nat) :
  (1 <= n <= 3)%nat -> fDim s = Z.of_nat n -> sized n (fAttrOutputPadding s) ->
  exists v, default_output_padding s = Ok tt (set_fAttrOutputPadding v s) /\ length v = n /\
    v = (if empty (fAttrOutputPadding s) then replicate n 0 else fAttrOutputPadding s).
Proof.
  intros Hn Hd HS. by_rank n; destruct s; simpl in *; subst.
  all: destruct HS as [-> | HS]; [| explode].
  all: unfold default_output_padding; run.
  all: eexists; split; [reflexivity|]; split; reflexivity.
Qed.

Lemma default_kernel_shape_total (s : Op) (n : nat) :
  (1 <= n <= 3)%nat -> fDim s = Z.of_nat n -> sized n (fAttrKernelShape s) ->
  length (fShapeW s) = (n + 2)%nat -> length (fAttrDilations s) = n ->
  exists v, default_kernel_shape s = Ok tt (set_fAttrKernelShape v s) /\ length v = n /\
    (fAttrKernelShape s <> [] -> v = fAttrKernelShape s) /\
    (fAttrKernelShape s = [] -> forall i w d, fShapeW s !! (i + 2)%nat = Some w ->
        fAttrDilations s !! i = Some d -> v !! i = Some (w + (d - 1) * (w - 1))%sz).
Proof.
  intros Hn Hd HK HW HD. by_rank n; destruct s; simpl in *; subst; explode.
  all: destruct HK as [-> | HK]; [| explode].
  all: unfold default_kernel_shape; run.
  all: eexists; split; [reflexivity|]; split; [reflexivity|];
       split; [try congruence; intros; reflexivity|].
  all: try (intros; discriminate).
  all: intros _ i w d Hw Hdl; lookups i.
Qed.

Lemma default_output_shape_total (inputShape : list Z) (s : Op) (n : nat) :
  (1 <= n <= 3)%nat -> fDim s = Z.of_nat n -> sized n (fAttrOutputShape s) ->
  length inputShape = (n + 2)%nat -> length (fAttrStrides s) = n ->
  length (fAttrKernelShape s) = n -> length (fAttrOutputPadding s) = n ->
  exists v, default_output_shape inputShape s = Ok tt (set_fAttrOutputShape v s) /\
    length v = n /\
    (fAttrOutputShape s <> [] -> v = fAttrOutputShape s) /\
    (fAttrOutputShape s = [] -> forall i st x k p,
        fAttrStrides s !! i = Some st -> inputShape !! (i + 2)%nat = Some x ->
        fAttrKernelShape s !! i = Some k -> fAttrOutputPadding s !! i = Some p ->
        v !! i = Some (st * (x - 1) + k - p)%sz).
Proof.
  intros Hn Hd HO HX HS HK HP. by_rank n; destruct s; simpl in *; subst; explode.
  all: destruct HO as [-> | HO]; [| explode].
  all: unfold default_output_shape; run.
  all: eexists; split; [reflexivity|]; split; [reflexivity|];
       split; [try congruence; intros; reflexivity|].
  all: try (intros; discriminate).
  all: intros _ i st x k p Hs Hx Hk Hp; lookups i.
Qed.

Lemma default_pads_total (s : Op) (n : nat) :
  (1 <= n <= 3)%nat -> fDim s = Z.of_nat n ->
  fAttrPads s = [] \/ length (fAttrPads s) = (2 * n)%nat ->
  length (fShapeX s) = (n + 2)%nat -> length (fAttrStrides s) = n ->
  length (fAttrOutputShape s) = n ->
  length (fAttrKernelShape s) = n -> length (fAttrOutputPadding s) = n ->
  exists v, default_pads s = Ok tt (set_fAttrPads v s) /\ length v = (2 * n)%nat /\
    (fAttrPads s <> [] -> v = fAttrPads s).
Proof.
  intros Hn Hd HA HX HS HO HK HP. by_rank n; destruct s; simpl in *; subst; explode.
  all: destruct HA as [-> | HA]; [| explode].
  all: unfold default_pads; run_straight.
  all: try (eexists; split; [reflexivity|]; split; [reflexivity|]; intros; reflexivity).
  all: run_loop; run_straight.
  all: match goal with |- context [String.eqb ?a ?b] => destruct (String.eqb a b) end; run.
  all: eexists; split; [reflexivity|]; split; [reflexivity|]; congruence.
Qed.

Lemma copy_output_shape_total (outShape : list Z) (s : Op) (n : nat) :
  (1 <= n <= 3)%nat -> fDim s = Z.of_nat n ->
  length outShape = (n + 2)%nat -> length (fAttrOutputShape s) = n ->
  exists out, copy_output_shape outShape s = Ok out s /\ length out = (n + 2)%nat /\
    out !! 0%nat = outShape !! 0%nat /\ out !! 1%nat = outShape !! 1%nat /\
    forall i, (i < n)%nat -> out !! (i + 2)%nat = fAttrOutputShape s !! i.
Proof.
  intros Hn Hd HL HO. by_rank n; destruct s; simpl in *; subst; explode.
  all: unfold copy_output_shape; run.
  all: eexists; split; [reflexivity|]; repeat split.
  all: intros i Hi; do 3 (try (destruct i as [|i]; [reflexivity|])); lia.
Qed.

(** On a well-formed operator of one to three spatial axes shape inference
    returns, and this is what it returns and what it leaves behind. *)
Lemma ShapeInference_total (op : Op) (x w : list Z) (n : nat) :
  (1 <= n <= 3)%nat ->
  length x = (n + 2)%nat -> length w = (n + 2)%nat ->
  length (fShapeX op) = (n + 2)%nat -> length (fShapeW op) = (n + 2)%nat ->
  sized n (fAttrStrides op) -> sized n (fAttrDilations op) ->
  sized n (fAttrKernelShape op) -> sized n (fAttrOutputPadding op) ->
  sized n (fAttrOutputShape op) ->
  fAttrPads op = [] \/ length (fAttrPads op) = (2 * n)%nat ->
  exists out vS vD vK vP vO vA b c,
    ShapeInference [x; w] op =
      Ok [out] (set_fAttrPads vA (set_fAttrOutputShape vO (set_fAttrOutputPadding vP
                 (set_fAttrKernelShape vK (set_fAttrDilations vD (set_fAttrStrides vS
                    (started x op))))))) /\
    vS = (if empty (fAttrStrides op) then replicate n 1 else fAttrStrides op) /\
    vD = (if empty (fAttrDilations op) then replicate n 1 else fAttrDilations op) /\
    vP = (if empty (fAttrOutputPadding op) then replicate n 0 else fAttrOutputPadding op) /\
    length vK = n /\
    (fAttrKernelShape op <> [] -> vK = fAttrKernelShape op) /\
    (fAttrKernelShape op = [] -> forall i k d, fShapeW op !! (i + 2)%nat = Some k ->
        vD !! i = Some d -> vK !! i = Some (k + (d - 1) * (k - 1))%sz) /\
    length vO = n /\
    (fAttrOutputShape op <> [] -> vO = fAttrOutputShape op) /\
    (fAttrOutputShape op = [] -> forall i st xi k p,
        vS !! i = Some st -> x !! (i + 2)%nat = Some xi ->
        vK !! i = Some k -> vP !! i = Some p ->
        vO !! i = Some (st * (xi - 1) + k - p)%sz) /\
    length vA = (2 * n)%nat /\
    (fAttrPads op <> [] -> vA = fAttrPads op) /\
    length out = (n + 2)%nat /\
    x !! 0%nat = Some b /\ out !! 0%nat = Some b /\
    w !! 1%nat = Some c /\
    out !! 1%nat = Some (c * (if fAttrGroup op =? 0 then 1 else fAttrGroup op))%sz /\
    forall i, (i < n)%nat -> out !! (i + 2)%nat = vO !! i.
Proof.
  intros Hn Hx Hw HX HW HS HD HK HP HO HA.
  set (s0 := started x op).
  assert (fDim s0 = Z.of_nat n) as Hdim.
  { unfold s0. rewrite started_fDim, Hx. unfold sz_sub. rewrite wrap_small by lia. lia. }
  assert (forall f : Op -> list Z,
            (forall v t, f (set_fDim v t) = f t) -> (forall v t, f (set_fAttrGroup v t) = f t) ->
            f s0 = f op) as Hsame.
  { intros f H1 H2. unfold s0, started. destruct (fAttrGroup op =? 0).
    - rewrite H2, H1. reflexivity.
    - apply H1. }
  assert (fAttrStrides s0 = fAttrStrides op) as ES by (apply Hsame; reflexivity).
  assert (fAttrDilations s0 = fAttrDilations op) as ED by (apply Hsame; reflexivity).
  assert (fAttrKernelShape s0 = fAttrKernelShape op) as EK by (apply Hsame; reflexivity).
  assert (fAttrOutputPadding s0 = fAttrOutputPadding op) as EP by (apply Hsame; reflexivity).
  assert (fAttrOutputShape s0 = fAttrOutputShape op) as EO by (apply Hsame; reflexivity).
  assert (fAttrPads s0 = fAttrPads op) as EA by (apply Hsame; reflexivity).
  assert (fShapeX s0 = fShapeX op) as EX by (apply Hsame; reflexivity).
  assert (fShapeW s0 = fShapeW op) as EW by (apply Hsame; reflexivity).
  destruct (default_strides_total s0 n Hn Hdim) as (vS & R1 & LS & VS);
    [rewrite ES; exact HS|].
  set (s1 := set_fAttrStrides vS s0) in *.
  destruct (default_dilations_total s1 n Hn Hdim) as (vD & R2 & LD & VD);
    [simpl; rewrite ED; exact HD|].
  set (s2 := set_fAttrDilations vD s1) in *.
  destruct (default_kernel_shape_total s2 n Hn Hdim) as (vK & R3 & LK & VK1 & VK2);
    [simpl; rewrite EK; exact HK | simpl; rewrite EW; exact HW | exact LD |].
  set (s3 := set_fAttrKernelShape vK s2) in *.
  destruct (default_output_padding_total s3 n Hn Hdim) as (vP & R4 & LP & VP);
    [simpl; rewrite EP; exact HP|].
  set (s4 := set_fAttrOutputPadding vP s3) in *.
  destruct (default_output_shape_total x s4 n Hn Hdim) as (vO & R5 & LO & VO1 & VO2);
    [simpl; rewrite EO; exact HO | exact Hx | exact LS | exact LK | exact LP |].
  set (s5 := set_fAttrOutputShape vO s4) in *.
  destruct (default_pads_total s5 n Hn Hdim) as (vA & R6 & LA & VA);
    [simpl; rewrite EA; exact HA | simpl; rewrite EX; exact HX
     | exact LS | exact LO | exact LK | exact LP |].
  set (s6 := set_fAttrPads vA s5) in *.
  destruct (lookup_lt_is_Some_2 x 0%nat ltac:(lia)) as (b & Hb).
  destruct (lookup_lt_is_Some_2 w 1%nat ltac:(lia)) as (c & Hc).
  destruct (copy_output_shape_total (outShape_head x b c (fAttrGroup s4)) s6 n Hn Hdim)
    as (out & R7 & Lout & O0 & O1 & Oi);
    [unfold outShape_head; rewrite !length_insert, length_replicate; exact Hx | exact LO |].
  exists out, vS, vD, vK, vP, vO, vA, b, c.
  split.
  { apply ShapeInference_ok_intro.
    exists x, w, b, c, s1, s2, s3, s4, s5, s6, out.
    repeat split; try assumption; try reflexivity.
    - unfold max_size. lia.
    - lia. }
  simpl in VS, VD, VK1, VK2, VP, VO1, VO2, VA.
  rewrite ES in VS. rewrite ED in VD. rewrite EK in VK1, VK2. rewrite EP in VP.
  rewrite EO in VO1, VO2. rewrite EA in VA. rewrite EW in VK2.
  repeat split; try assumption.
  - rewrite O0. unfold outShape_head.
    rewrite list_lookup_insert_ne by discriminate.
    apply list_lookup_insert_eq. rewrite length_replicate. lia.
  - rewrite O1. unfold outShape_head. simpl fAttrGroup. unfold s0. rewrite started_group.
    apply list_lookup_insert_eq. rewrite length_insert, length_replicate. lia.
Qed.

End ShapeInferenceTotal.

(** ** Initialisation *)

Module InitializeFacts.
Import SOFIE CxxFacts ShapeInferenceFacts ShapeInferenceTotal.

Section WithModel.
Context {RModel ETensorType TensorData : Type} `{!Env RModel ETensorType TensorData}.
Hypothesis laws : lawful.

Ltac wsimpl :=
  unfold on_model, this, call, print, zoom, set_self, set_model;
  cbn [on_model this call zoom gets modify throw when_ print mbind M_bind bind mret M_ret ret
       set_self set_model self model cout negb orb andb at_ lookup list_lookup Z.to_nat
       Pos.to_nat Pos.iter_op Nat.add undefined abort
       fAttrAutopad fAttrDilations fAttrGroup fAttrKernelShape fAttrOutputPadding
       fAttrOutputShape fAttrPads fAttrStrides fNX fNW fNB fNBroadcastedB fNY fShapeX fShapeW
       fShapeB fShapeY fType fDim fUseSession
       set_fAttrDilations set_fAttrGroup set_fAttrKernelShape set_fAttrOutputPadding
       set_fAttrOutputShape set_fAttrPads set_fAttrStrides set_fNBroadcastedB set_fShapeX
       set_fShapeW set_fShapeB set_fShapeY set_fDim set_fUseSession].

Ltac wstep := rewrite bind_eq; wsimpl.
Ltac wstep_with H := rewrite bind_eq; wsimpl; rewrite H; wsimpl.

Lemma rank_test (shape : list Z) :
  (Z.of_nat (length shape) <? 3) || (5 <? Z.of_nat (length shape)) = false <-> rank_ok shape.
Proof.
  unfold rank_ok. rewrite orb_false_iff, !Z.ltb_ge. lia.
Qed.

Ltac thrown := left; split; [| eexists _, _; reflexivity].

Lemma Initialize_decided (w : World RModel) :
  fresh_names w ->
  (forall shapeX shapeW,
     GetTensorShape (fNX (self w)) (model w) = Ok shapeX (model w) ->
     GetTensorShape (fNW (self w)) (model w) = Ok shapeW (model w) ->
     rank_ok shapeX -> rank_ok shapeW -> configured (self w) shapeX shapeW) ->
  Initialize_verdict w (Initialize w).
Proof.
  destruct w as [op m out]. unfold fresh_names. simpl.
  intros (FY & NBY & FBB & NBBY) Hconf.
  unfold Initialize. do 4 wstep.
  destruct (CheckIfTensorAlreadyExist (fNX op) m) eqn:EX.
  2:{ wstep. thrown. left; exact EX. }
  destruct (shape_of_declared laws _ _ EX) as (shX & HX).
  wstep. wstep_with HX. wstep.
  destruct ((Z.of_nat (length shX) <? 3) || (5 <? Z.of_nat (length shX))) eqn:RX.
  { do 2 wstep. thrown.
    do 3 right. left. exists shX. split; [exact HX|]. rewrite <- rank_test, RX. discriminate. }
  apply rank_test in RX.
  do 4 wstep.
  destruct (CheckIfTensorAlreadyExist (fNW op) m) eqn:EW.
  2:{ wstep. thrown. right; left; exact EW. }
  destruct (shape_of_declared laws _ _ EW) as (shW & HW).
  wstep. wstep_with HW. wstep.
  destruct ((Z.of_nat (length shW) <? 3) || (5 <? Z.of_nat (length shW))) eqn:RW.
  { do 2 wstep. thrown.
    do 4 right. left. exists shW. split; [exact HW|]. rewrite <- rank_test, RW. discriminate. }
  apply rank_test in RW.
  wstep. rewrite bind_eq. wsimpl.
  destruct (Hconf shX shW HX HW RX RW) as (LW & CS & CD & CK & CP & CO & CA).
  unfold rank_ok in RX, RW.
  set (opS := set_fShapeW shW _).
  destruct (ShapeInference_total opS shX shW (length shX - 2)) as
    (shY & vS & vD & vK & vP & vO & vA & b & c & Hrun & _ & _ & _ & _ & _ & _ & _ & _ & _ &
     _ & _ & LY & _ & _ & Hc & HY1 & _);
    try (subst opS; simpl; assumption); try (subst opS; simpl; lia).
  rewrite Hrun. wsimpl. clear Hrun.
  set (opI := set_fAttrPads vA _).
  assert (fNY opI = fNY op /\ fNB opI = fNB op /\ fType opI = fType op /\
          fUseSession opI = UseSession m) as (ENY & ENB & ETY & EUS).
  { subst opI opS. unfold started. simpl. destruct (fAttrGroup op =? 0); simpl; auto. }
  assert (fAttrGroup opS = fAttrGroup op) as EG by reflexivity.
  rewrite EG in HY1. clearbody opI. clear opS EG.
  wstep_with (at_ok (S := World RModel) [shY] 0 {| self := opI; model := m; cout := out |} shY eq_refl).
  do 2 wstep. rewrite ENY.
  destruct (type_of_declared laws _ _ EX) as (tX & HtX).
  wstep_with HtX.
  destruct (add_fresh laws (fNY op) tX shY m FY) as (m1 & Hadd & EY1 & SY1 & US1 & Fr1).
  wstep_with Hadd.
  wstep. rewrite ENB.
  assert (forall sX, GetTensorShape (fNX op) m = Ok sX m -> sX = shX) as UX
    by (intros sX E; rewrite HX in E; injection E as <-; reflexivity).
  assert (forall sW, GetTensorShape (fNW op) m = Ok sW m -> sW = shW) as UW
    by (intros sW E; rewrite HW in E; injection E as <-; reflexivity).
  assert (forall P : Prop,
    (fNB op <> "" ->
     forall sB, GetTensorShape (fNB op) m = Ok sB m ->
       length sB <> length shX ->
       (sB = [] \/
        (exists b0 c', sB !! 0%nat = Some b0 /\ shW !! 1%nat = Some c' /\
           b0 <> (c' * (if fAttrGroup op =? 0 then 1 else fAttrGroup op))%sz) \/
        fType op <> "float") -> P) ->
    (fNB op <> "" -> CheckIfTensorAlreadyExist (fNB op) m = false -> P) ->
    Initialize_error {| self := op; model := m; cout := out |} -> P) as Hno.
  { intros P Hbias Hmiss [E|[E|[(N & E)|[(sX & E & R)|[(sW & E & R)|
      (N & sX & sW & sB & E1 & E2 & E3 & Hrk & Hbad)]]]]]; simpl in *.
    - congruence.
    - congruence.
    - exact (Hmiss N E).
    - apply UX in E as ->. exfalso. apply R. exact RX.
    - apply UW in E as ->. exfalso. apply R. exact RW.
    - apply UX in E1 as ->. apply UW in E2 as ->. exact (Hbias N sB E3 Hrk Hbad). }
  destruct (String.eqb_spec (fNB op) "") as [EB|NB]; wsimpl.
  { right. split.
    - intros Herr. apply (Hno False); [intros; contradiction | intros; contradiction | exact Herr].
    - eexists. split; [reflexivity|]. simpl. split; [exact EY1|]. split; [exact SY1|].
      exists shW, c. auto. }
  destruct (Fr1 (fNB op) NBY) as (FrB & FrS).
  wstep. rewrite FrB.
  destruct (CheckIfTensorAlreadyExist (fNB op) m) eqn:EBd.
  2:{ wstep. thrown. do 2 right. left. split; assumption. }
  destruct (shape_of_declared laws _ _ EBd) as (shB & HB).
  wstep. wstep_with (FrS shB HB). wstep.
  destruct (Nat.eqb_spec (length shB) (length shY)) as [EL|NL]; wsimpl.
  { right. split.
    - intros Herr. apply (Hno False); [|intros; congruence|exact Herr].
      intros _ sB E Hrk _. rewrite HB in E. injection E as <-.
      apply Hrk. rewrite EL, LY. lia.
    - eexists. split; [reflexivity|]. simpl. split; [exact EY1|]. split; [exact SY1|].
      exists shW, c. auto. }
  pose proof FrB as EB1.
  destruct (data_of_declared laws _ _ EB1) as (data & Hdata).
  wstep_with Hdata.
  assert (length shB <> length shX) as NLX by (rewrite LY in NL; lia).
  assert (Initialize_error {| self := op; model := m; cout := out |} ->
          forall Q : Prop,
            (shB = [] -> Q) ->
            (forall b0, shB !! 0%nat = Some b0 ->
               b0 <> (c * (if fAttrGroup op =? 0 then 1 else fAttrGroup op))%sz -> Q) ->
            (fType op <> "float" -> Q) -> Q) as Hwhy.
  { intros Herr Q Q1 Q2 Q3. apply (Hno Q); [|intros; congruence|exact Herr].
    intros _ sB E _ [Hbad|[(b0 & c' & Hb0 & Hc' & Hne)|Hbad]];
      rewrite HB in E; injection E as <-.
    - exact (Q1 Hbad).
    - rewrite Hc in Hc'. injection Hc' as <-. exact (Q2 b0 Hb0 Hne).
    - exact (Q3 Hbad). }
  assert (forall Hbad : (shB = [] \/
        (exists b0 c', shB !! 0%nat = Some b0 /\ shW !! 1%nat = Some c' /\
           b0 <> (c' * (if fAttrGroup op =? 0 then 1 else fAttrGroup op))%sz) \/
        fType op <> "float"), Initialize_error {| self := op; model := m; cout := out |}) as Hyes.
  { intros Hbad. do 5 right. split; [exact NB|]. exists shX, shW, shB. simpl. auto. }
  destruct shB as [|b0 shB'].
  { wstep. thrown. apply Hyes. left; reflexivity. }
  wstep.
  replace (Z.of_nat (length (b0 :: shB')) <? 1) with false
    by (symmetry; apply Z.ltb_ge; simpl length; lia).
  wsimpl.
  wstep_with (at_ok (S := World RModel) (b0 :: shB') 0
                {| self := set_fShapeB (b0 :: shB') (set_fShapeY shY opI);
                   model := m1; cout := out |} b0 eq_refl).
  wstep_with (at_ok (S := World RModel) shY 1
                {| self := set_fShapeB (b0 :: shB') (set_fShapeY shY opI);
                   model := m1; cout := out |} _ HY1).
  wstep.
  destruct (Z.eqb_spec b0 (c * (if fAttrGroup op =? 0 then 1 else fAttrGroup op))%sz)
    as [Eb|Nb]; wsimpl.
  2:{ thrown. apply Hyes. right; left. exists b0, c. auto. }
  wstep. rewrite ETY. wstep.
  destruct (String.eqb_spec (fType op) "float") as [Et|Nt]; wsimpl.
  2:{ thrown. apply Hyes. right; right. exact Nt. }
  wstep. rewrite EUS.
  assert (~ Initialize_error {| self := op; model := m; cout := out |}) as Hfine.
  { intros Herr. apply (Hwhy Herr).
    - discriminate.
    - intros b0' Hb0 Hne. injection Hb0 as <-. contradiction.
    - intros Hne. contradiction. }
  destruct (type_of_declared laws _ _ EB1) as (tB & HtB).
  destruct (UseSession m) eqn:EU; wsimpl.
  - (* session: the broadcast bias becomes a new intermediate tensor *)
    wstep. wstep_with HtB.
    assert (CheckIfTensorAlreadyExist ("Broadcasted" +:+ fNB op) m1 = false) as FBB1.
    { destruct (Fr1 _ NBBY) as (-> & _). exact FBB. }
    destruct (add_fresh laws ("Broadcasted" +:+ fNB op) tB shY m1 FBB1)
      as (m3 & Hadd3 & _ & _ & _ & Fr3).
    rewrite Hadd3. wsimpl.
    right. split; [exact Hfine|]. eexists. split; [reflexivity|]. simpl.
    assert (fNY op <> "Broadcasted" +:+ fNB op) as NE by congruence.
    destruct (Fr3 _ NE) as (-> & FS3). split; [exact EY1|]. split; [apply FS3, SY1|].
    exists shW, c. auto.
  - (* no session: the bias tensor itself is replaced *)
    destruct (broadcast_succeeds laws data b0 shY) as (data' & Hbc).
    wstep_with Hbc. wstep_with HtB.
    destruct (update_declared laws (fNB op) tB shY data' m1 EB1) as (m2 & Hup & Fr2).
    wstep_with Hup.
    destruct (Fr2 _ EB1) as (EB2 & _).
    destruct (shape_of_declared laws _ _ EB2) as (shB2 & HB2).
    wstep_with HB2. wstep.
    right. split; [exact Hfine|]. eexists. split; [reflexivity|]. simpl.
    destruct (Fr2 _ EY1) as (EY2 & FS2). split; [exact EY2|].
    split; [apply FS2; [congruence | exact SY1]|].
    exists shW, c. auto.
Qed.

End WithModel.

End InitializeFacts.

(** ** The reference model obeys the laws *)

Module ReferenceFacts.
Import SOFIE CxxFacts.

Lemma reference_lawful : lawful (Env0 := Reference.env).
Proof.
  assert (forall name (m : Reference.RModel),
            CheckIfTensorAlreadyExist name m = true ->
            exists t, Reference.declared m !! name = Some t) as Hdecl.
  { intros name m H. apply bool_decide_eq_true in H. exact H. }
  split.
  - intros name m H. destruct (Hdecl _ _ H) as (t & E). exists (snd t).
    simpl. unfold Reference.find. rewrite !bind_eq. simpl. rewrite E. reflexivity.
  - intros name m H. destruct (Hdecl _ _ H) as (t & E). exists (fst t).
    simpl. unfold Reference.find. rewrite !bind_eq. simpl. rewrite E. reflexivity.
  - intros name m H. destruct (Hdecl _ _ H) as (t & E). exists tt.
    simpl. unfold Reference.find. rewrite !bind_eq. simpl. rewrite E. reflexivity.
  - intros name type shape m H. eexists. split; [reflexivity|]. simpl.
    split; [apply bool_decide_eq_true; rewrite lookup_insert_eq; eauto|].
    split; [unfold Reference.find; rewrite !bind_eq; simpl; rewrite lookup_insert_eq; reflexivity|].
    split; [reflexivity|].
    intros other Hne. split.
    + apply bool_decide_ext. rewrite lookup_insert_ne by congruence. reflexivity.
    + intros sh. unfold Reference.find. rewrite !bind_eq. simpl.
      rewrite lookup_insert_ne by congruence.
      destruct (Reference.declared m !! other); simpl; intros E; [|discriminate].
      injection E as <-. reflexivity.
  - intros name type shape data m H. eexists. split; [reflexivity|]. simpl.
    intros other Ho. split.
    + apply bool_decide_eq_true. apply bool_decide_eq_true in Ho.
      destruct (decide (name = other)) as [->|Hne];
        [rewrite lookup_insert_eq; eauto | rewrite lookup_insert_ne by exact Hne; exact Ho].
    + intros Hne sh. unfold Reference.find. rewrite !bind_eq. simpl.
      rewrite lookup_insert_ne by congruence.
      destruct (Reference.declared m !! other); simpl; intros E; [|discriminate].
      injection E as <-. reflexivity.
  - intros. exists tt. reflexivity.
Qed.

End ReferenceFacts.

(** ** Running [Generate] *)

Module GenerateFacts.
Import SOFIE CxxFacts Exec.

Section WithModel.
Context {RModel ETensorType TensorData : Type} `{!Env RModel ETensorType TensorData}.

Ltac pads_crunch :=
  cbv beta iota zeta delta
    [average_pads this print zoom set_self set_model
     self model cout
     mbind M_bind bind mret M_ret ret gets modify throw undefined when_ at_ store rd wr
     lookup list_lookup insert list_insert length app
     Z.to_nat Pos.to_nat Pos.iter_op Nat.add
     Nat.ltb Nat.leb negb andb orb
     fAttrAutopad fAttrDilations fAttrGroup fAttrKernelShape fAttrOutputPadding
     fAttrOutputShape fAttrPads fAttrStrides fNX fNW fNB fNBroadcastedB fNY fShapeX fShapeW
     fShapeB fShapeY fType fDim fUseSession
     set_fAttrDilations set_fAttrGroup set_fAttrKernelShape set_fAttrOutputPadding
     set_fAttrOutputShape set_fAttrPads set_fAttrStrides set_fNBroadcastedB set_fShapeX
     set_fShapeW set_fShapeB set_fShapeY set_fDim set_fUseSession].

Ltac cmp_ground :=
  repeat match goal with
  | |- context [Z.eqb ?a ?b] => zconst a; zconst b;
      let v := eval vm_compute in (Z.eqb a b) in change (Z.eqb a b) with v
  end.

Ltac split_test :=
  match goal with
  | |- context [Z.eqb ?a ?b] => is_var a; is_var b; destruct (Z.eqb_spec a b)
  end.

Ltac pads_run := repeat (progress (pads_crunch; cmp_ground)).

(** With two axes and pads that differ on one of them, [average_pads] warns
    and stores the two averages. *)
Lemma average_pads_2d (op : Op) (m : RModel) (out : list string) (p0 p1 p2 p3 : Z) :
  fDim op = 2 -> fAttrPads op = [p0; p1; p2; p3] -> p0 <> p2 \/ p1 <> p3 ->
  average_pads (mkWorld op m out) =
  Ok tt (mkWorld (set_fAttrPads [(p0 + p2)%sz / 2; (p1 + p3)%sz / 2; p2; p3] op) m
           (out ++ [pads_warning])).
Proof.
  destruct op; simpl. intros -> -> Hp.
  pads_run. repeat (split_test; try lia; pads_run). all: reflexivity.
Qed.

(** The same with three axes. *)
Lemma average_pads_3d (op : Op) (m : RModel) (out : list string) (p0 p1 p2 p3 p4 p5 : Z) :
  fDim op = 3 -> fAttrPads op = [p0; p1; p2; p3; p4; p5] -> p0 <> p3 \/ p1 <> p4 \/ p2 <> p5 ->
  average_pads (mkWorld op m out) =
  Ok tt (mkWorld (set_fAttrPads [(p0 + p3)%sz / 2; (p1 + p4)%sz / 2; (p2 + p5)%sz / 2; p3; p4; p5] op) m
           (out ++ [pads_warning])).
Proof.
  destruct op; simpl. intros -> -> Hp.
  pads_run. repeat (split_test; try lia; pads_run). all: reflexivity.
Qed.

Ltac gen_crunch :=
  cbv beta iota zeta delta
    [emit_im2col this on_model call print zoom set_self set_model
     self model cout
     mbind M_bind bind mret M_ret ret gets modify throw undefined when_ at_ store rd wr
     for_ for_from empty sz_div String.eqb
     lookup list_lookup insert list_insert length app
     Z.to_nat Pos.to_nat Pos.iter_op Nat.add
     Z.ltb Z.leb Z.eqb Z.compare Pos.compare Pos.compare_cont Z.add Pos.add Z.pos_sub Z.succ_double
     Z.pred_double Z.double Pos.pred_double Pos.add_carry Pos.eqb
     Pos.succ Nat.ltb Nat.leb negb andb orb
     fAttrAutopad fAttrDilations fAttrGroup fAttrKernelShape fAttrOutputPadding
     fAttrOutputShape fAttrPads fAttrStrides fNX fNW fNB fNBroadcastedB fNY fShapeX fShapeW
     fShapeB fShapeY fType fDim fUseSession
     set_fAttrDilations set_fAttrGroup set_fAttrKernelShape set_fAttrOutputPadding
     set_fAttrOutputShape set_fAttrPads set_fAttrStrides set_fNBroadcastedB set_fShapeX
     set_fShapeW set_fShapeB set_fShapeY set_fDim set_fUseSession].

Ltac gen_eval t :=
  eval cbv beta iota zeta delta
    [this zoom set_self set_model self model cout
     mbind M_bind bind mret M_ret ret gets throw when_ empty negb andb orb
     fAttrAutopad fAttrDilations fAttrGroup fAttrKernelShape fAttrOutputPadding
     fAttrOutputShape fAttrPads fAttrStrides fNX fNW fNB fNBroadcastedB fNY fShapeX fShapeW
     fShapeB fShapeY fType fDim fUseSession] in t.

(** One statement of a member function, run on its own. *)
Ltac head_step :=
  lazymatch goal with
  | |- produces (mbind ?f ?m ?s) ?w =>
      let v := gen_eval (m s) in
      lazymatch v with
      | Ok ?a ?s1 => change (produces (f a s1) w); cbv beta
      end
  | |- mbind ?f ?m ?s = ?r =>
      let v := gen_eval (m s) in
      lazymatch v with
      | Ok ?a ?s1 => change (f a s1 = r); cbv beta
      end
  end.

(** The third disjunct of the guard of [Generate] is false once a named
    bias has its shape stored. *)
Lemma guard_passes (nb : string) (sb : list Z) :
  (nb <> "" -> sb <> []) -> negb (String.eqb nb "") && empty sb = false.
Proof.
  intros Hb. destruct (String.eqb_spec nb ""); [reflexivity|]. destruct sb; [tauto|reflexivity].
Qed.

(** The index computations of [Generate] for [fDim = d]. *)
Ltac sz_fix d :=
  let a := eval vm_compute in (sz_add d 1) in
  let b := eval vm_compute in (sz_sub d 1) in
  let c := eval vm_compute in (sz_sub d 2) in
  let e := eval vm_compute in (sz_sub d 3) in
  change (sz_add d 1) with a; change (sz_sub d 1) with b;
  change (sz_sub d 2) with c; change (sz_sub d 3) with e.

(** Run [Generate] up to the test of [fUseSession], in both cases of which
    it goes on to [average_pads]. *)
Ltac generate_prefix d Hguard us :=
  unfold Generate; cbv zeta;
  do 5 head_step; rewrite Hguard; do 2 head_step; sz_fix d; gen_crunch;
  destruct us; gen_crunch.

(** From the end of [average_pads] to the end of [Generate]. *)
Ltac generate_suffix g nbb :=
  gen_crunch; destruct g as [|[?|?|]|?]; try contradiction; gen_crunch;
  destruct nbb; eexists; reflexivity.

(** [Generate] on an initialised operator with two spatial axes and
    asymmetric pads: it returns, the pads averaged and the warning printed. *)
Lemma Generate_2d ap d0 d1 g k0 k1 opd os p0 p1 p2 p3 s0 s1 nx nw nb nbb ny x0 x1 x2 x3
    w0 w1 w2 w3 sb y0 y1 y2 y3 ty us (m : RModel) out name :
  g <> 0 -> (nb <> "" -> sb <> []) -> (p0 <> p2 \/ p1 <> p3) ->
  let op := mkOp ap [d0; d1] g [k0; k1] opd os [p0; p1; p2; p3] [s0; s1] nx nw nb nbb ny
              [x0; x1; x2; x3] [w0; w1; w2; w3] sb [y0; y1; y2; y3] ty 2 us in
  produces (Generate name (mkWorld op m out))
    (mkWorld (set_fAttrPads [(p0 + p2)%sz / 2; (p1 + p3)%sz / 2; p2; p3] op) m
       (out ++ [pads_warning])).
Proof.
  intros Hg Hb Hp op. subst op.
  pose proof (guard_passes nb sb Hb) as Hguard.
  generate_prefix 2 Hguard us.
  all: (erewrite average_pads_2d by (try reflexivity; exact Hp)); generate_suffix g nbb.
Qed.

(** The same with three spatial axes. *)
Lemma Generate_3d ap d0 d1 d2 g k0 k1 k2 opd os p0 p1 p2 p3 p4 p5 s0 s1 s2 nx nw nb nbb ny
    x0 x1 x2 x3 x4 w0 w1 w2 w3 w4 sb y0 y1 y2 y3 y4 ty us (m : RModel) out name :
  g <> 0 -> (nb <> "" -> sb <> []) -> (p0 <> p3 \/ p1 <> p4 \/ p2 <> p5) ->
  let op := mkOp ap [d0; d1; d2] g [k0; k1; k2] opd os [p0; p1; p2; p3; p4; p5] [s0; s1; s2]
              nx nw nb nbb ny [x0; x1; x2; x3; x4] [w0; w1; w2; w3; w4] sb
              [y0; y1; y2; y3; y4] ty 3 us in
  produces (Generate name (mkWorld op m out))
    (mkWorld (set_fAttrPads [(p0 + p3)%sz / 2; (p1 + p4)%sz / 2; (p2 + p5)%sz / 2; p3; p4; p5]
                op) m
       (out ++ [pads_warning])).
Proof.
  intros Hg Hb Hp op. subst op.
  pose proof (guard_passes nb sb Hb) as Hguard.
  generate_prefix 3 Hguard us.
  all: (erewrite average_pads_3d by (try reflexivity; exact Hp)); generate_suffix g nbb.
Qed.

(** With one spatial axis and vectors sized for it, [Generate] reaches
    [fAttrDilations[ih]] with [ih = 1]: out of range. *)
Lemma Generate_1d ap d0 g k0 opd os pads s0 nx nw nb nbb ny x0 x1 x2
    w0 w1 w2 sb y0 y1 y2 ty us (m : RModel) out name :
  (nb <> "" -> sb <> []) ->
  Generate name
    (mkWorld (mkOp ap [d0] g [k0] opd os pads [s0] nx nw nb nbb ny
                [x0; x1; x2] [w0; w1; w2] sb [y0; y1; y2] ty 1 us) m out) = Undefined.
Proof.
  intros Hb.
  pose proof (guard_passes nb sb Hb) as Hguard.
  generate_prefix 1 Hguard us.
  all: reflexivity.
Qed.


(** With the pads of the two sides equal on every axis nothing is printed
    and nothing is stored. *)
Lemma average_pads_2d_symmetric (op : Op) (m : RModel) (out : list string) (p0 p1 : Z) :
  fDim op = 2 -> fAttrPads op = [p0; p1; p0; p1] ->
  average_pads (mkWorld op m out) = Ok tt (mkWorld op m out).
Proof.
  destruct op; simpl. intros -> ->.
  pads_run. rewrite !Z.eqb_refl. pads_run. reflexivity.
Qed.

Lemma average_pads_3d_symmetric (op : Op) (m : RModel) (out : list string) (p0 p1 p2 : Z) :
  fDim op = 3 -> fAttrPads op = [p0; p1; p2; p0; p1; p2] ->
  average_pads (mkWorld op m out) = Ok tt (mkWorld op m out).
Proof.
  destruct op; simpl. intros -> ->.
  pads_run. rewrite !Z.eqb_refl. pads_run. reflexivity.
Qed.

Lemma Generate_2d_symmetric ap d0 d1 g k0 k1 opd os p0 p1 s0 s1 nx nw nb nbb ny x0 x1 x2 x3
    w0 w1 w2 w3 sb y0 y1 y2 y3 ty us (m : RModel) out name :
  g <> 0 -> (nb <> "" -> sb <> []) ->
  let op := mkOp ap [d0; d1] g [k0; k1] opd os [p0; p1; p0; p1] [s0; s1] nx nw nb nbb ny
              [x0; x1; x2; x3] [w0; w1; w2; w3] sb [y0; y1; y2; y3] ty 2 us in
  produces (Generate name (mkWorld op m out)) (mkWorld op m out).
Proof.
  intros Hg Hb op. subst op.
  pose proof (guard_passes nb sb Hb) as Hguard.
  generate_prefix 2 Hguard us.
  all: (erewrite average_pads_2d_symmetric by reflexivity); generate_suffix g nbb.
Qed.

Lemma Generate_3d_symmetric ap d0 d1 d2 g k0 k1 k2 opd os p0 p1 p2 s0 s1 s2 nx nw nb nbb ny
    x0 x1 x2 x3 x4 w0 w1 w2 w3 w4 sb y0 y1 y2 y3 y4 ty us (m : RModel) out name :
  g <> 0 -> (nb <> "" -> sb <> []) ->
  let op := mkOp ap [d0; d1; d2] g [k0; k1; k2] opd os [p0; p1; p2; p0; p1; p2] [s0; s1; s2]
              nx nw nb nbb ny [x0; x1; x2; x3; x4] [w0; w1; w2; w3; w4] sb
              [y0; y1; y2; y3; y4] ty 3 us in
  produces (Generate name (mkWorld op m out)) (mkWorld op m out).
Proof.
  intros Hg Hb op. subst op.
  pose proof (guard_passes nb sb Hb) as Hguard.
  generate_prefix 3 Hguard us.
  all: (erewrite average_pads_3d_symmetric by reflexivity); generate_suffix g nbb.
Qed.


(** [Generate] returns on every operator initialised for two or three axes;
    it stores nothing but pads and leaves the model alone. *)
Lemma Generate_total (n : nat) (op : Op) (m : RModel) (out : list string) (name : string) :
  n = 2%nat \/ n = 3%nat ->
  initialized n op ->
  exists code op' out',
    Generate name (mkWorld op m out) = Ok code (mkWorld op' m out') /\
    initialized n op' /\
    op' = set_fAttrPads (fAttrPads op') op /\
    (asymmetric n (fAttrPads op) -> out' = out ++ [pads_warning]) /\
    (~ asymmetric n (fAttrPads op) -> out' = out /\ op' = op).
Proof.
  intros Hn (Hdim & HX & HW & HY & HB & HS & HD & HK & HP & HG).
  destruct op as [ap dil g ker opd os pads str nx nw nb nbb ny sx sw sb sy ty dim us].
  simpl in *. subst dim.
  destruct Hn as [-> | ->]; simpl in *.
  - destruct dil as [|d0 [|d1 [|? ?]]]; try discriminate HD.
    destruct ker as [|k0 [|k1 [|? ?]]]; try discriminate HK.
    destruct str as [|s0 [|s1 [|? ?]]]; try discriminate HS.
    destruct pads as [|p0 [|p1 [|p2 [|p3 [|? ?]]]]]; try discriminate HP.
    destruct sx as [|x0 [|x1 [|x2 [|x3 [|? ?]]]]]; try discriminate HX.
    destruct sw as [|w0 [|w1 [|w2 [|w3 [|? ?]]]]]; try discriminate HW.
    destruct sy as [|y0 [|y1 [|y2 [|y3 [|? ?]]]]]; try discriminate HY.
    destruct (Z.eq_dec p0 p2) as [E0|N0]; [destruct (Z.eq_dec p1 p3) as [E1|N1]|].
    + subst p2 p3.
      destruct (Generate_2d_symmetric ap d0 d1 g k0 k1 opd os p0 p1 s0 s1 nx nw nb nbb ny
                  x0 x1 x2 x3 w0 w1 w2 w3 sb y0 y1 y2 y3 ty us m out name HG HB) as (code & Hc).
      eexists _, _, _. split; [exact Hc|]. split; [repeat split; auto|].
      split; [reflexivity|]. split; [|auto].
      intros (i & Hi & Hne). exfalso. destruct i as [|[|i]]; simpl in Hne; [| | lia]; congruence.
    + destruct (Generate_2d ap d0 d1 g k0 k1 opd os p0 p1 p2 p3 s0 s1 nx nw nb nbb ny
                  x0 x1 x2 x3 w0 w1 w2 w3 sb y0 y1 y2 y3 ty us m out name HG HB (or_intror N1))
        as (code & Hc).
      eexists _, _, _. split; [exact Hc|]. split; [repeat split; auto|].
      split; [reflexivity|]. split; [auto|].
      intros Hs. exfalso. apply Hs. exists 1%nat. split; [lia|]. simpl. congruence.
    + destruct (Generate_2d ap d0 d1 g k0 k1 opd os p0 p1 p2 p3 s0 s1 nx nw nb nbb ny
                  x0 x1 x2 x3 w0 w1 w2 w3 sb y0 y1 y2 y3 ty us m out name HG HB (or_introl N0))
        as (code & Hc).
      eexists _, _, _. split; [exact Hc|]. split; [repeat split; auto|].
      split; [reflexivity|]. split; [auto|].
      intros Hs. exfalso. apply Hs. exists 0%nat. split; [lia|]. simpl. congruence.
  - destruct dil as [|d0 [|d1 [|d2 [|? ?]]]]; try discriminate HD.
    destruct ker as [|k0 [|k1 [|k2 [|? ?]]]]; try discriminate HK.
    destruct str as [|s0 [|s1 [|s2 [|? ?]]]]; try discriminate HS.
    destruct pads as [|p0 [|p1 [|p2 [|p3 [|p4 [|p5 [|? ?]]]]]]]; try discriminate HP.
    destruct sx as [|x0 [|x1 [|x2 [|x3 [|x4 [|? ?]]]]]]; try discriminate HX.
    destruct sw as [|w0 [|w1 [|w2 [|w3 [|w4 [|? ?]]]]]]; try discriminate HW.
    destruct sy as [|y0 [|y1 [|y2 [|y3 [|y4 [|? ?]]]]]]; try discriminate HY.
    destruct (Z.eq_dec p0 p3) as [E0|N0];
      [destruct (Z.eq_dec p1 p4) as [E1|N1]; [destruct (Z.eq_dec p2 p5) as [E2|N2]|]|].
    + subst p3 p4 p5.
      destruct (Generate_3d_symmetric ap d0 d1 d2 g k0 k1 k2 opd os p0 p1 p2 s0 s1 s2 nx nw nb
                  nbb ny x0 x1 x2 x3 x4 w0 w1 w2 w3 w4 sb y0 y1 y2 y3 y4 ty us m out name HG HB)
        as (code & Hc).
      eexists _, _, _. split; [exact Hc|]. split; [repeat split; auto|].
      split; [reflexivity|]. split; [|auto].
      intros (i & Hi & Hne). exfalso.
      destruct i as [|[|[|i]]]; simpl in Hne; [| | | lia]; congruence.
    + destruct (Generate_3d ap d0 d1 d2 g k0 k1 k2 opd os p0 p1 p2 p3 p4 p5 s0 s1 s2 nx nw nb
                  nbb ny x0 x1 x2 x3 x4 w0 w1 w2 w3 w4 sb y0 y1 y2 y3 y4 ty us m out name HG HB
                  (or_intror (or_intror N2))) as (code & Hc).
      eexists _, _, _. split; [exact Hc|]. split; [repeat split; auto|].
      split; [reflexivity|]. split; [auto|].
      intros Hs. exfalso. apply Hs. exists 2%nat. split; [lia|]. simpl. congruence.
    + destruct (Generate_3d ap d0 d1 d2 g k0 k1 k2 opd os p0 p1 p2 p3 p4 p5 s0 s1 s2 nx nw nb
                  nbb ny x0 x1 x2 x3 x4 w0 w1 w2 w3 w4 sb y0 y1 y2 y3 y4 ty us m out name HG HB
                  (or_intror (or_introl N1))) as (code & Hc).
      eexists _, _, _. split; [exact Hc|]. split; [repeat split; auto|].
      split; [reflexivity|]. split; [auto|].
      intros Hs. exfalso. apply Hs. exists 1%nat. split; [lia|]. simpl. congruence.
    + destruct (Generate_3d ap d0 d1 d2 g k0 k1 k2 opd os p0 p1 p2 p3 p4 p5 s0 s1 s2 nx nw nb
                  nbb ny x0 x1 x2 x3 x4 w0 w1 w2 w3 w4 sb y0 y1 y2 y3 y4 ty us m out name HG HB
                  (or_introl N0)) as (code & Hc).
      eexists _, _, _. split; [exact Hc|]. split; [repeat split; auto|].
      split; [reflexivity|]. split; [auto|].
      intros Hs. exfalso. apply Hs. exists 0%nat. split; [lia|]. simpl. congruence.
Qed.

End WithModel.

End GenerateFacts.

(** ** RooJohnson *)

Module RooJohnsonFacts.
Import RooFit CxxFacts JohnsonExamples.

Section WithDouble.
Context {D RooArgSet : Type} `{!Double D} `{!RooFitEnv}.
Variable matchArgs : RooArgSet -> RooRealProxy D -> M RooArgSet bool.

(** Below the threshold [evaluate] answers the literal [0.], in every
    arithmetic. *)
Lemma evaluate_below_threshold (self : RooJohnson D) :
  dlt (val (_mass self)) (_massThreshold self) = true -> evaluate self = lit_0.
Proof. intros E. unfold evaluate. rewrite E. reflexivity. Qed.

Lemma generateEvent_other_code (fuel : nat) (code : Z) (s : Sampling D) :
  code <> 1 ->
  generateEvent fuel code s =
  Some (Throw "Generation in other variables not yet implemented." s).
Proof.
  intros Hc. unfold generateEvent. destruct (Z.eqb_spec code 1); [contradiction | reflexivity].
Qed.

Lemma generate_mass_inv (fuel : nat) : forall (s : Sampling D) r,
  generate_mass fuel s = Some r ->
  exists mass g, r = Ok tt (mkSampling (assign_mass mass (pdf s)) g) /\ acceptable (pdf s) mass.
Proof.
  induction fuel as [|fuel IH]; intros s r; simpl; [discriminate|].
  destruct (_ && _) eqn:E.
  - intros [= <-]. apply andb_true_iff in E as [E E3]. apply andb_true_iff in E as [E1 E2].
    eexists _, _. split; [reflexivity|]. repeat split; assumption.
  - intros Hg. apply IH in Hg as (mass & g & -> & Hacc). simpl in *. eauto.
Qed.

Lemma generate_mass_S (fuel : nat) (s : Sampling D) :
  generate_mass (S fuel) s =
  let mass := candidate (pdf s) (randomGenerator s 0%nat) in
  let rest := fun n => randomGenerator s (S n) in
  if dle (min (_mass (pdf s)) None) mass && dle mass (max (_mass (pdf s)) None)
     && dle (_massThreshold (pdf s)) mass
  then Some (Ok tt (mkSampling (assign_mass mass (pdf s)) rest))
  else generate_mass fuel (mkSampling (pdf s) rest).
Proof. reflexivity. Qed.

Lemma generate_mass_returns (k : nat) : forall (s : Sampling D),
  acceptable (pdf s) (candidate (pdf s) (randomGenerator s k)) ->
  exists s', generate_mass (S k) s = Some (Ok tt s').
Proof.
  induction k as [|k IH]; intros s (A1 & A2 & A3); rewrite generate_mass_S; cbv zeta.
  - rewrite A1, A2, A3. simpl. eauto.
  - destruct (_ && _); [eauto|]. apply IH. simpl. repeat split; assumption.
Qed.

Lemma analyticalIntegral_advertised (code : Z) (rangeName : option string) (self : RooJohnson D) :
  consecutive -> advertised code ->
  exists v, analyticalIntegral code rangeName self = Ok v self.
Proof.
  intros (E1 & E2 & E3 & E4) Hadv. unfold analyticalIntegral, assert.
  destruct (Z.leb_spec kMass code); destruct (Z.leb_spec code kLambda);
  destruct (Z.eqb_spec code kMass); destruct (Z.eqb_spec code kMean);
  destruct (Z.eqb_spec code kLambda); destruct (Z.eqb_spec code kGamma);
  destruct (Z.eqb_spec code kDelta); destruct NDEBUG;
    try (exfalso; unfold advertised in Hadv; lia);
    eexists; reflexivity.
Qed.

Lemma analyticalIntegral_other_code (code : Z) (rangeName : option string) (self : RooJohnson D) :
  consecutive -> ~ advertised code -> NDEBUG = false ->
  analyticalIntegral code rangeName self = Abort "Assertion failed: false".
Proof.
  intros (E1 & E2 & E3 & E4) Hadv HN. unfold analyticalIntegral, assert. rewrite HN.
  destruct (Z.leb_spec kMass code); destruct (Z.leb_spec code kLambda);
  destruct (Z.eqb_spec code kMass); destruct (Z.eqb_spec code kMean);
  destruct (Z.eqb_spec code kLambda); destruct (Z.eqb_spec code kGamma);
  destruct (Z.eqb_spec code kDelta);
    try (exfalso; unfold advertised in Hadv; lia);
    reflexivity.
Qed.

Lemma getGenerator_codes (self : RooJohnson D) (directVars generateVars generateVars' : RooArgSet)
    (c : Z) :
  getGenerator matchArgs self directVars generateVars = Ok c generateVars' -> c = 0 \/ c = 1.
Proof.
  unfold getGenerator. rewrite bind_eq.
  destruct (matchArgs directVars (_mass self) generateVars) as [[|] s| | |]; try discriminate.
  - intros [= <- _]. right; reflexivity.
  - intros [= <- _]. left; reflexivity.
Qed.

Lemma analyticalIntegral_release (code : Z) (rangeName : option string) (self : RooJohnson D) :
  NDEBUG = true -> exists v, analyticalIntegral code rangeName self = Ok v self.
Proof.
  intros HN. unfold analyticalIntegral, assert. rewrite HN.
  destruct (_ && _); destruct (code =? kMass); destruct (code =? kMean);
  destruct (code =? kGamma); destruct (code =? kDelta); eexists; reflexivity.
Qed.

End WithDouble.

Lemma ltb_true (a b : R) : Exact.ltb a b = true <-> (a < b)%R.
Proof. unfold Exact.ltb. destruct (Rlt_dec a b); split; intros; try discriminate; tauto. Qed.

Lemma leb_true (a b : R) : Exact.leb a b = true <-> (a <= b)%R.
Proof. unfold Exact.leb. destruct (Rle_dec a b); split; intros; try discriminate; tauto. Qed.

Lemma sampling_zero_candidate : candidate johnson_unit 0%R = 0%R.
Proof.
  unfold candidate. simpl. replace ((0 - 0) / 1)%R with 0%R by field.
  rewrite sinh_0. ring.
Qed.

End RooJohnsonFacts.


(** ** More about [ShapeInference] *)

Module ShapeInferenceMore.
Import SOFIE CxxFacts ShapeInferenceFacts Exec ShapeInferenceTotal.

(** An invariant that follows the loop counter. *)
Lemma for_from_inv_at {S A} (I : Z -> A -> S -> Prop) (body : Z -> A -> M S A) :
  forall (k : nat) (i : Z) (acc : A) (s : S) (acc' : A) (s' : S),
    (forall j a t a' t', i <= j < i + Z.of_nat k -> I j a t -> body j a t = Ok a' t' ->
                         I (j + 1) a' t') ->
    I i acc s ->
    for_from k i body acc s = Ok acc' s' ->
    I (i + Z.of_nat k) acc' s'.
Proof.
  induction k as [|k IH]; intros i acc s acc' s' Hbody HI Hrun; simpl in Hrun.
  - injection Hrun as <- <-. replace (i + Z.of_nat 0) with i by lia. exact HI.
  - apply bind_ok_inv in Hrun as (a & s1 & Hstep & Hrest).
    replace (i + Z.of_nat (Datatypes.S k)) with (i + 1 + Z.of_nat k) by lia.
    apply (IH (i + 1) a s1 acc' s'); [| |exact Hrest].
    + intros j b t b' t' Hj. apply Hbody. lia.
    + apply (Hbody i acc s a s1); [lia | exact HI | exact Hstep].
Qed.

(** The last loop of [ShapeInference] copies the output-shape attribute
    behind the first two entries and leaves these alone. *)
Lemma copy_output_shape_entries (outShape out : list Z) (s s' : Op) :
  0 <= fDim s -> fDim s + 2 <= max_size ->
  copy_output_shape outShape s = Ok out s' ->
  s' = s /\ length out = length outShape /\
  out !! 0%nat = outShape !! 0%nat /\ out !! 1%nat = outShape !! 1%nat /\
  forall i : nat, (Z.of_nat i < fDim s) ->
    is_Some (fAttrOutputShape s !! i) /\ out !! (i + 2)%nat = fAttrOutputShape s !! i.
Proof.
  unfold copy_output_shape, for_. intros Hd Hmax H. inv_gets H.
  apply (for_from_inv_at
           (fun j acc t => t = s /\ length acc = length outShape /\
              acc !! 0%nat = outShape !! 0%nat /\ acc !! 1%nat = outShape !! 1%nat /\
              forall i : nat, Z.of_nat i < j ->
                is_Some (fAttrOutputShape s !! i) /\
                acc !! (i + 2)%nat = fAttrOutputShape s !! i)) in H.
  - rewrite Z.add_0_l, Z2Nat.id in H by exact Hd. exact H.
  - intros j acc t acc' t' Hj (-> & Hlen & H0 & H1 & Hcopied) Hstep.
    rewrite Z2Nat.id in Hj by exact Hd.
    inv_rd Hstep. apply store_ok_inv in Hstep as (Hin & -> & ->).
    assert ((j + 2)%sz = j + 2) as Ej.
    { unfold sz_add. apply wrap_small. unfold max_size in Hmax. lia. }
    rewrite Ej in *.
    split; [reflexivity|]. split; [rewrite length_insert; exact Hlen|].
    split; [rewrite list_lookup_insert_ne by lia; exact H0|].
    split; [rewrite list_lookup_insert_ne by lia; exact H1|].
    intros q Hq. destruct (Z.eq_dec (Z.of_nat q) j) as [E|E].
    + subst j. rewrite Nat2Z.id in *. split; [eauto|].
      replace (Z.to_nat (Z.of_nat q + 2)) with (q + 2)%nat in * by lia.
      rewrite list_lookup_insert_eq by lia. symmetry. assumption.
    + rewrite list_lookup_insert_ne by lia. apply Hcopied. lia.
  - repeat split; try reflexivity; lia.
Qed.

(** The pads [ShapeInference] computes when none are given. *)
Lemma default_pads_entries (s : Op) (n : nat) :
  (1 <= n <= 3)%nat -> fDim s = Z.of_nat n -> fAttrPads s = [] ->
  length (fShapeX s) = (n + 2)%nat -> length (fAttrStrides s) = n ->
  length (fAttrOutputShape s) = n ->
  length (fAttrKernelShape s) = n -> length (fAttrOutputPadding s) = n ->
  exists v, default_pads s = Ok tt (set_fAttrPads v s) /\ length v = (2 * n)%nat /\
    forall i st o p k x,
      fAttrStrides s !! i = Some st -> fAttrOutputShape s !! i = Some o ->
      fAttrOutputPadding s !! i = Some p -> fAttrKernelShape s !! i = Some k ->
      fShapeX s !! (i + 2)%nat = Some x ->
      let t := (st * (o - 1) + p + k - x)%sz in
      v !! i = Some (if String.eqb (fAttrAutopad s) "SAME_UPPER" then t / 2 else (t - t / 2)%sz) /\
      v !! (i + n)%nat =
        Some (if String.eqb (fAttrAutopad s) "SAME_UPPER" then (t - t / 2)%sz else t / 2).
Proof.
  intros Hn Hd HA HX HS HO HK HP. by_rank n; destruct s; simpl in *; subst; explode.
  all: unfold default_pads; run_straight.
  all: run_loop; run_straight.
  all: match goal with |- context [String.eqb ?a ?b] => destruct (String.eqb a b) end; run.
  all: eexists; split; [reflexivity|]; split; [reflexivity|].
  all: intros i st o p k x Hs Ho Hp Hk Hx.
  all: repeat (destruct i as [|i]; simpl in *; [split; congruence|]); discriminate.
Qed.

(** Halving a [size_t] and taking the rest. *)
Lemma half_split (t : Z) :
  0 <= t < 2 ^ 64 ->
  t / 2 + (t - t / 2)%sz = t /\ 0 <= (t - t / 2)%sz - t / 2 <= 1.
Proof.
  intros Ht. unfold sz_sub. rewrite wrap_small.
  - pose proof (Z.div_mod t 2 ltac:(lia)). pose proof (Z.mod_pos_bound t 2 ltac:(lia)). lia.
  - pose proof (Z.div_mod t 2 ltac:(lia)). pose proof (Z.mod_pos_bound t 2 ltac:(lia)). lia.
Qed.

(** A run of [ShapeInference] that returns, seen from its last loop. *)
Lemma ShapeInference_run_last (input : list (list Z)) (s : Op) (ret : list (list Z)) (s' : Op) :
  ShapeInference_run input s ret s' ->
  exists inputShape weightShape n c out,
    input !! 0%nat = Some inputShape /\ input !! 1%nat = Some weightShape /\
    Z.of_nat (length inputShape) <= max_size /\ (1 < length inputShape)%nat /\
    inputShape !! 0%nat = Some n /\ weightShape !! 1%nat = Some c /\
    fDim s' = Z.of_nat (length inputShape - 2) /\ fAttrGroup s' <> 0 /\
    copy_output_shape (outShape_head inputShape n c (fAttrGroup s')) s' = Ok out s' /\
    ret = [out].
Proof.
  intros H.
  pose proof (ShapeInference_run_frame _ _ _ _ H) as
    (inputShape' & vS & vD & vK & vP & vO & vA & Hi' & Hs' & _).
  destruct H as (inputShape & weightShape & n & c & s1 & s2 & s3 & s4 & s5 & s6 & out &
          Hi & Hw & H1 & H2 & H3 & H4 & Hmax & Hn & Hc & Hlen & H5 & H6 & H7 & ->).
  rewrite Hi in Hi'. injection Hi' as <-.
  assert (fDim (started inputShape s) = Z.of_nat (length inputShape - 2)) as Ed.
  { rewrite started_fDim. unfold sz_sub. rewrite wrap_small; [lia|].
    unfold max_size in Hmax. lia. }
  assert (0 <= fDim (started inputShape s) < 2 ^ 64) as Hd.
  { rewrite Ed. unfold max_size in Hmax. lia. }
  apply default_strides_inv in H1 as (? & -> & _); [|lia].
  apply default_dilations_inv in H2 as (? & -> & _); [|simpl; lia].
  apply default_kernel_shape_inv in H3 as (? & -> & _); [|simpl; lia].
  apply default_output_padding_inv in H4 as (? & -> & _); [|simpl; lia].
  apply default_output_shape_inv in H5 as (? & -> & _); [|simpl; lia].
  apply default_pads_inv in H6 as (? & -> & _); [|simpl; lia].
  pose proof H7 as H7'.
  apply copy_output_shape_inv in H7' as (E & _); [|simpl; lia].
  clear Hs'. subst s'.
  exists inputShape, weightShape, n, c, out.
  repeat (split; [assumption|]).
  split; [simpl; apply Z.eqb_neq, started_group_nonzero|].
  split; [exact H7 | reflexivity].
Qed.

(** An output shape that was given is still there after the run. *)
Lemma output_shape_kept (input : list (list Z)) (s : Op) (ret : list (list Z)) (s' : Op) :
  ShapeInference_run input s ret s' ->
  fAttrOutputShape s <> [] -> fAttrOutputShape s' = fAttrOutputShape s.
Proof.
  intros (inputShape & weightShape & n & c & s1 & s2 & s3 & s4 & s5 & s6 & out &
          Hi & Hw & H1 & H2 & H3 & H4 & Hmax & Hn & Hc & Hlen & H5 & H6 & H7 & ->) N.
  assert (0 <= fDim (started inputShape s) < 2 ^ 64) as Hd.
  { unfold started. destruct (fAttrGroup s =? 0); simpl; apply wrap_range. }
  pose proof H5 as K5.
  apply default_strides_inv in H1 as (vS & -> & _); [|lia].
  apply default_dilations_inv in H2 as (vD & -> & _); [|simpl; lia].
  apply default_kernel_shape_inv in H3 as (vK & -> & _); [|simpl; lia].
  apply default_output_padding_inv in H4 as (vP & -> & _); [|simpl; lia].
  apply default_output_shape_inv in H5 as (vO & -> & _); [|simpl; lia].
  apply default_pads_inv in H6 as (vA & -> & _); [|simpl; lia].
  apply copy_output_shape_inv in H7 as (-> & _); [|simpl; lia].
  assert (fAttrOutputShape (started inputShape s) = fAttrOutputShape s) as Est.
  { unfold started. destruct (fAttrGroup s =? 0); reflexivity. }
  rewrite default_output_shape_settled in K5 by (left; simpl; rewrite Est; exact N).
  injection K5. intros K. simpl in *. rewrite <- Est. congruence.
Qed.

End ShapeInferenceMore.


(** ** [GenerateSessionMembersCode] *)

Module SessionFacts.
Import SOFIE CxxFacts ShapeInferenceFacts.

(** The loop of [GenerateSessionMembersCode] multiplies up the entries it
    walks over and leaves the operator alone. *)
Lemma session_loop (op : Op) (m : nat) : forall (i o k : Z) (ys ks : list Z),
  0 <= i -> i + Z.of_nat m + 2 <= 2 ^ 64 ->
  length ys = m -> length ks = m ->
  (forall j y, ys !! j = Some y -> fShapeY op !! (Z.to_nat i + 2 + j)%nat = Some y) ->
  (forall j x, ks !! j = Some x -> fAttrKernelShape op !! (Z.to_nat i + j)%nat = Some x) ->
  for_from m i (fun i '(outputChannelSize, kernelSize) =>
      y ← rd fShapeY (2 + i)%sz;
      k ← rd fAttrKernelShape i;
      ret ((outputChannelSize * y)%sz, (kernelSize * k)%sz)) (o, k) op
  = Ok (volume o ys, volume k ks) op.
Proof.
  induction m as [|m IH]; intros i o k ys ks Hi Hb Ly Lk Hy Hk.
  - destruct ys; [|discriminate]. destruct ks; [|discriminate]. reflexivity.
  - destruct ys as [|y ys]; [discriminate|]. destruct ks as [|x ks]; [discriminate|].
    simpl in Ly, Lk. cbn [for_from].
    assert ((2 + i)%sz = 2 + i) as E by (unfold sz_add; apply wrap_small; lia).
    erewrite bind_ok; cycle 1.
    { erewrite bind_ok; [|apply rd_ok].
      - erewrite bind_ok; [|apply rd_ok].
        + apply ret_eq.
        + specialize (Hk 0%nat x eq_refl). rewrite Nat.add_0_r in Hk. exact Hk.
      - rewrite E. specialize (Hy 0%nat y eq_refl).
        replace (Z.to_nat (2 + i)) with (Z.to_nat i + 2 + 0)%nat by lia. exact Hy. }
    rewrite (IH (i + 1) (o * y)%sz (k * x)%sz ys ks); try lia.
    + reflexivity.
    + intros j y' Hj. specialize (Hy (Datatypes.S j) y' Hj).
      replace (Z.to_nat (i + 1) + 2 + j)%nat with (Z.to_nat i + 2 + Datatypes.S j)%nat by lia.
      exact Hy.
    + intros j x' Hj. specialize (Hk (Datatypes.S j) x' Hj).
      replace (Z.to_nat (i + 1) + j)%nat with (Z.to_nat i + Datatypes.S j)%nat by lia.
      exact Hk.
Qed.

Lemma append_assoc (a b c : string) : (a +:+ b) +:+ c = a +:+ (b +:+ c).
Proof.
  induction a as [|x a IH]; [reflexivity|].
  change (String x ((a +:+ b) +:+ c) = String x (a +:+ (b +:+ c))). rewrite IH. reflexivity.
Qed.

End SessionFacts.


(** ** What a returning [Initialize] has done *)

Module InitializeInversion.
Import SOFIE CxxFacts ShapeInferenceFacts Exec ShapeInferenceTotal.

Section WithModel.
Context {RModel ETensorType TensorData : Type} `{!Env RModel ETensorType TensorData}.

Lemma zoom_ok_inv {S T A} (proj : T -> S) (inj : S -> T -> T) (m : M S A) (t t' : T) (a : A) :
  zoom proj inj m t = Ok a t' -> exists s', m (proj t) = Ok a s' /\ t' = inj s' t.
Proof.
  unfold zoom. destruct (m (proj t)) as [a0 s0| | |]; try discriminate.
  intros [= <- <-]. eauto.
Qed.

Lemma this_ok_inv {A} (m : M Op A) (w w' : World RModel) (a : A) :
  this m w = Ok a w' ->
  exists s', m (self w) = Ok a s' /\ w' = mkWorld s' (model w) (cout w).
Proof. intros H. apply zoom_ok_inv in H as (s' & H & ->). eauto. Qed.

Lemma on_model_ok_inv {A} (m : M RModel A) (w w' : World RModel) (a : A) :
  on_model m w = Ok a w' ->
  exists m', m (model w) = Ok a m' /\ w' = mkWorld (self w) m' (cout w).
Proof. intros H. apply zoom_ok_inv in H as (s' & H & ->). eauto. Qed.

Lemma guard_ok_inv {S} (b : bool) (m : M S unit) (s s' : S) (u : unit) :
  (forall u' t, m s <> Ok u' t) -> when_ b m s = Ok u s' -> b = false /\ s' = s.
Proof.
  intros Hm H. apply when_ok_inv in H as [[_ H]|H]; [exfalso; exact (Hm _ _ H) | exact H].
Qed.

Lemma throw_not_ok {S A} (what : string) (s : S) (a : A) (t : S) : throw what s <> Ok a t.
Proof. discriminate. Qed.

Lemma print_throw_not_ok (line what : string) (w : World RModel) (u : unit) (t : World RModel) :
  (print line;; throw what) w <> Ok u t.
Proof. discriminate. Qed.

Ltac tidy H := cbv beta in H; cbn [self model cout] in H.
Ltac inv_this H :=
  inv_bind_then H ltac:(fun E => apply this_ok_inv in E as (? & E & ->)); tidy H.
Ltac inv_model H :=
  inv_bind_then H ltac:(fun E => apply on_model_ok_inv in E as (? & E & ->)); tidy H.
Ltac inv_guard H :=
  inv_bind_then H ltac:(fun E =>
    apply guard_ok_inv in E as (E & ->);
    [| intros; first [apply throw_not_ok | apply print_throw_not_ok]]); tidy H.

(** What a call of [Initialize] that returns has done, when no bias is
    named. *)
Lemma Initialize_ok_inv (w w' : World RModel) :
  fNB (self w) = "" ->
  Initialize w = Ok tt w' ->
  exists shapeX shapeW shapeY op1 m1 m2,
    GetTensorShape (fNX (self w)) (model w) = Ok shapeX m1 /\
    GetTensorShape (fNW (self w)) m1 = Ok shapeW m2 /\
    (3 <= length shapeX <= 5)%nat /\ (3 <= length shapeW <= 5)%nat /\
    ShapeInference [shapeX; shapeW]
      (set_fShapeW shapeW (set_fDim (Z.of_nat (length shapeX) - 2)%sz
         (set_fShapeX shapeX (set_fUseSession (UseSession (model w)) (self w)))))
      = Ok [shapeY] op1 /\
    self w' = set_fShapeY shapeY op1 /\
    cout w' = cout w.
Proof.
  intros ENB H. unfold Initialize in H.
  inv_model H. apply gets_ok_inv in E as (-> & ->); tidy H.
  inv_this H. apply modify_ok_inv in E as ->; tidy H.
  inv_this H. apply gets_ok_inv in E as (-> & ->); tidy H.
  inv_model H. apply gets_ok_inv in E as (-> & ->); tidy H.
  inv_guard H.
  apply bind_ok_inv in H as (shapeX & wX & HX & H).
  apply on_model_ok_inv in HX as (mX & HX & ->); tidy H.
  inv_this H. apply modify_ok_inv in E0 as ->; tidy H.
  inv_guard H. rename E0 into RX.
  inv_this H. apply modify_ok_inv in E0 as ->; tidy H.
  inv_this H. apply gets_ok_inv in E0 as (-> & ->); tidy H.
  inv_model H. apply gets_ok_inv in E0 as (-> & ->); tidy H.
  inv_guard H.
  apply bind_ok_inv in H as (shapeW & wW & HW & H).
  apply on_model_ok_inv in HW as (mW & HW & ->); tidy H.
  inv_this H. apply modify_ok_inv in E1 as ->; tidy H.
  inv_guard H. rename E1 into RW.
  inv_bind_then H ltac:(fun E => apply this_ok_inv in E as (op1 & HSI & ->)); tidy H.
  inv_bind_then H ltac:(fun E => apply at_ok_inv in E as (Hat & ->)); tidy H.
  inv_this H. apply modify_ok_inv in E1 as ->; tidy H.
  inv_this H. apply gets_ok_inv in E1 as (-> & ->); tidy H.
  inv_model H. inv_model H.
  inv_this H. apply gets_ok_inv in E3 as (-> & ->); tidy H.
  pose proof (ShapeInference_ok_inv _ _ _ _ HSI) as Hrun.
  pose proof (ShapeInference_run_frame _ _ _ _ Hrun)
    as (iS & vS & vD & vK & vP & vO & vA & _ & Hfr & _).
  assert (fNB op1 = "") as ENB'.
  { rewrite Hfr. unfold started. destruct (_ =? 0); simpl; exact ENB. }
  simpl in H. rewrite ENB' in H. simpl in H. apply ret_ok_inv in H as (_ & ->).
  destruct Hrun as (? & ? & ? & ? & ? & ? & ? & ? & ? & ? & out & _ & _ & _ & _ & _ & _ & _ &
                    _ & _ & _ & _ & _ & _ & ->).
  simpl in Hat. injection Hat as <-.
  apply orb_false_iff in RX as (RX1 & RX2). apply orb_false_iff in RW as (RW1 & RW2).
  apply Z.ltb_ge in RX1, RX2, RW1, RW2.
  exists shapeX, shapeW, out, op1, mX, mW.
  split; [exact HX|]. split; [exact HW|].
  split; [lia|]. split; [lia|]. split; [exact HSI|]. split; reflexivity.
Qed.

(** The operator [Initialize] leaves behind is an initialised one, when the
    model gives the input and the weights one rank. *)
Lemma Initialize_initializes (w w' : World RModel) (n : nat) :
  fNB (self w) = "" ->
  (forall shapeX m1 shapeW m2,
     GetTensorShape (fNX (self w)) (model w) = Ok shapeX m1 ->
     GetTensorShape (fNW (self w)) m1 = Ok shapeW m2 ->
     length shapeX = (n + 2)%nat /\ length shapeW = (n + 2)%nat) ->
  Initialize w = Ok tt w' ->
  sized n (fAttrStrides (self w)) -> sized n (fAttrDilations (self w)) ->
  sized n (fAttrKernelShape (self w)) -> sized n (fAttrOutputPadding (self w)) ->
  sized n (fAttrOutputShape (self w)) ->
  fAttrPads (self w) = [] \/ length (fAttrPads (self w)) = (2 * n)%nat ->
  (1 <= n <= 3)%nat /\ initialized n (self w') /\ cout w' = cout w.
Proof.
  intros ENB Hshapes H.
  destruct (Initialize_ok_inv w w' ENB H)
    as (shapeX & shapeW & shapeY & op1 & m1 & m2 & HX & HW & RX & RW & HSI & Hself & Hcout).
  destruct (Hshapes shapeX m1 shapeW m2 HX HW) as (LX & LW).
  pose proof (ShapeInference_run_frame _ _ _ _ (ShapeInference_ok_inv _ _ _ _ HSI))
    as (iS & vS0 & vD0 & vK0 & vP0 & vO0 & vA0 & _ & Hfr & _).
  assert (fShapeX (self w') = shapeX) as EX'.
  { rewrite Hself, Hfr. unfold started. destruct (_ =? 0); reflexivity. }
  assert (fShapeW (self w') = shapeW) as EW'.
  { rewrite Hself, Hfr. unfold started. destruct (_ =? 0); reflexivity. }
  clear Hfr.
  intros HS HD HK HP HO HA.
  assert (1 <= n <= 3)%nat as Hn by lia.
  destruct (ShapeInference_total
              (set_fShapeW shapeW (set_fDim (Z.of_nat (length shapeX) - 2)%sz
                 (set_fShapeX shapeX (set_fUseSession (UseSession (model w)) (self w)))))
              shapeX shapeW n Hn LX ltac:(lia) LX ltac:(simpl; lia) HS HD HK HP HO HA)
    as (out & vS & vD & vK & vP & vO & vA & b & c & Hrun & ES & ED & EP & LK & _ & _ & LO &
        _ & _ & LA & _ & Lout & _).
  rewrite Hrun in HSI. injection HSI as <- <-.
  assert (forall (v : list Z) (d : Z),
            sized n v -> length (if empty v then replicate n d else v) = n) as Hlen.
  { intros v d [-> | Hv]; simpl; [apply length_replicate|].
    destruct v; [simpl in Hv; simpl; rewrite length_replicate; reflexivity | exact Hv]. }
  split; [exact Hn|]. split; [|exact Hcout].
  rewrite Hself. unfold initialized. simpl.
  split; [rewrite started_fDim; unfold sz_sub; simpl; rewrite wrap_small; lia|].
  assert (fAttrGroup (started shapeX
            (set_fShapeW shapeW (set_fDim (Z.of_nat (length shapeX) - 2)%sz
               (set_fShapeX shapeX (set_fUseSession (UseSession (model w)) (self w)))))) <> 0)
    as HG by (apply Z.eqb_neq, started_group_nonzero).
  unfold started in *. simpl in *.
  destruct (fAttrGroup (self w) =? 0) eqn:EG; simpl in *;
    (split; [exact LX|]); (split; [lia|]); (split; [exact Lout|]);
    (split; [intros N; congruence|]);
    subst vS vD vP; repeat split; auto.
Qed.

End WithModel.

(** [Initialize] checks the rank of the input and the rank of the weights
    against the bounds 3 and 5, and not against one another. With the input
    declared as (1,3,8) and the weights as (3,2,3,3) it returns, and the
    weight shape it has stored has one axis more than the input shape; with
    the input declared as (1,3,8,8), the weights as (3,2,3) and the kernel
    shape given it returns as well. *)
Lemma Initialize_compares_no_ranks :
  (exists w', Initialize MoreExamples.world_wide_weights = Ok tt w' /\
     fShapeX (self w') = [1; 3; 8] /\ fShapeW (self w') = [3; 2; 3; 3]) /\
  (exists w', Initialize MoreExamples.world_short_weights = Ok tt w' /\
     fShapeX (self w') = [1; 3; 8; 8] /\ fShapeW (self w') = [3; 2; 3]).
Proof.
  split; eexists; (split; [vm_compute; reflexivity|]); split; reflexivity.
Qed.

End InitializeInversion.


(** ** The complementary error function *)

Module ErfcFacts.
Import RooFit Exact.
Local Open Scope R_scope.

Lemma gauss_kernel_continuity : continuity gauss_kernel.
Proof. unfold gauss_kernel. reg. Qed.

Lemma gauss_kernel_pos (t : R) : 0 < gauss_kernel t.
Proof. apply exp_pos. Qed.

(** The integral of the kernel from 0 to [x]. *)
Lemma erfc_integral (x : R) :
  erfc x = 1 - 2 / sqrt PI * RiemannInt (gauss_kernel_integrable x).
Proof. reflexivity. Qed.

Lemma gauss_integrable (a b : R) : Riemann_integrable gauss_kernel a b.
Proof.
  destruct (Rle_dec a b) as [H|H].
  - apply continuity_implies_RiemannInt; [exact H | intros; apply gauss_kernel_continuity].
  - apply RiemannInt_P1, continuity_implies_RiemannInt;
      [lra | intros; apply gauss_kernel_continuity].
Qed.

Lemma gauss_split (a x : R) (pr : Riemann_integrable gauss_kernel a x) :
  RiemannInt (gauss_kernel_integrable x) = RiemannInt (gauss_kernel_integrable a) + RiemannInt pr.
Proof. symmetry. apply RiemannInt_P26. Qed.

Lemma gauss_primitive (x : R) :
  derivable_pt_lim (fun y => RiemannInt (gauss_kernel_integrable y)) x (gauss_kernel x).
Proof.
  assert (x - 1 <= x + 1) as h by lra.
  assert (forall t, x - 1 <= t <= x + 1 -> continuity_pt gauss_kernel t) as C0
    by (intros; apply gauss_kernel_continuity).
  pose proof (RiemannInt_P27 h C0 (x := x) ltac:(lra)) as HP.
  apply (derivable_pt_lim_locally_ext
           (fct_cte (RiemannInt (gauss_kernel_integrable (x - 1))) + primitive h (FTC_P1 h C0))%F
           _ x (x - 1) (x + 1)); [lra | |].
  - intros z Hz. unfold plus_fct, fct_cte, primitive.
    destruct (Rle_dec (x - 1) z) as [r|]; [|lra].
    destruct (Rle_dec z (x + 1)) as [r0|]; [|lra].
    symmetry. apply gauss_split.
  - replace (gauss_kernel x) with (0 + gauss_kernel x) by ring.
    apply derivable_pt_lim_plus; [apply derivable_pt_lim_const | exact HP].
Qed.

Lemma gauss_odd (x : R) :
  RiemannInt (gauss_kernel_integrable (- x)) = - RiemannInt (gauss_kernel_integrable x).
Proof.
  set (E := fun y => RiemannInt (gauss_kernel_integrable y)).
  set (G := fun y => E y + E (- y)).
  assert (forall y, derivable_pt_lim G y 0) as HG.
  { intros y. unfold G.
    replace 0 with (gauss_kernel y + gauss_kernel (- y) * -1).
    2:{ unfold gauss_kernel. replace (- y * - y) with (y * y) by ring. ring. }
    apply (derivable_pt_lim_plus E (fun y => E (- y))).
    - apply gauss_primitive.
    - apply (derivable_pt_lim_comp Ropp E).
      + apply (derivable_pt_lim_opp id y 1), derivable_pt_lim_id.
      + apply gauss_primitive. }
  assert (derivable G) as dG by (intros y; exists 0; apply HG).
  assert (constant G) as cG.
  { apply (null_derivative_1 G dG). intros y. apply derive_pt_eq_0, HG. }
  specialize (cG x 0). unfold G, E in cG. rewrite Ropp_0 in cG.
  rewrite (RiemannInt_P9 (gauss_kernel_integrable 0)) in cG. lra.
Qed.

Lemma erfc_opp (x : R) : erfc (- x) = 2 - erfc x.
Proof. unfold erfc. rewrite gauss_odd. ring. Qed.

Lemma erfc_0 : erfc 0 = 1.
Proof. unfold erfc. rewrite (RiemannInt_P9 (gauss_kernel_integrable 0)). ring. Qed.

Lemma gauss_increasing (x y : R) :
  x < y -> RiemannInt (gauss_kernel_integrable x) < RiemannInt (gauss_kernel_integrable y).
Proof.
  intros Hxy. rewrite (gauss_split x y (gauss_integrable x y)).
  set (M := Rmax (Rabs x) (Rabs y)).
  assert (Riemann_integrable (fct_cte (exp (- (M * M)))) x y) as prc.
  { apply continuity_implies_RiemannInt; [lra | intros; apply continuity_const; intros ? ?; reflexivity]. }
  assert (RiemannInt prc <= RiemannInt (gauss_integrable x y)) as Hle.
  { apply RiemannInt_P19; [lra|]. intros t Ht. unfold fct_cte, gauss_kernel.
    destruct (Rle_dec (- (M * M)) (- (t * t))) as [H|H].
    - destruct H as [H|H]; [left; apply exp_increasing; exact H | right; rewrite H; reflexivity].
    - exfalso. apply H.
      assert (Rabs t <= M) as Hb.
      { unfold M. unfold Rabs, Rmax. repeat destruct (Rcase_abs _); destruct (Rle_dec _ _); lra. }
      assert (0 <= Rabs t) by apply Rabs_pos.
      assert (t * t = Rabs t * Rabs t) as -> .
      { unfold Rabs. destruct (Rcase_abs t); ring. }
      nra. }
  rewrite RiemannInt_P15 in Hle.
  assert (0 < exp (- (M * M)) * (y - x)) by (apply Rmult_lt_0_compat; [apply exp_pos | lra]).
  lra.
Qed.

Lemma sqrt_PI_pos : 0 < sqrt PI.
Proof. apply sqrt_lt_R0, PI_RGT_0. Qed.

Lemma erfc_decreasing (x y : R) : x < y -> erfc y < erfc x.
Proof.
  intros Hxy. unfold erfc. pose proof (gauss_increasing x y Hxy).
  assert (0 < 2 / sqrt PI) by (apply Rdiv_lt_0_compat; [lra | apply sqrt_PI_pos]).
  nra.
Qed.

Lemma derivable_pt_lim_erfc (x : R) :
  derivable_pt_lim erfc x (- (2 / sqrt PI * gauss_kernel x)).
Proof.
  unfold erfc.
  apply (derivable_pt_lim_ext
           (fct_cte 1 - mult_real_fct (2 / sqrt PI)
              (fun y => RiemannInt (gauss_kernel_integrable y)))%F).
  { intros z. reflexivity. }
  replace (- (2 / sqrt PI * gauss_kernel x)) with (0 - 2 / sqrt PI * gauss_kernel x) by ring.
  apply derivable_pt_lim_minus; [apply derivable_pt_lim_const|].
  apply derivable_pt_lim_scal, gauss_primitive.
Qed.

End ErfcFacts.


(** ** The integral of the density over the mass *)

Module JohnsonIntegral.
Import RooFit CxxFacts RooJohnsonFacts Exact ErfcFacts.
Local Open Scope R_scope.

Section Curve.
Variables mu lam gam del : R.
Hypothesis lam_pos : 0 < lam.

Let arg (x : R) : R := (x - mu) / lam.
Let z (x : R) : R := gam + del * arcsinh (arg x).
Let cdf (x : R) : R := - / 2 * erfc (z x / sqrt 2).
Let pdf (x : R) : R :=
  del / sqrt (2 * PI) / (lam * sqrt (1 + arg x * arg x)) * exp (- / 2 * z x * z x).

Lemma sqrt2_pos : 0 < sqrt 2.
Proof. apply sqrt_lt_R0. lra. Qed.

Lemma derivable_pt_lim_arg (x : R) : derivable_pt_lim arg x (/ lam).
Proof.
  apply (derivable_pt_lim_ext (mult_real_fct (/ lam) (id - fct_cte mu))%F).
  { intros t. unfold mult_real_fct, minus_fct, id, fct_cte, arg. field. lra. }
  replace (/ lam) with (/ lam * (1 - 0)) at 2 by ring.
  apply derivable_pt_lim_scal, derivable_pt_lim_minus;
    [apply derivable_pt_lim_id | apply derivable_pt_lim_const].
Qed.

Lemma derivable_pt_lim_z (x : R) :
  derivable_pt_lim z x (del * (/ sqrt (arg x ^ 2 + 1) * / lam)).
Proof.
  apply (derivable_pt_lim_ext (fct_cte gam + mult_real_fct del (comp arcsinh arg))%F).
  { intros t. reflexivity. }
  replace (del * (/ sqrt (arg x ^ 2 + 1) * / lam))
    with (0 + del * (/ sqrt (arg x ^ 2 + 1) * / lam)) by ring.
  apply derivable_pt_lim_plus; [apply derivable_pt_lim_const|].
  apply derivable_pt_lim_scal, derivable_pt_lim_comp;
    [apply derivable_pt_lim_arg | apply derivable_pt_lim_arcsinh].
Qed.

Lemma derivable_pt_lim_cdf (x : R) : derivable_pt_lim cdf x (pdf x).
Proof.
  pose proof sqrt2_pos as S2. pose proof sqrt_PI_pos as SP.
  assert (0 < sqrt (arg x ^ 2 + 1)) as SA by (apply sqrt_lt_R0; nra).
  apply (derivable_pt_lim_ext
           (mult_real_fct (- / 2) (comp erfc (mult_real_fct (/ sqrt 2) z)))%F).
  { intros t. unfold mult_real_fct, comp, cdf. f_equal. f_equal. field.
    apply Rgt_not_eq, S2. }
  replace (pdf x) with
    (- / 2 * (- (2 / sqrt PI * gauss_kernel (/ sqrt 2 * z x))
              * (/ sqrt 2 * (del * (/ sqrt (arg x ^ 2 + 1) * / lam))))).
  - apply derivable_pt_lim_scal, derivable_pt_lim_comp;
      [apply derivable_pt_lim_scal, derivable_pt_lim_z | apply derivable_pt_lim_erfc].
  - unfold pdf, gauss_kernel.
    replace (1 + arg x * arg x) with (arg x ^ 2 + 1) by ring.
    replace (- (/ sqrt 2 * z x * (/ sqrt 2 * z x))) with (- / 2 * z x * z x).
    2:{ assert (/ sqrt 2 * / sqrt 2 = / 2) as E
          by (rewrite <- Rinv_mult, sqrt_sqrt by lra; reflexivity).
        rewrite <- E. ring. }
    rewrite sqrt_mult by (pose proof PI_RGT_0; lra).
    field. repeat split; apply Rgt_not_eq; assumption.
Qed.

Lemma continuity_pt_pdf (x : R) : continuity_pt pdf x.
Proof.
  assert (forall t, continuity_pt arg t) as Carg.
  { intros t. apply derivable_continuous_pt. exists (/ lam). apply derivable_pt_lim_arg. }
  assert (forall t, continuity_pt z t) as Cz.
  { intros t. apply derivable_continuous_pt. eexists. apply derivable_pt_lim_z. }
  assert (continuity_pt
            (mult_real_fct (del / sqrt (2 * PI))
               (/ (mult_real_fct lam (comp sqrt (fct_cte 1 + arg * arg)%F))
                * (comp exp (mult_real_fct (- / 2) (z * z)%F)))%F) x) as C.
  { apply continuity_pt_scal, continuity_pt_mult.
    - apply continuity_pt_inv.
      + apply continuity_pt_scal, continuity_pt_comp.
        * apply continuity_pt_plus; [apply continuity_pt_const; intros ? ?; reflexivity|].
          apply continuity_pt_mult; apply Carg.
        * apply sqrt_continuity_pt. unfold plus_fct, mult_fct, fct_cte. nra.
      + unfold mult_real_fct, comp, plus_fct, mult_fct, fct_cte.
        assert (0 < sqrt (1 + arg x * arg x)) by (apply sqrt_lt_R0; nra). nra.
    - apply continuity_pt_comp.
      + apply continuity_pt_scal, continuity_pt_mult; apply Cz.
      + apply derivable_continuous_pt. exists (exp (mult_real_fct (- / 2) (z * z)%F x)).
        apply derivable_pt_lim_exp. }
  intros eps Heps. destruct (C eps Heps) as (alp & Halp & Hc). exists alp. split; [exact Halp|].
  intros t Ht. specialize (Hc t Ht).
  unfold mult_real_fct, comp, plus_fct, mult_fct, fct_cte, inv_fct in Hc.
  unfold pdf.
  assert (forall u, del / sqrt (2 * PI) * (/ (lam * sqrt (1 + arg u * arg u)) * exp (- / 2 * (z u * z u)))
                    = del / sqrt (2 * PI) / (lam * sqrt (1 + arg u * arg u)) * exp (- / 2 * z u * z u)) as E.
  { intros u. unfold Rdiv. rewrite <- !Rmult_assoc. reflexivity. }
  rewrite <- !E. exact Hc.
Qed.

Lemma integral_pdf (a b : R) (pr : Riemann_integrable pdf a b) :
  a <= b -> RiemannInt pr = cdf b - cdf a.
Proof.
  intros h.
  assert (forall t, a <= t <= b -> continuity_pt pdf t) as C0 by (intros; apply continuity_pt_pdf).
  rewrite (RiemannInt_P20 h (FTC_P1 h C0) pr).
  assert (antiderivative pdf cdf a b) as Hcdf.
  { split; [|exact h]. intros t _.
    exists (exist _ (pdf t) (derivable_pt_lim_cdf t)). reflexivity. }
  destruct (antiderivative_Ucte _ _ _ _ _ (RiemannInt_P29 h C0) Hcdf) as (c & Hc).
  rewrite (Hc a), (Hc b) by lra. ring.
Qed.

Lemma z_increasing (a b : R) : 0 < del -> a < b -> z a < z b.
Proof.
  intros Hd Hab. unfold z.
  assert (arg a < arg b) as H.
  { unfold arg. apply Rmult_lt_compat_r; [apply Rinv_0_lt_compat; lra | lra]. }
  apply arcsinh_lt in H. nra.
Qed.

(** The three cases of the sign distinction give one value. *)
Lemma sign_cases (lo hi : R) :
  lo <= hi ->
  / 2 * (if ltb (lo * hi) 0
         then 2 - (erfc (Rabs (lo / sqrt 2)) + erfc (Rabs (hi / sqrt 2)))
         else if leb hi 0
              then erfc (Rabs (hi / sqrt 2)) - erfc (Rabs (lo / sqrt 2))
              else erfc (Rabs (lo / sqrt 2)) - erfc (Rabs (hi / sqrt 2)))
  = / 2 * (erfc (lo / sqrt 2) - erfc (hi / sqrt 2)).
Proof.
  intros Hle. pose proof sqrt2_pos as S2.
  assert (forall t, 0 <= t -> Rabs (t / sqrt 2) = t / sqrt 2) as Apos.
  { intros t Ht. apply Rabs_right. apply Rle_ge. apply Rmult_le_pos; [lra|].
    left. apply Rinv_0_lt_compat. lra. }
  assert (forall t, t <= 0 -> erfc (Rabs (t / sqrt 2)) = 2 - erfc (t / sqrt 2)) as Aneg.
  { intros t Ht. rewrite <- erfc_opp. f_equal.
    rewrite <- Rabs_Ropp. replace (- (t / sqrt 2)) with (- t / sqrt 2) by (field; lra).
    apply Apos. lra. }
  unfold ltb, leb.
  destruct (Rlt_dec (lo * hi) 0) as [Hs|Hs].
  - assert (lo < 0 /\ 0 < hi) as (Hlo & Hhi) by nra.
    rewrite (Aneg lo), (Apos hi) by lra. ring.
  - destruct (Rle_dec hi 0) as [Hh|Hh].
    + rewrite (Aneg lo), (Aneg hi) by lra. ring.
    + assert (0 <= lo) by nra. rewrite (Apos lo), (Apos hi) by lra. ring.
Qed.

End Curve.
End JohnsonIntegral.


(** ** [analyticalIntegral] over the mass, in closed form *)

Module JohnsonCode.
Import RooFit CxxFacts RooJohnsonFacts Exact ErfcFacts JohnsonIntegral.

Section WithEnv.
Context `{!RooFitEnv}.

Lemma eqb_true (a b : R) : Exact.eqb a b = true <-> a = b.
Proof. unfold Exact.eqb. destruct (Req_dec_T a b); split; intros; try discriminate; tauto. Qed.

Lemma eqb_false (a b : R) : a <> b -> Exact.eqb a b = false.
Proof. unfold Exact.eqb. destruct (Req_dec_T a b); intros; [contradiction | reflexivity]. Qed.

Lemma ltb_false (a b : R) : (b <= a)%R -> Exact.ltb a b = false.
Proof. unfold Exact.ltb. destruct (Rlt_dec a b); intros; [lra | reflexivity]. Qed.

Lemma leb_false (a b : R) : (b < a)%R -> Exact.leb a b = false.
Proof. unfold Exact.leb. destruct (Rle_dec a b); intros; [lra | reflexivity]. Qed.

(** For the code of the mass the answer is the difference of the Gaussian
    tail at the two transformed limits, and it is positive. *)
Lemma analyticalIntegral_mass_value (self : RooJohnson R) (r : option string) :
  consecutive ->
  (0 < val (_lambda self))%R -> (0 < val (_delta self))%R ->
  (min (_mass self) r < max (_mass self) r)%R ->
  let z x := (val (_gamma self)
              + val (_delta self) * arcsinh ((x - val (_mu self)) / val (_lambda self)))%R in
  analyticalIntegral kMass r self =
  Ok (/ 2 * (Exact.erfc (z (min (_mass self) r) / sqrt 2)
             - Exact.erfc (z (max (_mass self) r) / sqrt 2)))%R self /\
  (0 < / 2 * (Exact.erfc (z (min (_mass self) r) / sqrt 2)
              - Exact.erfc (z (max (_mass self) r) / sqrt 2)))%R.
Proof.
  intros (E1 & E2 & E3 & E4) Hl Hd Hab z.
  pose proof (z_increasing (val (_mu self)) (val (_lambda self)) (val (_gamma self))
                (val (_delta self)) Hl _ _ Hd Hab) as Hz.
  cbv beta in Hz. fold (z (min (_mass self) r)) in Hz. fold (z (max (_mass self) r)) in Hz.
  assert (Exact.erfc (z (max (_mass self) r) / sqrt 2)
          < Exact.erfc (z (min (_mass self) r) / sqrt 2))%R as Herfc.
  { apply erfc_decreasing. pose proof sqrt2_pos.
    apply Rmult_lt_compat_r; [apply Rinv_0_lt_compat; lra | exact Hz]. }
  split; [|lra].
  unfold analyticalIntegral.
  replace (kMass <=? kMass) with true by (symmetry; apply Z.leb_le; lia).
  replace (kMass <=? kLambda) with true by (symmetry; apply Z.leb_le; lia).
  rewrite Z.eqb_refl. simpl. cbv [mbind M_bind bind mret M_ret ret gets].
  fold (z (min (_mass self) r)). fold (z (max (_mass self) r)).
  rewrite (sign_cases (z (min (_mass self) r)) (z (max (_mass self) r))) by lra.
  rewrite eqb_false; [simpl; rewrite Rmult_1_l; reflexivity|].
  lra.
Qed.

(** Over a range that starts at the threshold or above it, [evaluate] as a
    function of the mass can be integrated. *)
Lemma evaluate_integrable (self : RooJohnson R) (a b : R) :
  (0 < val (_lambda self))%R -> (_massThreshold self <= a)%R -> (a <= b)%R ->
  Riemann_integrable (fun x => evaluate (assign_mass x self)) a b.
Proof.
  intros Hl Ht Hab.
  apply Riemann_integrable_ext with
    (f := (fun x => val (_delta self) / sqrt (2 * PI)
                     / (val (_lambda self)
                        * sqrt (1 + (x - val (_mu self)) / val (_lambda self)
                                    * ((x - val (_mu self)) / val (_lambda self))))
                     * exp (- / 2
                            * (val (_gamma self) + val (_delta self)
                               * arcsinh ((x - val (_mu self)) / val (_lambda self)))
                            * (val (_gamma self) + val (_delta self)
                               * arcsinh ((x - val (_mu self)) / val (_lambda self)))))%R).
  - intros x Hx. rewrite Rmin_left, Rmax_right in Hx by exact Hab.
    unfold evaluate. simpl. rewrite ltb_false by lra. reflexivity.
  - apply continuity_implies_RiemannInt; [exact Hab|]. intros x _.
    apply (continuity_pt_pdf (val (_mu self)) (val (_lambda self)) (val (_gamma self))
             (val (_delta self)) Hl x).
Qed.

End WithEnv.

End JohnsonCode.


(** ** The integral of the density over gamma *)

Module GammaIntegral.
Import RooFit CxxFacts RooJohnsonFacts Exact ErfcFacts JohnsonIntegral.
Local Open Scope R_scope.

(** The Gaussian density in a shifted variable and a primitive of it. *)
Section Shift.
Variables K c : R.

Let dens (g : R) : R := K * exp (- / 2 * (g + c) * (g + c)).
Let prim (g : R) : R := K * (- / 2 * sqrt (2 * PI) * erfc ((g + c) / sqrt 2)).

Lemma derivable_pt_lim_prim (g : R) : derivable_pt_lim prim g (dens g).
Proof.
  pose proof sqrt2_pos as S2. pose proof sqrt_PI_pos as SP.
  apply (derivable_pt_lim_ext
           (mult_real_fct (K * (- / 2 * sqrt (2 * PI)))
              (comp erfc (mult_real_fct (/ sqrt 2) (id + fct_cte c))))%F).
  { intros t. unfold mult_real_fct, comp, plus_fct, id, fct_cte, prim.
    rewrite Rmult_assoc. f_equal. f_equal. f_equal. field. apply Rgt_not_eq, S2. }
  replace (dens g) with
    (K * (- / 2 * sqrt (2 * PI))
     * (- (2 / sqrt PI * gauss_kernel (/ sqrt 2 * (g + c))) * (/ sqrt 2 * (1 + 0)))).
  - apply derivable_pt_lim_scal, derivable_pt_lim_comp; [|apply derivable_pt_lim_erfc].
    apply derivable_pt_lim_scal, derivable_pt_lim_plus;
      [apply derivable_pt_lim_id | apply derivable_pt_lim_const].
  - unfold dens, gauss_kernel.
    replace (- (/ sqrt 2 * (g + c) * (/ sqrt 2 * (g + c)))) with (- / 2 * (g + c) * (g + c)).
    2:{ assert (/ sqrt 2 * / sqrt 2 = / 2) as E
          by (rewrite <- Rinv_mult, sqrt_sqrt by lra; reflexivity).
        rewrite <- E. ring. }
    rewrite sqrt_mult by (pose proof PI_RGT_0; lra).
    field. split; apply Rgt_not_eq; assumption.
Qed.

Lemma continuity_pt_dens (g : R) : continuity_pt dens g.
Proof.
  apply derivable_continuous_pt.
  assert (derivable_pt_lim
            (mult_real_fct K (comp exp (mult_real_fct (- / 2)
               ((id + fct_cte c) * (id + fct_cte c)))))%F g
            (K * (exp (- / 2 * ((g + c) * (g + c)))
                  * (- / 2 * ((1 + 0) * (g + c) + (g + c) * (1 + 0)))))) as Hd.
  { apply derivable_pt_lim_scal, derivable_pt_lim_comp; [|apply derivable_pt_lim_exp].
    apply derivable_pt_lim_scal.
    apply (derivable_pt_lim_mult (id + fct_cte c)%F (id + fct_cte c)%F);
      apply derivable_pt_lim_plus;
      first [apply derivable_pt_lim_id | apply derivable_pt_lim_const]. }
  eexists. apply (derivable_pt_lim_ext _ dens) in Hd; [exact Hd|].
  intros t. unfold mult_real_fct, comp, mult_fct, plus_fct, id, fct_cte, dens.
  f_equal. f_equal. ring.
Qed.

Lemma integral_dens (a b : R) (pr : Riemann_integrable dens a b) :
  a <= b -> RiemannInt pr = prim b - prim a.
Proof.
  intros h.
  assert (forall t, a <= t <= b -> continuity_pt dens t) as C0
    by (intros; apply continuity_pt_dens).
  rewrite (RiemannInt_P20 h (FTC_P1 h C0) pr).
  assert (antiderivative dens prim a b) as Hp.
  { split; [|exact h]. intros t _.
    exists (exist _ (dens t) (derivable_pt_lim_prim t)). reflexivity. }
  destruct (antiderivative_Ucte _ _ _ _ _ (RiemannInt_P29 h C0) Hp) as (k & Hk).
  rewrite (Hk a), (Hk b) by lra. ring.
Qed.

End Shift.

Section WithEnv.
Context `{!RooFitEnv}.

(** With the mass at the threshold or above it, [evaluate] as a function of
    gamma can be integrated. *)
Lemma evaluate_gamma_integrable (self : RooJohnson R) (a b : R) :
  _massThreshold self <= val (_mass self) -> a <= b ->
  Riemann_integrable (fun g => evaluate (assign_gamma g self)) a b.
Proof.
  intros Ht Hab.
  set (arg := (val (_mass self) - val (_mu self)) / val (_lambda self)).
  apply Riemann_integrable_ext with
    (f := fun g => val (_delta self) / sqrt (2 * PI) / (val (_lambda self) * sqrt (1 + arg * arg))
                   * exp (- / 2 * (g + val (_delta self) * arcsinh arg)
                          * (g + val (_delta self) * arcsinh arg))).
  - intros g Hg. unfold evaluate. simpl.
    unfold Exact.ltb. destruct (Rlt_dec (val (_mass self)) (_massThreshold self)); [lra|].
    reflexivity.
  - apply continuity_implies_RiemannInt; [exact Hab|]. intros g _.
    apply (continuity_pt_dens
             (val (_delta self) / sqrt (2 * PI) / (val (_lambda self) * sqrt (1 + arg * arg)))
             (val (_delta self) * arcsinh arg) g).
Qed.

End WithEnv.

End GammaIntegral.


(** ** Signs in binary64 *)

Module Binary64Facts.
Import RooFit Binary64.

(** Rounding keeps the sign it is given. *)
Lemma round_sign (s : bool) (m e : Z) (l : location) :
  match binary_round_aux prec emax s m e l with
  | S754_nan => True
  | S754_zero s' | S754_infinity s' | S754_finite s' _ _ => s' = s
  end.
Proof.
  unfold binary_round_aux.
  destruct (shr_fexp prec emax m e l) as [mrs' e'].
  destruct (shr_fexp prec emax _ e' loc_Exact) as [mrs'' e''].
  destruct (shr_m mrs'') as [|p|p]; [reflexivity | | exact I].
  destruct (e'' <=? emax - prec); reflexivity.
Qed.

Lemma round_unsigned (m e : Z) (l : location) :
  unsigned (binary_round_aux prec emax false m e l).
Proof.
  pose proof (round_sign false m e l) as H. unfold unsigned.
  destruct (binary_round_aux prec emax false m e l); exact H.
Qed.

Lemma binary_round_unsigned (m : positive) (e : Z) :
  unsigned (binary_round prec emax false m e).
Proof.
  unfold binary_round.
  destruct (shl_align m e (fexp prec emax (Z.pos (digits2_pos m) + e))) as [mz ez].
  apply round_unsigned.
Qed.

Lemma mul_unsigned (x y : float) : unsigned x -> unsigned y -> unsigned (SFmul prec emax x y).
Proof.
  destruct x as [sx|sx| |sx mx ex], y as [sy|sy| |sy my ey]; simpl;
    intros Hx Hy; subst; try exact I; try reflexivity.
  apply round_unsigned.
Qed.

Lemma mul_self_unsigned (x : float) : unsigned (SFmul prec emax x x).
Proof.
  destruct x as [s|s| |s m e]; simpl; try exact I; try (destruct s; reflexivity).
  rewrite xorb_nilpotent. apply round_unsigned.
Qed.

Lemma div_unsigned (x y : float) : unsigned x -> unsigned y -> unsigned (SFdiv prec emax x y).
Proof.
  destruct x as [sx|sx| |sx mx ex], y as [sy|sy| |sy my ey]; simpl;
    intros Hx Hy; subst; try exact I; try reflexivity.
  destruct (SFdiv_core_binary prec emax (Z.pos mx) ex (Z.pos my) ey) as [[mz ez] lz].
  apply round_unsigned.
Qed.

Lemma add_unsigned (x y : float) : unsigned x -> unsigned y -> unsigned (SFadd prec emax x y).
Proof.
  destruct x as [sx|sx| |sx mx ex], y as [sy|sy| |sy my ey]; simpl;
    intros Hx Hy; subst; try exact I; try reflexivity.
  unfold binary_normalize, cond_Zopp.
  match goal with |- unsigned (match ?a + ?b with _ => _ end) =>
    destruct a eqn:Ea; destruct b eqn:Eb; try discriminate
  end.
  simpl. apply binary_round_unsigned.
Qed.

Lemma sqrt_unsigned (x : float) : unsigned x -> unsigned (SFsqrt prec emax x).
Proof.
  destruct x as [s|s| |s m e]; simpl; intros H; subst; try exact I; try reflexivity.
  destruct (SFsqrt_core_binary prec emax (Z.pos m) e) as [[mz ez] lz].
  apply round_unsigned.
Qed.

Lemma positive_unsigned (x : float) : SFltb zero x = true -> unsigned x.
Proof.
  destruct x as [s|s| |s m e]; simpl; try discriminate; destruct s; try discriminate;
    reflexivity.
Qed.

Lemma unsigned_not_negative (x : float) :
  unsigned x -> SFltb x zero = false /\ (x = nan \/ SFleb zero x = true).
Proof.
  destruct x as [s|s| |s m e]; simpl; intros H; subst; split; auto.
Qed.

(** NaN spoils every operation it enters. *)
Lemma sub_nan_l (y : float) : SFsub prec emax nan y = nan.
Proof. destruct y; reflexivity. Qed.

Lemma div_nan_l (y : float) : SFdiv prec emax nan y = nan.
Proof. destruct y; reflexivity. Qed.

Lemma div_nan_r (x : float) : SFdiv prec emax x nan = nan.
Proof. destruct x; reflexivity. Qed.

Lemma mul_nan_l (y : float) : SFmul prec emax nan y = nan.
Proof. destruct y; reflexivity. Qed.

Lemma mul_nan_r (x : float) : SFmul prec emax x nan = nan.
Proof. destruct x; reflexivity. Qed.

Lemma add_nan_r (x : float) : SFadd prec emax x nan = nan.
Proof. destruct x; reflexivity. Qed.

(** A mass that is not a number passes no comparison: [evaluate] returns
    NaN, whatever the C library. *)
Lemma evaluate_nan (libm : Libm) (self : RooJohnson float) :
  val (_mass self) = nan -> evaluate (Double0 := binary64 libm) self = nan.
Proof.
  intros Hm. unfold evaluate.
  cbn [dlt dsub ddiv dadd dmul dneg dsqrt dexp dasinh lit_0 lit_05 lit_1 TwoPi binary64].
  rewrite Hm. cbn [SFltb SFcompare nan].
  fold nan. rewrite sub_nan_l, div_nan_l, mul_nan_l, add_nan_r.
  change (SFsqrt prec emax nan) with nan.
  rewrite mul_nan_r, div_nan_r, mul_nan_l. reflexivity.
Qed.

Section WithLibm.
Variable libm : Libm.
Hypothesis exp_unsigned : forall x, unsigned (exp libm x).

(** With lambda and delta above 0 and an [exp] without negative values, the
    sign bit of what [evaluate] returns is clear, unless it is NaN. *)
Lemma evaluate_unsigned (self : RooJohnson float) :
  SFltb zero (val (_lambda self)) = true -> SFltb zero (val (_delta self)) = true ->
  unsigned (evaluate (Double0 := binary64 libm) self).
Proof.
  intros Hl Hd. apply positive_unsigned in Hl, Hd.
  unfold evaluate. cbn [dlt dsub ddiv dadd dmul dneg dsqrt dexp dasinh lit_0 lit_05 lit_1 TwoPi
                        binary64].
  destruct (SFltb (val (_mass self)) (_massThreshold self)); [reflexivity|].
  apply mul_unsigned; [|apply exp_unsigned].
  apply div_unsigned.
  - apply div_unsigned; [exact Hd|]. apply sqrt_unsigned. reflexivity.
  - apply mul_unsigned; [exact Hl|]. apply sqrt_unsigned.
    apply add_unsigned; [reflexivity | apply mul_self_unsigned].
Qed.

End WithLibm.
End Binary64Facts.


(** ** Bounds for the integral over a wide range *)

Module FullRange.
Import RooFit Exact ErfcFacts JohnsonIntegral.
Local Open Scope R_scope.

(** Between two points [erfc] falls by at most [2 / sqrt PI] times their
    distance: the kernel is at most 1. *)
Lemma erfc_fall (lo hi : R) : lo <= hi -> erfc lo - erfc hi <= 2 / sqrt PI * (hi - lo).
Proof.
  intros h. unfold erfc.
  rewrite (gauss_split lo hi (gauss_integrable lo hi)).
  assert (RiemannInt (gauss_integrable lo hi) <= hi - lo) as Hb.
  { rewrite <- (Rmult_1_l (hi - lo)), <- (RiemannInt_P15 (RiemannInt_P14 lo hi 1)).
    apply RiemannInt_P19; [exact h|]. intros x _. unfold gauss_kernel, fct_cte.
    rewrite <- exp_0. destruct (Req_dec (x * x) 0) as [E|E].
    - rewrite E, Ropp_0. lra.
    - apply Rlt_le, exp_increasing. nra. }
  assert (0 < 2 / sqrt PI) by (apply Rdiv_lt_0_compat; [lra | apply sqrt_PI_pos]).
  nra.
Qed.

Lemma sinh_opp (y : R) : sinh (- y) = - sinh y.
Proof. unfold sinh. rewrite Ropp_involutive. field. Qed.

Lemma arcsinh_opp (x : R) : arcsinh (- x) = - arcsinh x.
Proof.
  rewrite <- (sinh_arcsinh x) at 1. rewrite <- sinh_opp. apply arcsinh_sinh.
Qed.

Lemma arcsinh_bound (x : R) : 0 <= x -> arcsinh x <= 2 * x.
Proof.
  intros Hx. unfold arcsinh.
  assert (sqrt (x ^ 2 + 1) <= x + 1) as Hs.
  { rewrite <- (sqrt_pow2 (x + 1)) by lra. apply sqrt_le_1; nra. }
  assert (0 < sqrt (x ^ 2 + 1)) as Hp by (apply sqrt_lt_R0; nra).
  set (u := x + sqrt (x ^ 2 + 1)) in *.
  assert (0 < u) as Hu by (unfold u; lra).
  assert (1 + ln u <= u) as Hl.
  { destruct (Req_dec (ln u) 0) as [E|E].
    - rewrite E. assert (u = 1) as ->; [|lra].
      apply ln_inv; [exact Hu | lra | rewrite ln_1; exact E].
    - pose proof (exp_ineq1 (ln u) E) as Hi. rewrite exp_ln in Hi by exact Hu. lra. }
  unfold u in *. lra.
Qed.

End FullRange.


(** ** The loop of [generateEvent] *)

Module SamplingFacts.
Import RooFit RooJohnsonFacts.

Section WithDouble.
Context {D : Type} `{!Double D}.

(** Acceptance is decided by the three comparisons. *)
Lemma acceptable_test (self : RooJohnson D) (mass : D) :
  dle (min (_mass self) None) mass && dle mass (max (_mass self) None)
    && dle (_massThreshold self) mass = true <-> acceptable self mass.
Proof.
  unfold acceptable. rewrite !andb_true_iff. tauto.
Qed.

(** When no deviate gives an acceptable mass the loop goes on for ever:
    whatever the number of draws allowed, it has not returned. *)
Lemma generate_mass_never (fuel : nat) : forall s : Sampling D,
  (forall k, ~ acceptable (pdf s) (candidate (pdf s) (randomGenerator s k))) ->
  generate_mass fuel s = None.
Proof.
  induction fuel as [|fuel IH]; intros s Hno; [reflexivity|].
  rewrite generate_mass_S. cbv zeta.
  destruct (_ && _) eqn:E.
  - exfalso. apply (Hno 0%nat). apply acceptable_test. exact E.
  - apply IH. intros k. simpl. apply (Hno (S k)).
Qed.

(** Once some deviate gives an acceptable mass, the loop returns within
    that many draws, and with any larger allowance. *)
Lemma generate_mass_returns_within (k : nat) : forall (fuel : nat) (s : Sampling D),
  (k < fuel)%nat ->
  acceptable (pdf s) (candidate (pdf s) (randomGenerator s k)) ->
  exists s', generate_mass fuel s = Some (Ok tt s').
Proof.
  induction k as [|k IH]; intros fuel s Hf Hacc;
    (destruct fuel as [|fuel]; [lia|]); rewrite generate_mass_S; cbv zeta.
  - apply acceptable_test in Hacc. rewrite Hacc. eauto.
  - destruct (_ && _); [eauto|]. apply IH; [lia | exact Hacc].
Qed.

End WithDouble.

End SamplingFacts.

(** * The claims *)

Module Claims.
Import SOFIE CxxFacts ShapeInferenceFacts ShapeInferenceTotal InitializeFacts ReferenceFacts
  GenerateFacts Examples MoreExamples.

Section ConvTranspose.

(** C1 fails on the code by a slip. [ShapeInference] takes the batch size,
    the channel count and the input extents from the shapes it is called
    with, but the default kernel shape from the weight shape the operator has
    stored, [fShapeW] (and the total padding from the stored [fShapeX]). On
    the operator as parsed, which has stored nothing yet, the call of the
    claim's own instance (input (1,3,8,8), weights (3,2,3,3), strides (1,1))
    indexes an empty vector; on an operator that has stored the weight shape
    (3,2,5,5) the same call answers the extents 12 and 12, where the weights
    of the call give 10. The call answers 10 and 10 on the operator that has
    stored the weight shape it is called with. *)
Theorem ShapeInference_ignores_weight_argument :
  fShapeW conv2d = [] /\
  ShapeInference [[1; 3; 8; 8]; [3; 2; 3; 3]] conv2d = Undefined /\
  conv2d_other_weights = set_fShapeW [3; 2; 5; 5] conv2d_shaped /\
  (exists op', ShapeInference [[1; 3; 8; 8]; [3; 2; 3; 3]] conv2d_other_weights
               = Ok [[1; 2; 12; 12]] op') /\
  conv2d_shaped = set_fShapeW [3; 2; 3; 3] (set_fShapeX [1; 3; 8; 8] conv2d) /\
  (exists op', ShapeInference [[1; 3; 8; 8]; [3; 2; 3; 3]] conv2d_shaped
               = Ok [[1; 2; 10; 10]] op').
Proof.
  split; [reflexivity|]. split; [vm_compute; reflexivity|].
  split; [reflexivity|]. split; [eexists; vm_compute; reflexivity|].
  split; [reflexivity|]. eexists. vm_compute. reflexivity.
Qed.

(** Where the stored shapes fit, the extents are the ones of the claim.
    Take an input shape of rank 3, 4 or 5 (one to three spatial axes [n])
    and a weight shape of the same rank, an operator without explicit
    pads, output shape and output padding, whose strides, dilations and kernel
    shape are each absent or of length [n], and whose stored shapes have that
    rank. Then [ShapeInference] returns one shape of that rank, and on every
    spatial axis [i] its extent is [strides[i] * (inputShape[i+2] - 1) +
    kernelShape[i]] in [size_t] arithmetic, which is that integer whenever it
    fits in 64 bits. Absent strides and dilations are 1, and an absent kernel
    shape is the dilated kernel size [w + (d - 1) * (w - 1)] of the stored
    weight shape. *)
Theorem ShapeInference_default_output_extent
    (op : Op) (inputShape weightShape : list Z) (n : nat) :
  (1 <= n <= 3)%nat ->
  length inputShape = (n + 2)%nat -> length weightShape = (n + 2)%nat ->
  fAttrPads op = [] -> fAttrOutputShape op = [] -> fAttrOutputPadding op = [] ->
  sized n (fAttrStrides op) -> sized n (fAttrDilations op) -> sized n (fAttrKernelShape op) ->
  length (fShapeX op) = (n + 2)%nat -> length (fShapeW op) = (n + 2)%nat ->
  exists out op',
    ShapeInference [inputShape; weightShape] op = Ok [out] op' /\
    length out = (n + 2)%nat /\
    forall i, (i < n)%nat ->
      exists st x k d,
        fAttrStrides op' !! i = Some st /\ inputShape !! (i + 2)%nat = Some x /\
        fAttrKernelShape op' !! i = Some k /\ fAttrDilations op' !! i = Some d /\
        out !! (i + 2)%nat = Some (st * (x - 1) + k)%sz /\
        (0 <= st * (x - 1) + k < 2 ^ 64 -> out !! (i + 2)%nat = Some (st * (x - 1) + k)) /\
        (fAttrStrides op = [] -> st = 1) /\
        (fAttrStrides op <> [] -> fAttrStrides op !! i = Some st) /\
        (fAttrDilations op = [] -> d = 1) /\
        (fAttrDilations op <> [] -> fAttrDilations op !! i = Some d) /\
        (fAttrKernelShape op <> [] -> fAttrKernelShape op !! i = Some k) /\
        (fAttrKernelShape op = [] ->
           exists w, fShapeW op !! (i + 2)%nat = Some w /\ k = (w + (d - 1) * (w - 1))%sz).
Proof.
  intros Hn Hx Hw HA HO HP HS HD HK HX HW.
  destruct (ShapeInference_total op inputShape weightShape n Hn Hx Hw HX HW HS HD HK
              (or_introl HP) (or_introl HO) (or_introl HA))
    as (out & vS & vD & vK & vP & vO & vA & b & c & Hrun & VS & VD & VP & LK & VK1 & VK2 &
        LO & _ & VO & _ & _ & Lout & _ & _ & _ & _ & Oi).
  eexists out, _. split; [exact Hrun|]. split; [exact Lout|].
  intros i Hi. simpl.
  assert (length vS = n) as LS.
  { rewrite VS. destruct HS as [-> | HS]; [apply length_replicate|].
    destruct (fAttrStrides op); [simpl in HS; lia | exact HS]. }
  assert (length vD = n) as LD.
  { rewrite VD. destruct HD as [-> | HD]; [apply length_replicate|].
    destruct (fAttrDilations op); [simpl in HD; lia | exact HD]. }
  destruct (lookup_lt_is_Some_2 vS i ltac:(lia)) as (st & Hst).
  destruct (lookup_lt_is_Some_2 vD i ltac:(lia)) as (d & Hd).
  destruct (lookup_lt_is_Some_2 vK i ltac:(lia)) as (k & Hk).
  destruct (lookup_lt_is_Some_2 inputShape (i + 2)%nat ltac:(lia)) as (x & Hxi).
  destruct (lookup_lt_is_Some_2 (fShapeW op) (i + 2)%nat ltac:(lia)) as (w & Hwi).
  assert (vP !! i = Some 0) as Hp.
  { rewrite VP, HP. simpl. apply lookup_replicate_2. exact Hi. }
  assert (out !! (i + 2)%nat = Some (st * (x - 1) + k)%sz) as Hout.
  { rewrite (Oi i Hi), (VO HO i st x k 0 Hst Hxi Hk Hp). f_equal. apply sz_sub_0_r. }
  exists st, x, k, d. repeat split; try assumption.
  - intros Hfit. rewrite Hout, sz_extent_wrap, wrap_small by exact Hfit. reflexivity.
  - intros E. rewrite VS, E in Hst. simpl in Hst.
    apply lookup_replicate in Hst as (-> & _). reflexivity.
  - intros E. rewrite VS in Hst. destruct (fAttrStrides op); [contradiction | exact Hst].
  - intros E. rewrite VD, E in Hd. simpl in Hd.
    apply lookup_replicate in Hd as (-> & _). reflexivity.
  - intros E. rewrite VD in Hd. destruct (fAttrDilations op); [contradiction | exact Hd].
  - intros E. rewrite <- (VK1 E). exact Hk.
  - intros E. exists w. split; [exact Hwi|].
    rewrite (VK2 E i w d Hwi Hd) in Hk. injection Hk as <-. reflexivity.
Qed.

(** The instance of the spec: input (1,3,8,8), weights (3,2,3,3), strides
    (1,1); both spatial extents are 10. *)
Lemma ShapeInference_default_output_extent_witness :
  exists out op',
    ShapeInference [[1; 3; 8; 8]; [3; 2; 3; 3]] conv2d_shaped = Ok [out] op' /\
    out !! 2%nat = Some 10 /\ out !! 3%nat = Some 10.
Proof.
  destruct (ShapeInference_default_output_extent conv2d_shaped [1; 3; 8; 8] [3; 2; 3; 3] 2)
    as (out & op' & Hrun & _ & Hext);
    [lia | reflexivity | reflexivity | reflexivity | reflexivity | reflexivity
     | right; reflexivity | left; reflexivity | left; reflexivity
     | reflexivity | reflexivity |].
  exists out, op'. split; [exact Hrun|].
  destruct (Hext 0%nat ltac:(lia)) as
    (st0 & x0 & k0 & d0 & _ & X0 & _ & _ & O0 & _ & _ & S0 & D0 & _ & _ & K0).
  destruct (Hext 1%nat ltac:(lia)) as
    (st1 & x1 & k1 & d1 & _ & X1 & _ & _ & O1 & _ & _ & S1 & D1 & _ & _ & K1).
  assert (fAttrStrides conv2d_shaped <> []) as NS by (simpl; discriminate).
  specialize (S0 NS). specialize (S1 NS).
  specialize (D0 eq_refl). specialize (D1 eq_refl).
  destruct (K0 eq_refl) as (w0 & W0 & ->). destruct (K1 eq_refl) as (w1 & W1 & ->).
  simpl in *.
  injection S0 as <-. injection S1 as <-. injection X0 as <-. injection X1 as <-.
  injection W0 as <-. injection W1 as <-. subst d0 d1.
  split; [exact O0 | exact O1].
Defined.

(** C6. Whenever [ShapeInference] returns, it returns one shape, and the
    second entry of that shape is [weightShape[1]] times the group attribute
    (in [size_t] arithmetic), a group attribute of 0 counting as 1; the group
    attribute the operator is left with is that same number. *)
Theorem ShapeInference_output_channels
    (input : list (list Z)) (op op' : Op) (ret : list (list Z)) :
  ShapeInference input op = Ok ret op' ->
  exists weightShape c out,
    input !! 1%nat = Some weightShape /\ weightShape !! 1%nat = Some c /\
    ret = [out] /\
    out !! 1%nat = Some (c * (if fAttrGroup op =? 0 then 1 else fAttrGroup op))%sz /\
    fAttrGroup op' = (if fAttrGroup op =? 0 then 1 else fAttrGroup op).
Proof.
  intros H. apply ShapeInference_ok_inv in H.
  pose proof (ShapeInference_run_frame _ _ _ _ H) as
    (inputShape' & vS & vD & vK & vP & vO & vA & Hi' & Hs' & _).
  destruct H as (inputShape & weightShape & n & c & s1 & s2 & s3 & s4 & s5 & s6 & out &
          Hi & Hw & H1 & H2 & H3 & H4 & Hmax & Hn & Hc & Hlen & H5 & H6 & H7 & ->).
  rewrite Hi in Hi'. injection Hi' as <-.
  assert (0 <= fDim (started inputShape op) < 2 ^ 64) as Hd
    by (rewrite started_fDim; apply wrap_range).
  apply default_strides_inv in H1 as (? & -> & _); [|lia].
  apply default_dilations_inv in H2 as (? & -> & _); [|simpl; lia].
  apply default_kernel_shape_inv in H3 as (? & -> & _); [|simpl; lia].
  apply default_output_padding_inv in H4 as (? & -> & _); [|simpl; lia].
  apply default_output_shape_inv in H5 as (? & -> & _); [|simpl; lia].
  apply default_pads_inv in H6 as (? & -> & _); [|simpl; lia].
  apply copy_output_shape_inv in H7 as (_ & _ & Hout); [|simpl; lia].
  exists weightShape, c, out. simpl in Hout.
  rewrite started_group in Hout.
  repeat split; try assumption.
  - rewrite Hout. unfold outShape_head. apply list_lookup_insert_eq.
    rewrite length_insert, length_replicate. exact Hlen.
  - rewrite Hs'. simpl. apply started_group.
Qed.

Lemma ShapeInference_output_channels_witness :
  ShapeInference [[1; 3; 8; 8]; [3; 2; 3; 3]] conv2d_shaped = Ok [[1; 2; 10; 10]] conv2d_inferred /\
  exists weightShape c out,
    [[1; 3; 8; 8]; [3; 2; 3; 3]] !! 1%nat = Some weightShape /\ weightShape !! 1%nat = Some c /\
    [[1; 2; 10; 10]] = [out] /\
    out !! 1%nat = Some (c * (if fAttrGroup conv2d_shaped =? 0 then 1
                              else fAttrGroup conv2d_shaped))%sz /\
    fAttrGroup conv2d_inferred = (if fAttrGroup conv2d_shaped =? 0 then 1
                                  else fAttrGroup conv2d_shaped).
Proof.
  split; [vm_compute; reflexivity|].
  apply (ShapeInference_output_channels [[1; 3; 8; 8]; [3; 2; 3; 3]] conv2d_shaped).
  vm_compute; reflexivity.
Defined.

(** C7. Calling [ShapeInference] a second time with the same shapes, on the
    operator as the first call left it, returns the same list of shapes (and
    leaves the operator as it is), although the first call may have filled in
    strides, dilations, kernel shape, output padding, output shape and pads. *)
Theorem ShapeInference_idempotent
    (input : list (list Z)) (op op1 : Op) (ret : list (list Z)) :
  ShapeInference input op = Ok ret op1 ->
  ShapeInference input op1 = Ok ret op1.
Proof.
  intros H. apply ShapeInference_ok_intro, ShapeInference_run_again with (s := op).
  apply ShapeInference_ok_inv, H.
Qed.

Lemma ShapeInference_idempotent_witness :
  ShapeInference [[1; 3; 8; 8]; [3; 2; 3; 3]] conv2d_shaped = Ok [[1; 2; 10; 10]] conv2d_inferred /\
  conv2d_shaped <> conv2d_inferred /\
  ShapeInference [[1; 3; 8; 8]; [3; 2; 3; 3]] conv2d_inferred = Ok [[1; 2; 10; 10]] conv2d_inferred.
Proof.
  split; [vm_compute; reflexivity|]. split; [discriminate|].
  apply (ShapeInference_idempotent [[1; 3; 8; 8]; [3; 2; 3; 3]] conv2d_shaped).
  vm_compute; reflexivity.
Defined.







(** The operators of the examples are what [Initialize] leaves of the
    parsed ones. *)
Lemma examples_initialized :
  (exists m', Initialize (mkWorld conv2d_padded model_xw [])
              = Ok tt (mkWorld conv2d_padded_initialized m' [])) /\
  (exists m', Initialize (mkWorld conv1d_padded model_xw_1d [])
              = Ok tt (mkWorld conv1d_padded_initialized m' [])).
Proof. split; eexists; vm_compute; reflexivity. Qed.

(** On two and three spatial axes [Generate] averages asymmetric pads. Let
    the operator be initialised for two or three spatial axes, with pads that
    differ between the two sides of some axis. Then [Generate] returns code;
    it writes the one warning line to standard output, leaves the model
    alone, and changes the operator only in the pads: the pad before every
    axis becomes the [size_t] average [(before + after) / 2] of the two pads
    of that axis, the pads after the axes stay. *)
Theorem Generate_averages_asymmetric_pads {RModel ETensorType TensorData : Type}
    `{!Env RModel ETensorType TensorData}
    (n : nat) (op : Op) (m : RModel) (out : list string) (name : string) :
  n = 2%nat \/ n = 3%nat ->
  initialized n op ->
  asymmetric n (fAttrPads op) ->
  exists code pads',
    Generate name (mkWorld op m out) =
      Ok code (mkWorld (set_fAttrPads pads' op) m (out ++ [pads_warning])) /\
    averaged n (fAttrPads op) pads'.
Proof.
  intros Hn (Hdim & HX & HW & HY & HB & HS & HD & HK & HP & HG) (i & Hi & Hasym).
  destruct op as [ap dil g ker opd os pads str nx nw nb nbb ny sx sw sb sy ty dim us].
  simpl in *. subst dim.
  destruct Hn as [-> | ->]; simpl in *.
  - destruct dil as [|d0 [|d1 [|? ?]]]; try discriminate HD.
    destruct ker as [|k0 [|k1 [|? ?]]]; try discriminate HK.
    destruct str as [|s0 [|s1 [|? ?]]]; try discriminate HS.
    destruct pads as [|p0 [|p1 [|p2 [|p3 [|? ?]]]]]; try discriminate HP.
    destruct sx as [|x0 [|x1 [|x2 [|x3 [|? ?]]]]]; try discriminate HX.
    destruct sw as [|w0 [|w1 [|w2 [|w3 [|? ?]]]]]; try discriminate HW.
    destruct sy as [|y0 [|y1 [|y2 [|y3 [|? ?]]]]]; try discriminate HY.
    destruct (Generate_2d ap d0 d1 g k0 k1 opd os p0 p1 p2 p3 s0 s1 nx nw nb nbb ny
                x0 x1 x2 x3 w0 w1 w2 w3 sb y0 y1 y2 y3 ty us m out name HG HB)
      as (code & Hc).
    { destruct i as [|[|i]]; simpl in Hasym; [left | right | lia]; congruence. }
    eexists _, _. split; [exact Hc|]. split; [reflexivity|].
    intros j. split.
    + intros Hj b a Eb Ea. destruct j as [|[|j]]; simpl in *; [| | lia]; congruence.
    + intros Hj. destruct j as [|[|j]]; [lia | lia | reflexivity].
  - destruct dil as [|d0 [|d1 [|d2 [|? ?]]]]; try discriminate HD.
    destruct ker as [|k0 [|k1 [|k2 [|? ?]]]]; try discriminate HK.
    destruct str as [|s0 [|s1 [|s2 [|? ?]]]]; try discriminate HS.
    destruct pads as [|p0 [|p1 [|p2 [|p3 [|p4 [|p5 [|? ?]]]]]]]; try discriminate HP.
    destruct sx as [|x0 [|x1 [|x2 [|x3 [|x4 [|? ?]]]]]]; try discriminate HX.
    destruct sw as [|w0 [|w1 [|w2 [|w3 [|w4 [|? ?]]]]]]; try discriminate HW.
    destruct sy as [|y0 [|y1 [|y2 [|y3 [|y4 [|? ?]]]]]]; try discriminate HY.
    destruct (Generate_3d ap d0 d1 d2 g k0 k1 k2 opd os p0 p1 p2 p3 p4 p5 s0 s1 s2 nx nw nb
                nbb ny x0 x1 x2 x3 x4 w0 w1 w2 w3 w4 sb y0 y1 y2 y3 y4 ty us m out name HG HB)
      as (code & Hc).
    { destruct i as [|[|[|i]]]; simpl in Hasym;
        [left | right; left | right; right | lia]; congruence. }
    eexists _, _. split; [exact Hc|]. split; [reflexivity|].
    intros j. split.
    + intros Hj b a Eb Ea. destruct j as [|[|[|j]]]; simpl in *; [| | | lia]; congruence.
    + intros Hj. destruct j as [|[|[|j]]]; [lia | lia | lia | reflexivity].
Qed.

Lemma Generate_averages_asymmetric_pads_witness :
  exists code pads',
    Generate "0" (mkWorld conv2d_padded_initialized model_xw []) =
      Ok code (mkWorld (set_fAttrPads pads' conv2d_padded_initialized) model_xw
                 ([] ++ [pads_warning])) /\
    averaged 2 (fAttrPads conv2d_padded_initialized) pads'.
Proof.
  apply (Generate_averages_asymmetric_pads 2 conv2d_padded_initialized model_xw [] "0").
  - left; reflexivity.
  - unfold initialized; simpl.
    repeat split; try reflexivity; try discriminate. intros N; destruct (N eq_refl).
  - exists 0%nat. split; [lia | simpl; discriminate].
Defined.

(** Asked for code before [Initialize] has stored the shapes, [Generate]
    throws at its guard, whatever the pads. *)
Lemma Generate_before_Initialize_throws :
  asymmetric 2 (fAttrPads conv2d_padded) /\
  Generate "0" (mkWorld conv2d_padded model_xw []) =
    Throw "TMVA SOFIE Conv Op called to Generate without being initialized first"
      (mkWorld conv2d_padded model_xw []).
Proof.
  split; [exists 0%nat; split; [lia | simpl; discriminate] | reflexivity].
Qed.

(** C3 fails on the code by a slip, for one spatial axis. The operator with
    input (1,3,8), weights (3,2,3) and the pads 1 before and 2 after the axis
    is initialised without complaint, and its pads are asymmetric. [Generate]
    then treats the one axis as the second of two: it reads
    [fAttrDilations[1]] (and further on writes [fAttrStrides[1]]) in vectors
    that shape inference sized for one axis, so that the call has no defined
    behaviour, where the claim has a warning, an averaged pad and code. *)
Theorem Generate_fails_on_one_axis :
  exists m',
    Initialize (mkWorld conv1d_padded model_xw_1d [])
      = Ok tt (mkWorld conv1d_padded_initialized m' []) /\
    initialized 1 conv1d_padded_initialized /\
    asymmetric 1 (fAttrPads conv1d_padded_initialized) /\
    forall name, Generate name (mkWorld conv1d_padded_initialized m' []) = Undefined.
Proof.
  assert (exists m', Initialize (mkWorld conv1d_padded model_xw_1d [])
                     = Ok tt (mkWorld conv1d_padded_initialized m' [])) as (m' & Hrun)
    by (eexists; vm_compute; reflexivity).
  exists m'. split; [exact Hrun|]. split.
  - unfold initialized; simpl.
    repeat split; try reflexivity; try discriminate. intros N; destruct (N eq_refl).
  - split; [exists 0%nat; split; [lia | simpl; discriminate]|].
    intros name. apply Generate_1d. intros N; destruct (N eq_refl).
Qed.

End ConvTranspose.

Section Johnson.
Import RooFit RooJohnsonFacts JohnsonExamples SamplingFacts.

(** C4, as the code has it, in binary64. Let lambda and delta be above 0,
    and let the [exp] of the C library return no value with the sign bit
    set. Then [evaluate] never returns a negative value: its result is NaN or
    a number that is not below 0; and it is exactly 0 when the mass is below
    the threshold. It is NaN whenever the mass is NaN. *)
Theorem evaluate_never_negative (libm : Binary64.Libm) (self : RooJohnson Binary64.float) :
  (forall x, Binary64.unsigned (Binary64.exp libm x)) ->
  SFltb Binary64.zero (val (_lambda self)) = true ->
  SFltb Binary64.zero (val (_delta self)) = true ->
  (evaluate (Double0 := Binary64.binary64 libm) self = Binary64.nan
   \/ SFleb Binary64.zero (evaluate (Double0 := Binary64.binary64 libm) self) = true) /\
  SFltb (evaluate (Double0 := Binary64.binary64 libm) self) Binary64.zero = false /\
  (SFltb (val (_mass self)) (_massThreshold self) = true ->
   evaluate (Double0 := Binary64.binary64 libm) self = Binary64.zero) /\
  (val (_mass self) = Binary64.nan ->
   evaluate (Double0 := Binary64.binary64 libm) self = Binary64.nan).
Proof.
  intros Hexp Hl Hd.
  destruct (Binary64Facts.unsigned_not_negative _
              (Binary64Facts.evaluate_unsigned libm Hexp self Hl Hd)) as (Hlt & Hge).
  split; [exact Hge|]. split; [exact Hlt|]. split.
  - intros Hm. apply (evaluate_below_threshold (Double0 := Binary64.binary64 libm)). exact Hm.
  - intros Hm. apply Binary64Facts.evaluate_nan. exact Hm.
Qed.

(** The instance of the spec, threshold 0 and mass -1: the value is 0. *)
Lemma evaluate_never_negative_witness :
  (evaluate (Double0 := Binary64.binary64 Binary64Examples.libm_at_zero)
     Binary64Examples.johnson_unit = Binary64.nan
   \/ SFleb Binary64.zero
        (evaluate (Double0 := Binary64.binary64 Binary64Examples.libm_at_zero)
           Binary64Examples.johnson_unit) = true) /\
  SFltb (evaluate (Double0 := Binary64.binary64 Binary64Examples.libm_at_zero)
           Binary64Examples.johnson_unit) Binary64.zero = false /\
  evaluate (Double0 := Binary64.binary64 Binary64Examples.libm_at_zero)
    Binary64Examples.johnson_unit = Binary64.zero.
Proof.
  destruct (evaluate_never_negative Binary64Examples.libm_at_zero
              Binary64Examples.johnson_unit) as (H1 & H2 & H3 & _).
  - intros x. reflexivity.
  - reflexivity.
  - reflexivity.
  - split; [exact H1|]. split; [exact H2|]. apply H3. reflexivity.
Defined.

(** C4, as the spec has it, fails in binary64: the value of [evaluate] can
    be NaN, which is not a non-negative value. It is NaN whenever the mass is
    NaN, whatever the C library; and it is NaN for mass and mean 0, lambda
    1e-300, gamma 100 and delta 1e10, where the factor in front of the
    exponential overflows to infinity and the exponential, [exp(-5000)],
    underflows to 0 (with [asinh(0) = 0], as the C standard has it). *)
Lemma evaluate_not_a_number :
  SFltb Binary64.zero (val (_lambda Binary64Examples.johnson_nan)) = true /\
  SFltb Binary64.zero (val (_delta Binary64Examples.johnson_nan)) = true /\
  (forall libm : Binary64.Libm,
     evaluate (Double0 := Binary64.binary64 libm) Binary64Examples.johnson_nan
     = Binary64.nan) /\
  SFltb Binary64.zero (val (_lambda Binary64Examples.johnson_overflow)) = true /\
  SFltb Binary64.zero (val (_delta Binary64Examples.johnson_overflow)) = true /\
  (forall libm : Binary64.Libm,
     Binary64.asinh libm Binary64.zero = Binary64.zero ->
     Binary64.exp libm (S754_finite true 5497558138880000 (-40)) = Binary64.zero ->
     evaluate (Double0 := Binary64.binary64 libm) Binary64Examples.johnson_overflow
     = Binary64.nan) /\
  SFleb Binary64.zero Binary64.nan = false /\
  SFltb Binary64.nan Binary64.zero = false.
Proof.
  split; [reflexivity|]. split; [reflexivity|]. split; [intros libm; reflexivity|].
  split; [reflexivity|]. split; [reflexivity|]. split; [|split; reflexivity].
  intros libm Hasinh Hexp.
  cbv beta iota zeta delta [evaluate Binary64Examples.johnson_overflow Binary64Examples.fixed
    val _mass _mu _lambda _gamma _delta _massThreshold Binary64.binary64 dlt dsub ddiv dadd
    dmul dneg dsqrt dexp dasinh lit_0 lit_05 lit_1 TwoPi].
  replace (SFdiv Binary64.prec Binary64.emax
             (SFsub Binary64.prec Binary64.emax Binary64.zero Binary64.zero)
             (S754_finite false 6032057205060441 (-1049))) with Binary64.zero
    by (vm_compute; reflexivity).
  rewrite Hasinh.
  match goal with
  | |- context [Binary64.exp libm ?a] =>
      replace a with (S754_finite true 5497558138880000 (-40)) by (vm_compute; reflexivity)
  end.
  rewrite Hexp. vm_compute. reflexivity.
Qed.

(** C9, as the code has it. There are two explicit error paths, both for a
    code that was not advertised. [generateEvent] throws for every code other
    than 1, and 1 is the only code [getGenerator] answers with besides 0. For
    the code 1 it raises nothing, but it need not return either: it returns
    as soon as a deviate gives a mass that passes the test, and when no
    deviate does it draws for ever. [analyticalIntegral] returns for the five
    codes of [getAnalyticalIntegral]; for any other code it runs into
    [assert(false)], which ends the process unless the build defines
    [NDEBUG]. ([evaluate] is a function of the members: it has no way to
    fail.) *)
Theorem RooJohnson_error_paths {D RooArgSet : Type} `{!Double D} `{!RooFitEnv}
    (matchArgs : RooArgSet -> RooRealProxy D -> M RooArgSet bool) :
  consecutive ->
  (forall fuel code (s : Sampling D), code <> 1 ->
     generateEvent fuel code s =
     Some (Throw "Generation in other variables not yet implemented." s)) /\
  (forall fuel (s : Sampling D) r, generateEvent fuel 1 s = Some r -> exists s', r = Ok tt s') /\
  (forall (k fuel : nat) (s : Sampling D), (k < fuel)%nat ->
     acceptable (pdf s) (candidate (pdf s) (randomGenerator s k)) ->
     exists s', generateEvent fuel 1 s = Some (Ok tt s')) /\
  (forall (s : Sampling D),
     (forall k, ~ acceptable (pdf s) (candidate (pdf s) (randomGenerator s k))) ->
     forall fuel, generateEvent fuel 1 s = None) /\
  (forall (self : RooJohnson D) directVars generateVars c generateVars',
     getGenerator matchArgs self directVars generateVars = Ok c generateVars' ->
     c = 0 \/ c = 1) /\
  (forall code rangeName (self : RooJohnson D), advertised code ->
     exists v, analyticalIntegral code rangeName self = Ok v self) /\
  (forall code rangeName (self : RooJohnson D), ~ advertised code ->
     if NDEBUG then exists v, analyticalIntegral code rangeName self = Ok v self
     else analyticalIntegral code rangeName self = Abort "Assertion failed: false").
Proof.
  intros Henum. repeat split.
  - intros fuel code s Hc. apply generateEvent_other_code, Hc.
  - intros fuel s r Hr. unfold generateEvent in Hr. simpl in Hr.
    apply generate_mass_inv in Hr as (mass & g & -> & _). eauto.
  - intros k fuel s Hk Hacc. unfold generateEvent. rewrite Z.eqb_refl.
    apply (generate_mass_returns_within k fuel s Hk Hacc).
  - intros s Hno fuel. unfold generateEvent. rewrite Z.eqb_refl.
    apply generate_mass_never, Hno.
  - intros self dv gv c gv' Hg. exact (getGenerator_codes matchArgs self dv gv gv' c Hg).
  - intros code rangeName self Hadv. apply analyticalIntegral_advertised; assumption.
  - intros code rangeName self Hadv. destruct NDEBUG eqn:HN.
    + apply analyticalIntegral_release, HN.
    + apply analyticalIntegral_other_code; assumption.
Qed.

(** On the standard curve: the code 2 throws; with a generator of zeros the
    first draw gives the mass 0 and the call returns; with the threshold
    above the mass range no mass can pass the test and the call has not
    returned after any number of draws, whatever the generator gives; the
    code of the mass is integrated, the code 0 runs into the assertion. *)
Lemma RooJohnson_error_paths_witness :
  generateEvent 1 2 sampling_zero =
    Some (Throw "Generation in other variables not yet implemented." sampling_zero) /\
  (exists s', generateEvent 1 1 sampling_zero = Some (Ok tt s')) /\
  (forall fuel gen, generateEvent fuel 1 (mkSampling johnson_cut gen) = None) /\
  (forall directVars generateVars c generateVars',
     getGenerator matchArgs_all johnson_unit directVars generateVars = Ok c generateVars' ->
     c = 0 \/ c = 1) /\
  (exists v, analyticalIntegral kMass None johnson_unit = Ok v johnson_unit) /\
  analyticalIntegral 0 None johnson_unit = Abort "Assertion failed: false".
Proof.
  destruct (RooJohnson_error_paths (D := R) matchArgs_all)
    as (H1 & _ & H3 & H4 & H5 & H6 & H7).
  { repeat split. }
  split; [apply H1; discriminate|].
  split.
  { apply (H3 0%nat 1%nat sampling_zero); [lia|].
    change (acceptable johnson_unit (candidate johnson_unit 0%R)).
    rewrite sampling_zero_candidate. unfold acceptable. simpl.
    rewrite !leb_true. lra. }
  split.
  { intros fuel gen. apply H4. intros k (_ & A2 & A3). apply leb_true in A2, A3.
    cbn [pdf johnson_cut max _mass _massThreshold] in A2, A3. lra. }
  split; [apply H5|].
  split; [apply H6; left; reflexivity|].
  apply (H7 0 None johnson_unit). unfold advertised. simpl. lia.
Defined.

(** C9, as the spec has it, fails: with assertions enabled,
    [analyticalIntegral] ends the process when it is handed 0, the answer of
    [getAnalyticalIntegral] for "no analytical integral". *)
Lemma analyticalIntegral_asserts :
  ~ advertised 0 /\
  analyticalIntegral 0 None johnson_unit = Abort "Assertion failed: false".
Proof.
  split; [| reflexivity].
  unfold advertised. simpl. lia.
Qed.




(** C10. Whenever [generateEvent(1)] returns, the mass it has assigned
    passed the test: it is not below the lower limit of the mass, not above
    its upper limit, and not below the threshold; and the object differs from
    the one before the call only in the value of the mass. *)
Theorem generateEvent_mass_in_range {D : Type} `{!Double D} (fuel : nat) (s s' : Sampling D) :
  generateEvent fuel 1 s = Some (Ok tt s') ->
  acceptable (pdf s) (val (_mass (pdf s'))) /\
  pdf s' = assign_mass (val (_mass (pdf s'))) (pdf s).
Proof.
  unfold generateEvent. simpl. intros Hr.
  apply generate_mass_inv in Hr as (mass & g & [= ->] & Hacc). simpl.
  split; [exact Hacc | reflexivity].
Qed.

Lemma generateEvent_mass_in_range_witness :
  exists s',
    generateEvent 1 1 sampling_zero = Some (Ok tt s') /\
    acceptable johnson_unit (val (_mass (pdf s'))) /\
    pdf s' = assign_mass (val (_mass (pdf s'))) johnson_unit.
Proof.
  destruct (generate_mass_returns 0 sampling_zero) as (s' & Hs').
  { change (acceptable johnson_unit (candidate johnson_unit 0%R)).
    rewrite sampling_zero_candidate. unfold acceptable. simpl.
    rewrite !leb_true. lra. }
  exists s'. split; [exact Hs'|].
  exact (generateEvent_mass_in_range 1 sampling_zero s' Hs').
Defined.

End Johnson.

End Claims.


(** * Further properties of the code *)

Module Extras.
Import SOFIE CxxFacts ShapeInferenceFacts Exec ShapeInferenceTotal ShapeInferenceMore
  SessionFacts InitializeInversion GenerateFacts Examples MoreExamples.

Section ConvTranspose.

(** X1. Whenever [ShapeInference] returns, its argument held two shapes, the
    first of rank 2 at least, and the result is one shape of that rank: the
    batch size of the input, the second entry of the weight shape times the
    group count (which is not 0 afterwards), and then, axis by axis, the
    entries of the output-shape attribute as the call leaves it. The
    dimension stored is the rank less 2. *)
Theorem ShapeInference_returns_shape (input : list (list Z)) (s : Op) (ret : list (list Z))
    (s' : Op) :
  ShapeInference input s = Ok ret s' ->
  exists inputShape weightShape out b c,
    input !! 0%nat = Some inputShape /\ input !! 1%nat = Some weightShape /\
    (2 <= length inputShape)%nat /\
    ret = [out] /\ length out = length inputShape /\
    fDim s' = Z.of_nat (length inputShape - 2) /\
    inputShape !! 0%nat = Some b /\ out !! 0%nat = Some b /\
    weightShape !! 1%nat = Some c /\ out !! 1%nat = Some (c * fAttrGroup s')%sz /\
    fAttrGroup s' <> 0 /\
    forall i : nat, (i < length inputShape - 2)%nat ->
      is_Some (fAttrOutputShape s' !! i) /\ out !! (i + 2)%nat = fAttrOutputShape s' !! i.
Proof.
  intros H. apply ShapeInference_ok_inv, ShapeInference_run_last in H.
  destruct H as (inputShape & weightShape & b & c & out & Hi & Hw & Hmax & Hlen & Hb & Hc &
                 Hdim & Hgroup & Hcopy & ->).
  apply copy_output_shape_entries in Hcopy as (_ & Hl & H0 & H1 & Hrest);
    [| lia | rewrite Hdim; unfold max_size in *; lia].
  unfold outShape_head in *. rewrite length_insert, length_insert, length_replicate in Hl.
  rewrite list_lookup_insert_ne, list_lookup_insert_eq in H0
    by (rewrite ?length_replicate; lia).
  rewrite list_lookup_insert_eq in H1 by (rewrite length_insert, length_replicate; lia).
  exists inputShape, weightShape, out, b, c.
  repeat split; try assumption; try lia.
  - apply Hrest. lia.
  - apply Hrest. lia.
Qed.

Lemma ShapeInference_returns_shape_witness :
  exists inputShape weightShape out b c,
    [[1; 3; 8; 8]; [3; 2; 3; 3]] !! 0%nat = Some inputShape /\
    [[1; 3; 8; 8]; [3; 2; 3; 3]] !! 1%nat = Some weightShape /\
    (2 <= length inputShape)%nat /\
    [[1; 2; 10; 10]] = [out] /\ length out = length inputShape /\
    fDim conv2d_inferred = Z.of_nat (length inputShape - 2) /\
    inputShape !! 0%nat = Some b /\ out !! 0%nat = Some b /\
    weightShape !! 1%nat = Some c /\
    out !! 1%nat = Some (c * fAttrGroup conv2d_inferred)%sz /\
    fAttrGroup conv2d_inferred <> 0 /\
    forall i : nat, (i < length inputShape - 2)%nat ->
      is_Some (fAttrOutputShape conv2d_inferred !! i) /\
      out !! (i + 2)%nat = fAttrOutputShape conv2d_inferred !! i.
Proof.
  apply (ShapeInference_returns_shape [[1; 3; 8; 8]; [3; 2; 3; 3]] conv2d_shaped).
  vm_compute. reflexivity.
Defined.

(** X2. [ShapeInference] writes to the dimension, to a group count of 0 and
    to the attribute vectors that were empty. An attribute vector that was
    given, a group count other than 0, the auto-pad mode, the tensor names,
    the stored shapes, the type and the session flag are after a call that
    returns what they were before it. *)
Theorem ShapeInference_keeps_given (input : list (list Z)) (s : Op) (ret : list (list Z))
    (s' : Op) :
  ShapeInference input s = Ok ret s' ->
  (fAttrStrides s <> [] -> fAttrStrides s' = fAttrStrides s) /\
  (fAttrDilations s <> [] -> fAttrDilations s' = fAttrDilations s) /\
  (fAttrKernelShape s <> [] -> fAttrKernelShape s' = fAttrKernelShape s) /\
  (fAttrOutputPadding s <> [] -> fAttrOutputPadding s' = fAttrOutputPadding s) /\
  (fAttrOutputShape s <> [] -> fAttrOutputShape s' = fAttrOutputShape s) /\
  (fAttrPads s <> [] -> fAttrPads s' = fAttrPads s) /\
  (fAttrGroup s <> 0 -> fAttrGroup s' = fAttrGroup s) /\
  fAttrAutopad s' = fAttrAutopad s /\
  fNX s' = fNX s /\ fNW s' = fNW s /\ fNB s' = fNB s /\ fNBroadcastedB s' = fNBroadcastedB s /\
  fNY s' = fNY s /\ fShapeX s' = fShapeX s /\ fShapeW s' = fShapeW s /\
  fShapeB s' = fShapeB s /\ fShapeY s' = fShapeY s /\ fType s' = fType s /\
  fUseSession s' = fUseSession s.
Proof.
  intros H. apply ShapeInference_ok_inv in H.
  destruct H as (inputShape & weightShape & n & c & s1 & s2 & s3 & s4 & s5 & s6 & out &
          Hi & Hw & H1 & H2 & H3 & H4 & Hmax & Hn & Hc & Hlen & H5 & H6 & H7 & ->).
  assert (0 <= fDim (started inputShape s) < 2 ^ 64) as Hd.
  { unfold started. destruct (fAttrGroup s =? 0); simpl; apply wrap_range. }
  pose proof H1 as K1. pose proof H2 as K2. pose proof H3 as K3. pose proof H4 as K4.
  pose proof H5 as K5. pose proof H6 as K6.
  apply default_strides_inv in H1 as (vS & -> & _); [|lia].
  apply default_dilations_inv in H2 as (vD & -> & _); [|simpl; lia].
  apply default_kernel_shape_inv in H3 as (vK & -> & _); [|simpl; lia].
  apply default_output_padding_inv in H4 as (vP & -> & _); [|simpl; lia].
  apply default_output_shape_inv in H5 as (vO & -> & _); [|simpl; lia].
  apply default_pads_inv in H6 as (vA & -> & _); [|simpl; lia].
  apply copy_output_shape_inv in H7 as (-> & _); [|simpl; lia].
  assert (started inputShape s =
          set_fAttrGroup (if fAttrGroup s =? 0 then 1 else fAttrGroup s)
            (set_fDim (Z.of_nat (length inputShape) - 2)%sz s)) as Est.
  { unfold started. destruct (fAttrGroup s =? 0) eqn:E; [reflexivity|]. destruct s; reflexivity. }
  rewrite Est in *. clear Est.
  repeat split; simpl; try reflexivity.
  - intros N. rewrite default_strides_settled in K1 by (left; exact N).
    injection K1. intros. simpl in *. congruence.
  - intros N. rewrite default_dilations_settled in K2 by (left; exact N).
    injection K2. intros. simpl in *. congruence.
  - intros N. rewrite default_kernel_shape_settled in K3 by (left; exact N).
    injection K3. intros. simpl in *. congruence.
  - intros N. rewrite default_output_padding_settled in K4 by (left; exact N).
    injection K4. intros. simpl in *. congruence.
  - intros N. rewrite default_output_shape_settled in K5 by (left; exact N).
    injection K5. intros. simpl in *. congruence.
  - intros N. rewrite default_pads_settled in K6 by (left; exact N).
    injection K6. intros. simpl in *. congruence.
  - intros N. apply Z.eqb_neq in N. rewrite N. reflexivity.
Qed.

Lemma ShapeInference_keeps_given_witness :
  fAttrStrides conv2d_inferred = fAttrStrides conv2d_shaped /\
  fShapeW conv2d_inferred = fShapeW conv2d_shaped /\
  fNY conv2d_inferred = fNY conv2d_shaped.
Proof.
  destruct (ShapeInference_keeps_given [[1; 3; 8; 8]; [3; 2; 3; 3]] conv2d_shaped
              [[1; 2; 10; 10]] conv2d_inferred ltac:(vm_compute; reflexivity))
    as (HS & _ & _ & _ & _ & _ & _ & _ & _ & _ & _ & _ & HY & _ & HW & _).
  split; [apply HS; discriminate|]. split; [exact HW | exact HY].
Defined.

(** X3. An output shape given as an attribute is what [ShapeInference]
    returns behind the batch size and the channel count, whatever the
    strides, the kernel and the input extents are; a call with fewer entries
    in the attribute than there are spatial axes does not return. *)
Theorem ShapeInference_explicit_output_shape (input : list (list Z)) (s : Op)
    (ret : list (list Z)) (s' : Op) :
  fAttrOutputShape s <> [] ->
  ShapeInference input s = Ok ret s' ->
  exists inputShape out,
    input !! 0%nat = Some inputShape /\ ret = [out] /\
    (length inputShape - 2 <= length (fAttrOutputShape s))%nat /\
    forall i : nat, (i < length inputShape - 2)%nat ->
      out !! (i + 2)%nat = fAttrOutputShape s !! i.
Proof.
  intros N H. apply ShapeInference_ok_inv in H.
  pose proof (output_shape_kept _ _ _ _ H N) as Hkept.
  apply ShapeInference_run_last in H.
  destruct H as (inputShape & weightShape & b & c & out & Hi & Hw & Hmax & Hlen & Hb & Hc &
                 Hdim & Hgroup & Hcopy & ->).
  apply copy_output_shape_entries in Hcopy as (_ & _ & _ & _ & Hrest);
    [| lia | rewrite Hdim; unfold max_size in *; lia].
  rewrite Hdim, Hkept in Hrest.
  exists inputShape, out. split; [exact Hi|]. split; [reflexivity|]. split.
  - destruct (Nat.le_gt_cases (length inputShape - 2) (length (fAttrOutputShape s)))
      as [L|L]; [exact L|].
    destruct (Hrest (length (fAttrOutputShape s)) ltac:(lia)) as ((x & Hx) & _).
    apply lookup_lt_Some in Hx. lia.
  - intros i Hi'. apply Hrest. lia.
Qed.

Lemma ShapeInference_explicit_output_shape_witness :
  exists inputShape out,
    [[1; 3; 8; 8]; [3; 2; 3; 3]] !! 0%nat = Some inputShape /\
    [[1; 2; 12; 11]] = [out] /\
    (length inputShape - 2 <= length (fAttrOutputShape conv2d_output_shape))%nat /\
    forall i : nat, (i < length inputShape - 2)%nat ->
      out !! (i + 2)%nat = fAttrOutputShape conv2d_output_shape !! i.
Proof.
  refine (ShapeInference_explicit_output_shape [[1; 3; 8; 8]; [3; 2; 3; 3]]
            conv2d_output_shape [[1; 2; 12; 11]]
            (set_fAttrPads [3; 3; 3; 2] (set_fAttrOutputPadding [0; 0]
               (set_fAttrKernelShape [3; 3] (set_fAttrDilations [1; 1]
                  (set_fAttrGroup 1 (set_fDim 2 conv2d_output_shape)))))) _ _).
  - discriminate.
  - vm_compute. reflexivity.
Defined.

(** X4. For one to three spatial axes, with the stored shapes of that rank
    and every attribute vector either absent or of the right length,
    [ShapeInference] returns, and afterwards every attribute vector has one
    entry per axis (the pads two), the dimension is the number of axes and
    the group count is not 0: the operator is ready for the indexing that
    [Generate] does. *)
Theorem ShapeInference_sizes_attributes (op : Op) (x w : list Z) (n : nat) :
  (1 <= n <= 3)%nat ->
  length x = (n + 2)%nat -> length w = (n + 2)%nat ->
  length (fShapeX op) = (n + 2)%nat -> length (fShapeW op) = (n + 2)%nat ->
  sized n (fAttrStrides op) -> sized n (fAttrDilations op) ->
  sized n (fAttrKernelShape op) -> sized n (fAttrOutputPadding op) ->
  sized n (fAttrOutputShape op) ->
  fAttrPads op = [] \/ length (fAttrPads op) = (2 * n)%nat ->
  exists out op',
    ShapeInference [x; w] op = Ok [out] op' /\
    length out = (n + 2)%nat /\
    fDim op' = Z.of_nat n /\ fAttrGroup op' <> 0 /\
    length (fAttrStrides op') = n /\ length (fAttrDilations op') = n /\
    length (fAttrKernelShape op') = n /\ length (fAttrOutputPadding op') = n /\
    length (fAttrOutputShape op') = n /\ length (fAttrPads op') = (2 * n)%nat.
Proof.
  intros Hn Hx Hw HX HW HS HD HK HP HO HA.
  destruct (ShapeInference_total op x w n Hn Hx Hw HX HW HS HD HK HP HO HA)
    as (out & vS & vD & vK & vP & vO & vA & b & c & Hrun & ES & ED & EP & LK & _ & _ & LO &
        _ & _ & LA & _ & Lout & _).
  eexists out, _. split; [exact Hrun|]. simpl.
  assert (forall (v : list Z) (d : Z),
            sized n v -> length (if empty v then replicate n d else v) = n) as Hlen.
  { intros v d [-> | Hv]; simpl; [apply length_replicate|].
    destruct v; [simpl in Hv; simpl; rewrite length_replicate; reflexivity | exact Hv]. }
  split; [exact Lout|].
  split; [rewrite started_fDim; unfold sz_sub; rewrite wrap_small; lia|].
  split; [apply Z.eqb_neq, started_group_nonzero|].
  subst vS vD vP. repeat split; auto.
Qed.

Lemma ShapeInference_sizes_attributes_witness :
  exists out op',
    ShapeInference [[1; 3; 8; 8]; [3; 2; 3; 3]] conv2d_shaped = Ok [out] op' /\
    length out = 4%nat /\
    fDim op' = 2 /\ fAttrGroup op' <> 0 /\
    length (fAttrStrides op') = 2%nat /\ length (fAttrDilations op') = 2%nat /\
    length (fAttrKernelShape op') = 2%nat /\ length (fAttrOutputPadding op') = 2%nat /\
    length (fAttrOutputShape op') = 2%nat /\ length (fAttrPads op') = 4%nat.
Proof.
  apply (ShapeInference_sizes_attributes conv2d_shaped [1; 3; 8; 8] [3; 2; 3; 3] 2);
    first [lia | reflexivity | left; reflexivity | right; reflexivity].
Defined.

(** X5. The pads [ShapeInference] computes when none are given: on every
    axis the two pads add up to the total padding
    [strides * (outputShape - 1) + outputPadding + kernelShape - inputExtent]
    (in [size_t]), split in halves; when the total is odd the extra one goes
    behind the axis for [SAME_UPPER] and in front of it for every other
    auto-pad mode. *)
Theorem default_pads_split (s : Op) (n : nat) :
  (1 <= n <= 3)%nat -> fDim s = Z.of_nat n -> fAttrPads s = [] ->
  length (fShapeX s) = (n + 2)%nat -> length (fAttrStrides s) = n ->
  length (fAttrOutputShape s) = n ->
  length (fAttrKernelShape s) = n -> length (fAttrOutputPadding s) = n ->
  exists v, default_pads s = Ok tt (set_fAttrPads v s) /\ length v = (2 * n)%nat /\
    forall i st o p k x,
      fAttrStrides s !! i = Some st -> fAttrOutputShape s !! i = Some o ->
      fAttrOutputPadding s !! i = Some p -> fAttrKernelShape s !! i = Some k ->
      fShapeX s !! (i + 2)%nat = Some x ->
      exists before after,
        v !! i = Some before /\ v !! (i + n)%nat = Some after /\
        before + after = (st * (o - 1) + p + k - x)%sz /\
        if String.eqb (fAttrAutopad s) "SAME_UPPER" then 0 <= after - before <= 1
        else 0 <= before - after <= 1.
Proof.
  intros Hn Hd HA HX HS HO HK HP.
  destruct (default_pads_entries s n Hn Hd HA HX HS HO HK HP) as (v & Hrun & Hlen & Hv).
  exists v. split; [exact Hrun|]. split; [exact Hlen|].
  intros i st o p k x Hs Ho Hp' Hk Hx.
  destruct (Hv i st o p k x Hs Ho Hp' Hk Hx) as (Hb & Ha).
  set (t := (st * (o - 1) + p + k - x)%sz) in *.
  assert (0 <= t < 2 ^ 64) as Ht by (unfold t, sz_sub; apply wrap_range).
  destruct (half_split t Ht) as (Hsum & Hdiff).
  eexists _, _. split; [exact Hb|]. split; [exact Ha|].
  destruct (String.eqb (fAttrAutopad s) "SAME_UPPER"); split; lia.
Qed.

Lemma default_pads_split_witness :
  exists v, default_pads (set_fAttrPads [] conv2d_inferred) = Ok tt conv2d_inferred /\
    v = fAttrPads conv2d_inferred /\ length v = 4%nat /\
    exists before after,
      v !! 0%nat = Some before /\ v !! 2%nat = Some after /\
      before + after = (1 * (10 - 1) + 0 + 3 - 8)%sz /\ 0 <= before - after <= 1.
Proof.
  destruct (default_pads_split (set_fAttrPads [] conv2d_inferred) 2)
    as (v & Hrun & Hlen & Hv); try reflexivity; try lia.
  exists v. vm_compute in Hrun. injection Hrun as <-.
  split; [reflexivity|]. split; [reflexivity|]. split; [exact Hlen|].
  exact (Hv 0%nat 1 10 0 3 8 eq_refl eq_refl eq_refl eq_refl eq_refl).
Defined.

(** X6. The default kernel shape is read from the weight shape the operator
    has stored, not from the weight shape it is called with: on an operator
    without a kernel shape whose stored weight shape has no entry for the
    first spatial axis (as before [Initialize]), [ShapeInference] on a
    shape with one to three spatial axes reads out of range. *)
Theorem ShapeInference_needs_stored_weight_shape (op : Op) (x w : list Z) (n : nat) :
  (1 <= n <= 3)%nat -> length x = (n + 2)%nat ->
  fAttrKernelShape op = [] -> (length (fShapeW op) <= 2)%nat ->
  ShapeInference [x; w] op = Undefined.
Proof.
  intros Hn Hx HK HW.
  destruct op as [ap dil g ker opd os pads str nx nw nb nbb ny sx sw sb sy ty dim us].
  simpl in *. subst ker.
  assert (exists a b rest, x = a :: b :: rest /\ length rest = n) as (a & b & rest & -> & Hr).
  { destruct x as [|a [|b rest]]; simpl in Hx; try lia. exists a, b, rest. split; [reflexivity|lia]. }
  assert (sw = [] \/ (exists w0, sw = [w0]) \/ exists w0 w1, sw = [w0; w1]) as Hsw.
  { destruct sw as [|w0 [|w1 [|? ?]]]; simpl in HW; eauto; lia. }
  clear HW Hx.
  by_rank n; explode.
  all: destruct Hsw as [-> | [(w0 & ->) | (w0 & w1 & ->)]].
  all: unfold ShapeInference, default_strides, default_dilations, default_kernel_shape.
  all: destruct str as [|? ?]; destruct dil as [|? ?]; destruct g as [|?|?]; run;
       reflexivity.
Qed.

Lemma ShapeInference_needs_stored_weight_shape_witness :
  ShapeInference [[1; 3; 8; 8]; [3; 2; 3; 3]] conv2d = Undefined.
Proof.
  apply (ShapeInference_needs_stored_weight_shape conv2d [1; 3; 8; 8] [3; 2; 3; 3] 2);
    first [lia | reflexivity | simpl; lia].
Defined.

(** X7. Let the operator name no bias, let the model answer for the input
    with a shape of rank [n + 2] and for the weights with a shape of the same
    rank ([Initialize] does not compare the two, see
    [Initialize_compares_no_ranks]), and let every attribute vector that is
    given have one entry for each of the [n] axes (the pads two). Then, when
    [Initialize] returns, [n] is 1, 2 or 3 and the operator left behind is an
    initialised one: [fDim] is [n], the three shapes are stored with rank
    [n + 2], every attribute vector has one entry per axis (the pads two),
    and the group count is not 0. Nothing was written to standard
    output. *)
Theorem Initialize_leaves_initialized {RModel ETensorType TensorData : Type}
    `{!Env RModel ETensorType TensorData} (w w' : World RModel) (n : nat) :
  fNB (self w) = "" ->
  (forall shapeX m1 shapeW m2,
     GetTensorShape (fNX (self w)) (model w) = Ok shapeX m1 ->
     GetTensorShape (fNW (self w)) m1 = Ok shapeW m2 ->
     length shapeX = (n + 2)%nat /\ length shapeW = (n + 2)%nat) ->
  sized n (fAttrStrides (self w)) -> sized n (fAttrDilations (self w)) ->
  sized n (fAttrKernelShape (self w)) -> sized n (fAttrOutputPadding (self w)) ->
  sized n (fAttrOutputShape (self w)) ->
  fAttrPads (self w) = [] \/ length (fAttrPads (self w)) = (2 * n)%nat ->
  Initialize w = Ok tt w' ->
  (1 <= n <= 3)%nat /\ initialized n (self w') /\ cout w' = cout w.
Proof.
  intros ENB Hshapes HS HD HK HP HO HA H.
  apply (Initialize_initializes w w' n ENB Hshapes H); assumption.
Qed.

Lemma Initialize_leaves_initialized_witness :
  exists w', Initialize (mkWorld conv2d_padded model_xw []) = Ok tt w' /\
    (1 <= 2 <= 3)%nat /\ initialized 2 (self w') /\ cout w' = [].
Proof.
  assert (exists m', Initialize (mkWorld conv2d_padded model_xw [])
                     = Ok tt (mkWorld conv2d_padded_initialized m' [])) as (m' & Hrun)
    by (eexists; vm_compute; reflexivity).
  eexists. split; [exact Hrun|].
  apply (Initialize_leaves_initialized (mkWorld conv2d_padded model_xw [])
           (mkWorld conv2d_padded_initialized m' []) 2 eq_refl);
    [ intros shapeX m1 shapeW m2 HX HW;
      vm_compute in HX; injection HX as <- <-;
      vm_compute in HW; injection HW as <- <-; split; reflexivity
    | right; reflexivity | left; reflexivity | left; reflexivity | left; reflexivity
    | left; reflexivity | right; reflexivity | exact Hrun ].
Defined.

(** X8. On an operator initialised for two or three spatial axes [Generate]
    returns code. It leaves the model alone and changes the operator in the
    pads only, the operator staying initialised; when no axis has pads that
    differ between its two sides it changes nothing at all and prints
    nothing, and otherwise it prints the one warning line. *)
Theorem Generate_returns_initialized {RModel ETensorType TensorData : Type}
    `{!Env RModel ETensorType TensorData} (n : nat) (w : World RModel) (name : string) :
  n = 2%nat \/ n = 3%nat ->
  initialized n (self w) ->
  exists code w',
    Generate name w = Ok code w' /\
    model w' = model w /\ initialized n (self w') /\
    self w' = set_fAttrPads (fAttrPads (self w')) (self w) /\
    (asymmetric n (fAttrPads (self w)) -> cout w' = cout w ++ [pads_warning]) /\
    (~ asymmetric n (fAttrPads (self w)) -> w' = w).
Proof.
  intros Hn Hinit. destruct w as [op m out]. simpl in *.
  destruct (Generate_total n op m out name Hn Hinit)
    as (code & op' & out' & Hrun & Hinit' & Hpads & Hasym & Hsym).
  exists code, (mkWorld op' m out'). simpl.
  split; [exact Hrun|]. split; [reflexivity|]. split; [exact Hinit'|].
  split; [exact Hpads|]. split; [exact Hasym|].
  intros Hs. destruct (Hsym Hs) as (-> & ->). reflexivity.
Qed.

Lemma Generate_returns_initialized_witness :
  exists code w',
    Generate "0" (mkWorld conv2d_padded_initialized model_xw []) = Ok code w' /\
    model w' = model_xw /\ initialized 2 (self w') /\
    self w' = set_fAttrPads (fAttrPads (self w')) conv2d_padded_initialized /\
    (asymmetric 2 [0; 0; 2; 0] -> cout w' = [] ++ [pads_warning]) /\
    (~ asymmetric 2 [0; 0; 2; 0] -> w' = mkWorld conv2d_padded_initialized model_xw []).
Proof.
  apply (Generate_returns_initialized 2 (mkWorld conv2d_padded_initialized model_xw []) "0").
  - left; reflexivity.
  - repeat split; try reflexivity; simpl; congruence.
Defined.

(** X9. [Initialize] and [Generate] compose. Let the operator name no bias,
    let the model answer for the input with a shape of two or three spatial
    axes [n] and for the weights with a shape of the same rank [n + 2] (which
    [Initialize] does not check), and let every attribute vector that is
    given have one entry for each axis (the pads two). Then, when
    [Initialize] returns, [Generate] on the state it leaves returns code,
    without touching the model: the guard at the head of [Generate] is passed
    and every index is in range. *)
Theorem Initialize_then_Generate {RModel ETensorType TensorData : Type}
    `{!Env RModel ETensorType TensorData} (w w' : World RModel) (n : nat) (name : string) :
  n = 2%nat \/ n = 3%nat ->
  fNB (self w) = "" ->
  (forall shapeX m1 shapeW m2,
     GetTensorShape (fNX (self w)) (model w) = Ok shapeX m1 ->
     GetTensorShape (fNW (self w)) m1 = Ok shapeW m2 ->
     length shapeX = (n + 2)%nat /\ length shapeW = (n + 2)%nat) ->
  sized n (fAttrStrides (self w)) -> sized n (fAttrDilations (self w)) ->
  sized n (fAttrKernelShape (self w)) -> sized n (fAttrOutputPadding (self w)) ->
  sized n (fAttrOutputShape (self w)) ->
  fAttrPads (self w) = [] \/ length (fAttrPads (self w)) = (2 * n)%nat ->
  Initialize w = Ok tt w' ->
  exists code w'', Generate name w' = Ok code w'' /\ model w'' = model w'.
Proof.
  intros Hn ENB Hshapes HS HD HK HP HO HA H.
  destruct (Initialize_initializes w w' n ENB Hshapes H) as (_ & Hinit & _); try assumption.
  destruct w' as [op m out]. simpl in *.
  destruct (Generate_total n op m out name Hn Hinit) as (code & op' & out' & Hrun & _).
  exists code, (mkWorld op' m out'). split; [exact Hrun | reflexivity].
Qed.

Lemma Initialize_then_Generate_witness :
  exists w' code w'',
    Initialize (mkWorld conv2d_padded model_xw []) = Ok tt w' /\
    Generate "0" w' = Ok code w'' /\ model w'' = model w'.
Proof.
  assert (exists m', Initialize (mkWorld conv2d_padded model_xw [])
                     = Ok tt (mkWorld conv2d_padded_initialized m' [])) as (m' & Hrun)
    by (eexists; vm_compute; reflexivity).
  destruct (Initialize_then_Generate (mkWorld conv2d_padded model_xw [])
              (mkWorld conv2d_padded_initialized m' []) 2 "0"
              (or_introl eq_refl) eq_refl) as (code & w'' & Hgen & Hm);
    [ intros shapeX m1 shapeW m2 HX HW;
      vm_compute in HX; injection HX as <- <-;
      vm_compute in HW; injection HW as <- <-; split; reflexivity
    | right; reflexivity | left; reflexivity | left; reflexivity | left; reflexivity
    | left; reflexivity | right; reflexivity | exact Hrun | ].
  eexists _, code, w''. split; [exact Hrun|]. split; [exact Hgen | exact Hm].
Defined.

(** X10. On an initialised operator [GenerateSessionMembersCode] returns
    the declarations of two vectors and leaves the operator as it is: the
    kernel matrix has [fShapeW[0] * fShapeW[1]] times the product of the
    kernel shape entries, the im2col matrix that product times the product of
    the spatial extents of the output, both in [size_t] arithmetic. *)
Theorem GenerateSessionMembersCode_sizes (opName : string) (op : Op) (n : nat)
    (b c y w0 w1 k : Z) (ys ws ks : list Z) :
  initialized n op -> Z.of_nat n + 2 <= 2 ^ 64 ->
  fShapeY op = b :: c :: y :: ys -> fAttrKernelShape op = k :: ks ->
  fShapeW op = w0 :: w1 :: ws ->
  GenerateSessionMembersCode opName op
  = Ok (session_members (fType op) opName
          (w0 * w1 * volume k ks)%sz (volume k ks * volume y ys)%sz) op.
Proof.
  intros (HD & _ & _ & LY & _ & _ & _ & LK & _) Hb HY HK HW.
  rewrite HY in LY. rewrite HK in LK. simpl in LY, LK.
  unfold GenerateSessionMembersCode.
  erewrite bind_ok; [|apply rd_ok; rewrite HY; reflexivity].
  erewrite bind_ok; [|apply rd_ok; rewrite HK; reflexivity].
  erewrite bind_ok; [|apply gets_eq].
  erewrite bind_ok; cycle 1.
  { rewrite HD. replace (Z.to_nat (Z.of_nat n - 1)) with (n - 1)%nat by lia.
    apply (session_loop op (n - 1) 1 y k ys ks); try lia.
    - intros j v Hj. rewrite HY. exact Hj.
    - intros j v Hj. rewrite HK. exact Hj. }
  cbv beta iota.
  erewrite bind_ok; [|apply gets_eq].
  erewrite bind_ok; [|apply rd_ok; rewrite HW; reflexivity].
  erewrite bind_ok; [|apply rd_ok; rewrite HW; reflexivity].
  cbv zeta. unfold session_members, ret. f_equal.
  rewrite !append_assoc. reflexivity.
Qed.

Lemma GenerateSessionMembersCode_sizes_witness :
  GenerateSessionMembersCode "0" conv2d_padded_initialized
  = Ok (session_members "float" "0" 54 900) conv2d_padded_initialized.
Proof.
  apply (GenerateSessionMembersCode_sizes "0" conv2d_padded_initialized 2
           1 2 10 3 2 3 [10] [3; 3] [3]);
    first [reflexivity | lia | repeat split; try reflexivity; simpl; congruence].
Defined.

(** X11. [GenerateSessionMembersCode] has no guard of the kind [Generate]
    opens with: on an operator whose output shape has not been stored (fewer
    than three entries, as before [Initialize]) its first statement reads
    [fShapeY[2]] out of range. *)
Theorem GenerateSessionMembersCode_uninitialized (opName : string) (op : Op) :
  (length (fShapeY op) <= 2)%nat -> GenerateSessionMembersCode opName op = Undefined.
Proof.
  intros L. unfold GenerateSessionMembersCode.
  rewrite bind_eq. unfold rd. rewrite bind_eq, gets_eq. unfold at_.
  rewrite (proj2 (lookup_ge_None (fShapeY op) (Z.to_nat 2))) by (simpl; lia).
  reflexivity.
Qed.

Lemma GenerateSessionMembersCode_uninitialized_witness :
  GenerateSessionMembersCode "0" conv2d = Undefined.
Proof. apply (GenerateSessionMembersCode_uninitialized "0" conv2d). simpl. lia. Defined.

(** X12. For one spatial axis [Generate] does not work: on every operator
    initialised for one axis it passes its guard and then reads
    [fAttrDilations[1]] (the index [ih] is 1 when the dimension is 1), past
    the single entry the vector has. *)
Theorem Generate_one_axis_undefined {RModel ETensorType TensorData : Type}
    `{!Env RModel ETensorType TensorData} (w : World RModel) (name : string) :
  initialized 1 (self w) -> Generate name w = Undefined.
Proof.
  intros (Hdim & HX & HW & HY & HB & HS & HD & HK & HP & HG).
  destruct w as [op m out].
  destruct op as [ap dil g ker opd os pads str nx nw nb nbb ny sx sw sb sy ty dim us].
  simpl in *. subst dim.
  destruct dil as [|d0 [|? ?]]; try discriminate HD.
  destruct ker as [|k0 [|? ?]]; try discriminate HK.
  destruct str as [|s0 [|? ?]]; try discriminate HS.
  destruct sx as [|x0 [|x1 [|x2 [|? ?]]]]; try discriminate HX.
  destruct sw as [|w0 [|w1 [|w2 [|? ?]]]]; try discriminate HW.
  destruct sy as [|y0 [|y1 [|y2 [|? ?]]]]; try discriminate HY.
  apply Generate_1d. exact HB.
Qed.

Lemma Generate_one_axis_undefined_witness :
  Generate "0" (mkWorld conv1d_padded_initialized model_xw_1d []) = Undefined.
Proof.
  apply (Generate_one_axis_undefined (mkWorld conv1d_padded_initialized model_xw_1d []) "0").
  repeat split; try reflexivity; simpl; congruence.
Defined.

End ConvTranspose.

Section Johnson.
Import RooFit RooJohnsonFacts JohnsonExamples ErfcFacts JohnsonIntegral JohnsonCode
  GammaIntegral.

(** X14. [generateEvent] and [evaluate] use the same change of variable. At
    the mass [lambda * sinh((gauss - gamma) / delta) + mu] that
    [generateEvent] computes from the normal deviate [gauss], [evaluate]
    gives the normal density of [gauss] (the factor [exp(-gauss^2 / 2) /
    sqrt(2 pi)]) times the derivative [delta / (lambda * sqrt(1 + sinh(u)^2))]
    of the deviate in the mass, where [u = (gauss - gamma) / delta]; the
    [asinh] of the one undoes the [sinh] of the other. *)
Theorem evaluate_at_generated_mass (self : RooJohnson R) (gauss : R) :
  val (_lambda self) <> 0%R -> val (_delta self) <> 0%R ->
  let u := ((gauss - val (_gamma self)) / val (_delta self))%R in
  let mass := candidate self gauss in
  (_massThreshold self <= mass)%R ->
  evaluate (assign_mass mass self) =
  (val (_delta self) / sqrt (2 * PI) / (val (_lambda self) * sqrt (1 + sinh u * sinh u))
   * exp (- / 2 * gauss * gauss))%R.
Proof.
  intros Hl Hd u mass Hm. unfold evaluate. simpl.
  destruct (Exact.ltb mass (_massThreshold self)) eqn:E.
  { apply ltb_true in E. lra. }
  assert ((mass - val (_mu self)) / val (_lambda self) = sinh u)%R as Harg.
  { unfold mass, candidate. simpl. fold u. field. exact Hl. }
  rewrite Harg, arcsinh_sinh.
  replace (val (_gamma self) + val (_delta self) * u)%R with gauss
    by (unfold u; field; exact Hd).
  reflexivity.
Qed.

Lemma evaluate_at_generated_mass_witness :
  evaluate (assign_mass (candidate johnson_unit 0%R) johnson_unit) =
  (1 / sqrt (2 * PI) / (1 * sqrt (1 + sinh ((0 - 0) / 1) * sinh ((0 - 0) / 1)))
   * exp (- / 2 * 0 * 0))%R.
Proof.
  apply (evaluate_at_generated_mass johnson_unit 0%R).
  - simpl. lra.
  - simpl. lra.
  - change (0 <= candidate johnson_unit 0)%R. rewrite sampling_zero_candidate. lra.
Defined.

(** X15. [analyticalIntegral] never answers 0, whatever the code, the
    range and the parameters: a result of 0 is replaced by [1.E-300], so the
    caller can divide by the answer. *)
Theorem analyticalIntegral_never_zero `{!RooFitEnv} (code : Z) (rangeName : option string)
    (self self' : RooJohnson R) (v : R) :
  analyticalIntegral code rangeName self = Ok v self' -> v <> 0%R.
Proof.
  unfold analyticalIntegral. rewrite bind_eq, gets_eq. rewrite bind_eq.
  match goal with
  | |- context [match ?m self with _ => _ end] => destruct (m self) as [[lo hi] s1| | |]
  end; try discriminate.
  intros [= <- _]. simpl.
  match goal with
  | |- context [Exact.eqb ?r 0%R] => destruct (Exact.eqb r 0%R) eqn:E; simpl
  end.
  - assert (0 < 10 ^ 300)%R as P by (apply pow_lt; lra).
    pose proof (Rinv_0_lt_compat _ P). lra.
  - intros E0. rewrite Rmult_1_l in E0. apply eqb_true in E0. congruence.
Qed.

Lemma analyticalIntegral_never_zero_witness :
  exists v, analyticalIntegral kGamma None johnson_unit = Ok v johnson_unit /\ v <> 0%R.
Proof.
  destruct (analyticalIntegral_advertised kGamma None johnson_unit) as (v & Hv).
  - repeat split.
  - right; right; right; left; reflexivity.
  - exists v. split; [exact Hv|].
    exact (analyticalIntegral_never_zero kGamma None johnson_unit johnson_unit v Hv).
Defined.







(** X20. [generateEvent] for the code of the mass takes the first normal
    deviate whose mass passes the test. If the masses of the first [k]
    deviates fail it and that of the next one passes, the call returns with
    that mass assigned, everything else about the PDF unchanged, and exactly
    [k + 1] deviates taken from the generator. *)
Theorem generateEvent_first_acceptable {D : Type} `{!Double D} (k fuel : nat)
    (s : Sampling D) :
  (k < fuel)%nat ->
  (forall j, (j < k)%nat -> ~ acceptable (pdf s) (candidate (pdf s) (randomGenerator s j))) ->
  acceptable (pdf s) (candidate (pdf s) (randomGenerator s k)) ->
  generateEvent fuel 1 s =
  Some (Ok tt (mkSampling (assign_mass (candidate (pdf s) (randomGenerator s k)) (pdf s))
                 (fun n => randomGenerator s (S k + n)))).
Proof.
  unfold generateEvent. rewrite Z.eqb_refl.
  revert fuel s.
  induction k as [|k IH]; intros fuel s Hf Hrej (A1 & A2 & A3);
    (destruct fuel as [|fuel]; [lia|]); rewrite generate_mass_S; cbv zeta.
  - rewrite A1, A2, A3. reflexivity.
  - destruct (_ && _) eqn:E.
    + exfalso. apply (Hrej 0%nat); [lia|].
      apply andb_true_iff in E as [E E3]. apply andb_true_iff in E as [E1 E2].
      repeat split; assumption.
    + rewrite (IH fuel (mkSampling (pdf s) (fun n => randomGenerator s (S n)))).
      * reflexivity.
      * lia.
      * intros j Hj. simpl. apply Hrej. lia.
      * simpl. repeat split; assumption.
Qed.

Lemma generateEvent_first_acceptable_witness :
  generateEvent 2 1 sampling_retry =
  Some (Ok tt (mkSampling (assign_mass (candidate johnson_unit 0%R) johnson_unit)
                 (fun n => randomGenerator sampling_retry (2 + n)))).
Proof.
  apply (generateEvent_first_acceptable 1 2 sampling_retry).
  - lia.
  - intros j Hj (_ & _ & A3). assert (j = 0%nat) as -> by lia.
    simpl in A3. apply leb_true in A3.
    assert (sinh ((-1 - 0) / 1) < sinh 0)%R as Hs by (apply sinh_lt; lra).
    rewrite sinh_0 in Hs. lra.
  - change (acceptable johnson_unit (candidate johnson_unit 0%R)).
    rewrite sampling_zero_candidate. repeat split; apply leb_true; simpl; lra.
Defined.

(** X21. [getAnalyticalIntegral] and [analyticalIntegral] fit together.
    The answer of the first is 0 or one of the five codes; it is the code of
    the mass whenever the mass is among the variables, whatever else is; and
    on every answer other than 0 the second returns a value, in every build
    and every arithmetic, with the PDF unchanged. *)
Theorem getAnalyticalIntegral_answer_is_handled {D RooArgSet : Type} `{!Double D}
    `{!RooFitEnv} (matchArgs : RooArgSet -> RooRealProxy D -> M RooArgSet bool)
    (self : RooJohnson D) (allVars analVars analVars' : RooArgSet) (c : Z)
    (rangeName : option string) :
  consecutive ->
  getAnalyticalIntegral matchArgs self allVars analVars = Ok c analVars' ->
  (c = 0 \/ advertised c) /\
  (forall analVars1, matchArgs allVars (_mass self) analVars = Ok true analVars1 ->
                     c = kMass /\ analVars' = analVars1) /\
  (c <> 0 -> exists v, analyticalIntegral c rangeName self = Ok v self).
Proof.
  intros Henum Hrun.
  assert (c = 0 \/ advertised c) as Hc.
  { revert Hrun. unfold getAnalyticalIntegral, advertised.
    repeat (rewrite bind_eq;
            match goal with
            | |- context [matchArgs ?a ?p ?s] =>
                destruct (matchArgs a p s) as [[|] ?| | |]; try discriminate
            end;
            [intros [= <- _]; tauto |]).
    intros [= <- _]. tauto. }
  split; [exact Hc|]. split.
  - intros analVars1 Hm. unfold getAnalyticalIntegral in Hrun.
    rewrite bind_eq, Hm in Hrun. injection Hrun as <- <-. split; reflexivity.
  - intros Hnz. destruct Hc as [-> | Hadv]; [contradiction|].
    apply analyticalIntegral_advertised; assumption.
Qed.

Lemma getAnalyticalIntegral_answer_is_handled_witness :
  (kMass = 0 \/ advertised kMass) /\
  (forall analVars1, matchArgs_all tt (_mass johnson_unit) tt = Ok true analVars1 ->
                     kMass = kMass /\ tt = analVars1) /\
  (kMass <> 0 -> exists v, analyticalIntegral kMass None johnson_unit = Ok v johnson_unit).
Proof.
  apply (getAnalyticalIntegral_answer_is_handled matchArgs_all johnson_unit tt tt tt kMass
           None).
  - repeat split.
  - reflexivity.
Defined.

End Johnson.

End Extras.
